(** * cpp11presentation: points near the origin

    The repository holds four near-identical programs.  Each one draws one
    hundred random points of the plane, counts those whose Manhattan
    distance to the origin is below [0.5f], and looks for the point nearest
    to the origin.  They differ in how the points are owned and in the
    absolute-value function they call:

    - [Point*] in a [std::vector<Point*>], [std::fabs]
                                                 (module [RawPoint]);
    - [Pos2d*] in a [std::vector<Pos2d*>], [std::abs]
                                                 (module [RawPos2d]);
    - [std::shared_ptr<Point>], [std::fabs]      (module [SharedPoint]);
    - [std::shared_ptr<Pos2d<float>>], with [Pos2d] a template, [std::abs]
                                                 (module [SharedPos2d]).

    The C++ [float] is IEEE 754 binary32; it is modelled with the
    executable specification of floating-point numbers of the standard
    library, instantiated at 24 bits of precision.  Pointers are addresses
    in a store of points; a call returns a value or has no defined
    behaviour. *)

From Stdlib Require Import ZArith Bool Lia.
From Stdlib Require Import Floats.SpecFloat.
From stdpp Require Import base option list gmap.

Local Open Scope Z_scope.

(** ** binary32 *)

Module F32.

Definition prec : Z := 24.
Definition emax : Z := 128.

(** A C++ [float].  Values that the hardware can hold satisfy [valid]. *)
Definition float : Set := spec_float.

Definition valid (v : float) : bool := valid_binary prec emax v.

Definition add (a b : float) : float := SFadd prec emax a b.
Definition sub (a b : float) : float := SFsub prec emax a b.
Definition mul (a b : float) : float := SFmul prec emax a b.
Definition div (a b : float) : float := SFdiv prec emax a b.
Definition opp (a : float) : float := SFopp a.

(** The comparison operators of C++ on [float]: every comparison with a
    NaN is false. *)
Definition lt (a b : float) : bool := SFltb a b.
Definition le (a b : float) : bool := SFleb a b.
Definition eq (a b : float) : bool := SFeqb a b.

(** Conversion of an integer, as in [(float)RAND_MAX]: round to nearest,
    ties to even. *)
Definition of_Z (n : Z) : float := binary_normalize prec emax n 0 false.

(** A decimal literal [n/d] with [n] and [d] exactly representable: the
    division rounds the exact quotient, which is the value the compiler
    gives the literal. *)
Definition literal (n d : Z) : float := div (of_Z n) (of_Z d).

Definition zero : float := S754_zero false.
Definition one : float := Eval cbv in of_Z 1.
Definition two : float := Eval cbv in of_Z 2.
(** [0.5f] *)
Definition half : float := Eval cbv in literal 1 2.
(** [std::numeric_limits<float>::max()] *)
Definition FLT_MAX : float := Eval cbv in SFmax_float prec emax.
Definition infinity : float := S754_infinity false.

(** [std::fabs(float)] and the [float] overload of [std::abs] that
    [<cmath>] declares: both clear the sign bit. *)
Definition std_fabs (v : float) : float := SFabs v.
Definition std_abs (v : float) : float := SFabs v.

Definition is_nan (v : float) : bool :=
  match v with S754_nan => true | _ => false end.

Definition is_finite (v : float) : bool :=
  match v with S754_zero _ | S754_finite _ _ _ => true | _ => false end.

(** Sign bit clear, or not a number: what [std::fabs] and a sum of two
    such values produce. *)
Definition unsigned (v : float) : bool :=
  match v with
  | S754_zero s | S754_infinity s | S754_finite s _ _ => negb s
  | S754_nan => true
  end.

End F32.

Abbreviation float := F32.float.

(** ** Outcomes of a call

    A call returns a value, or leaves by an exception, or has no behaviour
    defined by the language (a null or dangling pointer is dereferenced, a
    vector is indexed outside its bounds).  None of the four programs has a
    [throw]; [EmptyInputError] is the error that the specification names for
    the search in an empty collection. *)

Inductive exception : Set := EmptyInputError.

Inductive outcome (A : Type) : Type :=
| Returns (a : A)
| Raises (e : exception)
| Undefined.

Arguments Returns {A} a.
Arguments Raises {A} e.
Arguments Undefined {A}.

#[global] Instance outcome_ret : MRet outcome := fun A a => Returns a.

#[global] Instance outcome_bind : MBind outcome := fun A B k m =>
  match m with
  | Returns a => k a
  | Raises e => Raises e
  | Undefined => Undefined
  end.

(** ** Points and the free store *)

(** [struct Point { float x; float y; }]; [Pos2d] and [Pos2d<float>] have
    the same two members. *)
Record Point : Set := mkPoint { x : float; y : float }.

Abbreviation Pos2d := Point.

Definition address : Set := positive.

(** A [Point*], a [Point_ptr] or a [Point_cptr]: the null pointer or the
    address of an object.  Reference counts are not modelled: no program
    reads them, and no object dies before the last use of a pointer to it. *)
Definition pointer : Set := option address.

Definition nullptr : pointer := None.

(** The free store: the objects made by [new] and [std::make_shared]. *)
Abbreviation store := (gmap address Point).

(** [*p]: defined when [p] holds the address of a live object. *)
Definition deref (h : store) (p : pointer) : outcome Point :=
  match p with
  | Some a =>
      match h !! a with
      | Some pt => Returns pt
      | None => Undefined
      end
  | None => Undefined
  end.

(** [v[i]] on a [std::vector]: no bounds check, no behaviour outside. *)
Definition subscript {A : Type} (v : list A) (i : nat) : outcome A :=
  match v !! i with
  | Some a => Returns a
  | None => Undefined
  end.

(** A loop that visits the elements of [l] in order, threading the local
    variables [s] through the body. *)
Fixpoint for_each {A S : Type} (body : S -> A -> outcome S)
    (l : list A) (s : S) : outcome S :=
  match l with
  | [] => Returns s
  | a :: l' => s' ← body s a; for_each body l' s'
  end.

(** ** Output, state and statements *)

(** What the programs write to [std::cout], one event for each output
    statement.  The decimal text of a [float] is not modelled: an event
    carries the values that the statement prints. *)
Inductive event : Set :=
| NewPointCreated (pt : Point)
    (* "New point (x, y) created" *)
| PointsNearOrigin (nearOrigin : Z) (size : nat)
    (* "<nearOrigin> of <size> points are near the origin." *)
| NearestPointWas (pt : Point) (min_distance : float)
    (* "The nearest point was (x, y) with distance <min_distance>" *)
| CompiledUsing (cpp11 : bool).
    (* "Compiled using C++11 or later" / "... C++03 or earlier" *)

(** The state a program runs in: the free store, the state of the random
    number engine (of [mersenne], or of [rand]) and the text written so
    far.  The engine is seeded once, by the first call of [RandomNumber],
    from [std::random_device] or from [time(NULL)]: [engine] is the state
    right after the seeding. *)
Record world (Engine : Type) : Type := mkWorld {
  heap : store;
  engine : Engine;
  cout : list event
}.

Arguments mkWorld {Engine} heap engine cout.
Arguments heap {Engine} w.
Arguments engine {Engine} w.
Arguments cout {Engine} w.

(** A statement sequence that returns an [A]. *)
Definition prog (Engine A : Type) : Type :=
  world Engine -> outcome (A * world Engine).

Definition prog_ret {Engine A : Type} (a : A) : prog Engine A :=
  fun w => Returns (a, w).

Definition prog_bind {Engine A B : Type} (m : prog Engine A)
    (k : A -> prog Engine B) : prog Engine B :=
  fun w =>
    match m w with
    | Returns (a, w') => k a w'
    | Raises e => Raises e
    | Undefined => Undefined
    end.

#[global] Instance prog_mret {Engine : Type} : MRet (prog Engine) :=
  fun A => prog_ret.

#[global] Instance prog_mbind {Engine : Type} : MBind (prog Engine) :=
  fun A B k m => prog_bind m k.

(** A call of a function that only reads the store. *)
Definition call {Engine A : Type} (f : store -> outcome A) : prog Engine A :=
  fun w =>
    match f (heap w) with
    | Returns a => Returns (a, w)
    | Raises e => Raises e
    | Undefined => Undefined
    end.

(** [std::cout << ...] *)
Definition print {Engine : Type} (ev : event) : prog Engine unit :=
  fun w => Returns (tt, mkWorld (heap w) (engine w) (cout w ++ [ev])).

(** [new Point(x, y)] and [std::make_shared<Point>(x, y)]: an object at an
    address that holds no object yet. *)
Definition new {Engine : Type} (pt : Point) : prog Engine pointer :=
  fun w =>
    let a := fresh (dom (heap w)) in
    Returns (Some a, mkWorld (<[a := pt]> (heap w)) (engine w) (cout w)).

(** [delete p]: nothing for the null pointer, the end of the object for a
    live one, no defined behaviour otherwise. *)
Definition delete_ {Engine : Type} (p : pointer) : prog Engine unit :=
  fun w =>
    match p with
    | None => Returns (tt, w)
    | Some a =>
        match heap w !! a with
        | Some _ => Returns (tt, mkWorld (delete a (heap w)) (engine w) (cout w))
        | None => Undefined
        end
    end.

(** A counted loop whose body does not read the counter. *)
Fixpoint repeat_ {Engine S : Type} (n : nat) (body : S -> prog Engine S)
    (s : S) : prog Engine S :=
  match n with
  | O => mret s
  | S n' => s' ← body s; repeat_ n' body s'
  end.

(** [for_each] for statements that change the world. *)
Fixpoint for_each_ {Engine A : Type} (body : A -> prog Engine unit)
    (l : list A) : prog Engine unit :=
  match l with
  | [] => mret tt
  | a :: l' => _ ← body a; for_each_ body l'
  end.

Definition EXIT_SUCCESS : Z := 0.

(** [rand()] returns an [int], so [RAND_MAX] is at most [INT_MAX]; [int]
    has 32 bits. *)
Definition INT_MAX : Z := 2147483647.

(** ** The algorithm, for either absolute-value function *)

Module Core.
Section WithAbs.

(** [std::abs] or [std::fabs]. *)
Variable absolute : float -> float.

(** The value of [absolute(point->x) + absolute(point->y)] for the object
    that [point] designates. *)
Definition distance (pt : Point) : float :=
  F32.add (absolute (x pt)) (absolute (y pt)).

(** [return absolute(point->x) + absolute(point->y);] *)
Definition ManhattanToOrigin (h : store) (point : pointer) : outcome float :=
  px ← deref h point;
  py ← deref h point;
  mret (F32.add (absolute (x px)) (absolute (y py))).

(** [return (ManhattanToOrigin(point) < 0.5f);] *)
Definition IsNearOrigin (h : store) (point : pointer) : outcome bool :=
  d ← ManhattanToOrigin h point;
  mret (F32.lt d F32.half).

(** The counting loop of [main], range-based:
    [for (auto point: points) if (IsNearOrigin(point)) ++nearOrigin;]
    The counter is an [int]; it never exceeds the size of the vector, so
    its arithmetic is that of the integers. *)
Definition count_body (h : store) (nearOrigin : Z) (point : pointer)
    : outcome Z :=
  near ← IsNearOrigin h point;
  mret (if (near : bool) then nearOrigin + 1 else nearOrigin).

Definition count_range (h : store) (points : list pointer) : outcome Z :=
  for_each (count_body h) points 0.

(** The counting loop of [main], indexed:
    [for (unsigned int i = 0; i < points.size(); ++i)
       if (IsNearOrigin(points[i])) ++nearOrigin;] *)
Definition count_body_at (h : store) (points : list pointer)
    (nearOrigin : Z) (i : nat) : outcome Z :=
  point ← subscript points i;
  count_body h nearOrigin point.

Definition count_indexed (h : store) (points : list pointer) : outcome Z :=
  for_each (count_body_at h points) (seq 0 (length points)) 0.

(** Body of the loop of the [shared_ptr] search:
    [if (ManhattanToOrigin(point) < min_distance)
       { min_point = point; min_distance = ManhattanToOrigin(point); }] *)
Definition nearest_body (h : store) (s : pointer * float) (point : pointer)
    : outcome (pointer * float) :=
  let '(min_point, min_distance) := s in
  d ← ManhattanToOrigin h point;
  if F32.lt d min_distance
  then d' ← ManhattanToOrigin h point; mret (point, d')
  else mret (min_point, min_distance).

(** [std::tuple<Point_cptr, float> NearestToOrigin(const
    std::vector<Point_ptr>& points)] *)
Definition NearestToOrigin_shared (h : store) (points : list pointer)
    : outcome (pointer * float) :=
  for_each (nearest_body h) points (nullptr, F32.FLT_MAX).

(** Body of the loop of the raw-pointer search:
    [if (ManhattanToOrigin(points[i]) < min_distance)
       { min_index = i; min_distance = ManhattanToOrigin(points[i]); }] *)
Definition nearest_body_at (h : store) (points : list pointer)
    (s : nat * float) (i : nat) : outcome (nat * float) :=
  let '(min_index, min_distance) := s in
  point ← subscript points i;
  d ← ManhattanToOrigin h point;
  if F32.lt d min_distance
  then point' ← subscript points i;
       d' ← ManhattanToOrigin h point';
       mret (i, d')
  else mret (min_index, min_distance).

(** The loop alone,
    [for (unsigned int i = 0; i < points.size(); ++i)], from
    [min_index = 0] and [min_distance = FLT_MAX]: the final [min_index] and
    the value left in the reference parameter [min_distance]. *)
Definition nearest_scan (h : store) (points : list pointer)
    : outcome (nat * float) :=
  for_each (nearest_body_at h points) (seq 0 (length points))
           (0%nat, F32.FLT_MAX).

(** [Point* NearestToOrigin(const std::vector<Point*>& points,
    float& min_distance)]: the returned pointer, with the value written
    through [min_distance]. *)
Definition NearestToOrigin_raw (h : store) (points : list pointer)
    : outcome (pointer * float) :=
  '(min_index, min_distance) ← nearest_scan h points;
  point ← subscript points min_index;
  mret (point, min_distance).


(** *** The random number source and [main] *)

Context {Engine : Type}.

(** [__cplusplus > 199711L] *)
Variable cpp11 : bool.

(** What the C++ library provides and the repository does not hold:
    [uniform a b e] is the value that a
    [std::uniform_real_distribution<float>(a, b)] draws from the engine
    in state [e], with the next state; [rand e] is the same for
    [rand()]. *)
Variable uniform : float -> float -> Engine -> float * Engine.
Variable rand : Engine -> Z * Engine.
Variable RAND_MAX : Z.

(** The order in which the two arguments of the constructor call are
    evaluated is left to the compiler. *)
Variable left_to_right : bool.

(** [float RandomNumber()].  The arithmetic of the branch for C++03 is
    done in [float], with the [int] that [rand()] returns converted
    first. *)
Definition RandomNumber : prog Engine float :=
  fun w =>
    if cpp11 then
      let '(v, e) := uniform (F32.opp F32.one) F32.one (engine w) in
      Returns (v, mkWorld (heap w) e (cout w))
    else
      let '(r, e) := rand (engine w) in
      Returns (F32.sub
                 (F32.mul F32.two (F32.div (F32.of_Z r) (F32.of_Z RAND_MAX)))
                 F32.one,
               mkWorld (heap w) e (cout w)).

(** [Point* RandomPoint()], [Point_ptr RandomPoint()] *)
Definition RandomPoint : prog Engine pointer :=
  first ← RandomNumber;
  second ← RandomNumber;
  let pt := if left_to_right then mkPoint first second
            else mkPoint second first in
  new_point ← new pt;
  created ← call (fun h => deref h new_point);
  _ ← print (NewPointCreated created);
  mret new_point.

(** [for (int i = 0; i < 100; ++i) points.push_back(RandomPoint());] *)
Definition fill (n : nat) : prog Engine (list pointer) :=
  repeat_ n (fun points => p ← RandomPoint; mret (points ++ [p])) [].

(** [int main()] of the two [shared_ptr] programs *)
Definition main_shared : prog Engine Z :=
  points ← fill 100;
  nearOrigin ← call (fun h => count_range h points);
  _ ← print (PointsNearOrigin nearOrigin (length points));
  '(nearest_point, min_distance) ←
     call (fun h => NearestToOrigin_shared h points);
  nearest ← call (fun h => deref h nearest_point);
  _ ← print (NearestPointWas nearest min_distance);
  _ ← print (CompiledUsing cpp11);
  mret EXIT_SUCCESS.

(** [int main()] of the two raw-pointer programs; the last loop is
    [for (unsigned int i = 0; i < points.size(); ++i) delete points[i];] *)
Definition main_raw : prog Engine Z :=
  points ← fill 100;
  nearOrigin ← call (fun h => count_indexed h points);
  _ ← print (PointsNearOrigin nearOrigin (length points));
  '(nearest_point, min_distance) ←
     call (fun h => NearestToOrigin_raw h points);
  nearest ← call (fun h => deref h nearest_point);
  _ ← print (NearestPointWas nearest min_distance);
  _ ← for_each_ (fun i => point ← call (fun _ => subscript points i);
                         delete_ point)
                (seq 0 (length points));
  _ ← print (CompiledUsing cpp11);
  mret EXIT_SUCCESS.

End WithAbs.
End Core.

(** The last loop of [main] in the raw-pointer programs:
    [for (unsigned int i = 0; i < points.size(); ++i) delete points[i];] *)
Definition tidy_up {Engine : Type} (points : list pointer)
    : prog Engine unit :=
  for_each_ (fun i => point ← call (fun _ => subscript points i);
                      delete_ point)
            (seq 0 (length points)).

(** ** The four programs *)

(** The program with [Point*] and [std::fabs] *)
Module RawPoint.
Definition ManhattanToOrigin := Core.ManhattanToOrigin F32.std_fabs.
Definition PointIsNearOrigin := Core.IsNearOrigin F32.std_fabs.
Definition NearestToOrigin := Core.NearestToOrigin_raw F32.std_fabs.
Definition nearOrigin := Core.count_indexed F32.std_fabs.
Definition RandomNumber {Engine} := @Core.RandomNumber Engine.
Definition main {Engine} := @Core.main_raw F32.std_fabs Engine.
End RawPoint.

(** The program with [Pos2d*] and [std::abs] *)
Module RawPos2d.
Definition ManhattanToOrigin := Core.ManhattanToOrigin F32.std_abs.
Definition Pos2dIsNearOrigin := Core.IsNearOrigin F32.std_abs.
Definition NearestToOrigin := Core.NearestToOrigin_raw F32.std_abs.
Definition nearOrigin := Core.count_indexed F32.std_abs.
Definition RandomNumber {Engine} := @Core.RandomNumber Engine.
Definition main {Engine} := @Core.main_raw F32.std_abs Engine.
End RawPos2d.

(** The program with [std::shared_ptr<Point>] and [std::fabs]; it needs
    C++11. *)
Module SharedPoint.
Definition ManhattanToOrigin := Core.ManhattanToOrigin F32.std_fabs.
Definition PointIsNearOrigin := Core.IsNearOrigin F32.std_fabs.
Definition NearestToOrigin := Core.NearestToOrigin_shared F32.std_fabs.
Definition nearOrigin := Core.count_range F32.std_fabs.
Definition RandomNumber {Engine} := @Core.RandomNumber Engine true.
Definition main {Engine} := @Core.main_shared F32.std_fabs Engine true.
End SharedPoint.

(** The program with [std::shared_ptr<Pos2d<float>>] and [std::abs]; it
    needs C++11. *)
Module SharedPos2d.
Definition ManhattanToOrigin := Core.ManhattanToOrigin F32.std_abs.
Definition Pos2dIsNearOrigin := Core.IsNearOrigin F32.std_abs.
Definition NearestToOrigin := Core.NearestToOrigin_shared F32.std_abs.
Definition nearOrigin := Core.count_range F32.std_abs.
Definition RandomNumber {Engine} := @Core.RandomNumber Engine true.
Definition main {Engine} := @Core.main_shared F32.std_abs Engine true.
End SharedPos2d.

(** ** The seeding of [rand()]

    Before C++11 [RandomNumber] seeds the generator itself, at its first
    call:
    [static bool firstrun=true;
     if (firstrun) { firstrun = false; srand(time(NULL)); }]
    Here the state of the engine is the pair of [firstrun] and of the state
    of the generator of [<cstdlib>]. *)

Module Seeded.
Section WithLibrary.

Context {Generator : Type}.

(** [srand seed] is the state of the generator after [srand(seed)];
    [time_NULL] is the value of [time(NULL)] at the first call, which
    [srand] receives as an [unsigned int], of 32 bits. *)
Variable srand : Z -> Generator.
Variable time_NULL : Z.
Variable rand : Generator -> Z * Generator.
Variable RAND_MAX : Z.

(** [float RandomNumber()], before C++11, with its [static] variable *)
Definition RandomNumber : prog (bool * Generator) float :=
  fun w =>
    let '(firstrun, g) := engine w in
    let '(firstrun, g) :=
      if (firstrun : bool) then (false, srand (time_NULL mod 2 ^ 32))
      else (firstrun, g) in
    let '(r, g') := rand g in
    Returns (F32.sub
               (F32.mul F32.two (F32.div (F32.of_Z r) (F32.of_Z RAND_MAX)))
               F32.one,
             mkWorld (heap w) (firstrun, g') (cout w)).

End WithLibrary.
End Seeded.

(** ** The contracts of the specification

    The functions of the specification, in its own words and on point
    values; the theorems compare them with the code above. *)

Module Spec.

(** The absolute value, as arithmetic defines it: the number, or its
    opposite when the number is negative. *)
Definition magnitude (v : float) : float :=
  if F32.lt v F32.zero then F32.opp v else v.

(** "returns [|x| + |y|]" *)
Definition manhattan_distance (point : Point) : float :=
  F32.add (magnitude (x point)) (magnitude (y point)).

(** "returns [manhattan_distance(point) < threshold]" *)
Definition is_near_origin (point : Point) (threshold : float) : bool :=
  F32.lt (manhattan_distance point) threshold.

(** "counts all elements satisfying the predicate" *)
Fixpoint count_near_origin (collection : list Point) (threshold : float)
    : Z :=
  match collection with
  | [] => 0
  | point :: rest =>
      (if is_near_origin point threshold then 1 else 0)
      + count_near_origin rest threshold
  end.

End Spec.

(** ** Vocabulary of the statements *)

(** The object that a pointer designates in a store, if any. *)
Definition pointee (h : store) (p : pointer) : option Point :=
  a ← p; h !! a.

(** [holds h points pts]: the vector [points] holds, in order, pointers to
    the live objects [pts].  This is the invariant of the collection: every
    element is a fully constructed point, none is null. *)
Definition holds (h : store) (points : list pointer) (pts : list Point)
    : Prop :=
  Forall2 (fun p pt => pointee h p = Some pt) points pts.

(** Two numbers that compare equal: the same number, or two zeros. *)
Definition same_number (a b : float) : Prop := F32.eq a b = true.

(** One step of a search for the minimum: the candidate replaces the
    current best when its distance is strictly smaller. *)
Definition select {A : Type} (s c : A * float) : A * float :=
  if F32.lt c.2 s.2 then c else s.

Definition scan {A : Type} (l : list (A * float)) (s : A * float)
    : A * float :=
  fold_left select l s.

(** The number of distances below a threshold. *)
Fixpoint count_below (t : float) (ds : list float) : Z :=
  match ds with
  | [] => 0
  | d :: ds' => (if F32.lt d t then 1 else 0) + count_below t ds'
  end.

(** A coordinate that the random number source can deliver: a number of
    [[-1, +1]]. *)
Definition in_unit_range (v : float) : Prop :=
  F32.valid v = true /\
  F32.le (F32.opp F32.one) v = true /\ F32.le v F32.one = true.

Definition generated (pt : Point) : Prop :=
  in_unit_range (x pt) /\ in_unit_range (y pt).

(** [best ds k s]: after the first [k] of the distances [ds], the state [s]
    of a search holds the index of the first least distance so far and
    that distance, or no index and the initial [FLT_MAX] when no distance
    so far was below it. *)
Definition best (ds : list float) (k : nat) (s : option nat * float)
    : Prop :=
  (forall j d, (j < k)%nat -> ds !! j = Some d -> F32.lt d s.2 = false) /\
  match s.1 with
  | None => s.2 = F32.FLT_MAX
  | Some i =>
      (i < k)%nat /\ ds !! i = Some s.2 /\ F32.lt s.2 F32.FLT_MAX = true /\
      forall j d, (j < i)%nat -> ds !! j = Some d -> F32.eq d s.2 = false
  end.

(** The pointer and the index that the two searches keep for a state of
    the search. *)
Definition pointer_at (points : list pointer) (i : option nat) : pointer :=
  match i with
  | Some i => default nullptr (points !! i)
  | None => nullptr
  end.

Definition index_at (i : option nat) : nat := default 0%nat i.

(** The search over all the distances, from the initial state. *)
Definition search (ds : list float) : option nat * float :=
  scan (zip (map Some (seq 0 (length ds))) ds) (None, F32.FLT_MAX).

(** A call that does not leave by an exception. *)
Definition no_raise {A : Type} (o : outcome A) : Prop :=
  forall e : exception, o <> Raises e.

(** A pointer that designates a live object: not null, not dangling. *)
Definition live (h : store) (p : pointer) : Prop := is_Some (pointee h p).

(** [least ds m]: what a search leaves in [min_distance] for the distances
    [ds]: no distance is below [m], and [m] is one of the distances that
    are below [FLT_MAX], or [FLT_MAX] itself. *)
Definition least (ds : list float) (m : float) : Prop :=
  (forall d, d ∈ ds -> F32.lt d m = false) /\
  (m = F32.FLT_MAX \/ (m ∈ ds /\ F32.lt m F32.FLT_MAX = true)).

(** The pointers whose object is at a distance below [FLT_MAX]: the only
    ones that a search can select. *)
Definition below_max (h : store) (p : pointer) : bool :=
  match pointee h p with
  | Some pt => F32.lt (Core.distance F32.std_fabs pt) F32.FLT_MAX
  | None => false
  end.

(** What the loop that tidies up needs: no object twice in the vector,
    and every element null or live. *)
Definition deletable (h : store) (rest : list pointer) : Prop :=
  NoDup (filter (fun p => p <> nullptr) rest) /\
  Forall (fun p => p = nullptr \/ live h p) rest.

(** ** Collections of the examples *)

Module Examples.

(** [[(0.1, 0.1), (0.9, 0.9), (-0.2, 0.1)]] *)
Definition scenario_store : store :=
  {[ 1%positive := mkPoint (F32.literal 1 10) (F32.literal 1 10);
     2%positive := mkPoint (F32.literal 9 10) (F32.literal 9 10);
     3%positive := mkPoint (F32.opp (F32.literal 2 10)) (F32.literal 1 10) ]}.

Definition scenario_points : list pointer :=
  [Some 1%positive; Some 2%positive; Some 3%positive].

(** [[(1, 0), (0, 1)]] *)
Definition tie_store : store :=
  {[ 1%positive := mkPoint F32.one F32.zero;
     2%positive := mkPoint F32.zero F32.one ]}.

Definition tie_points : list pointer := [Some 1%positive; Some 2%positive].

(** [[(FLT_MAX, 0)]] and [[(FLT_MAX, 0), (0, FLT_MAX)]] *)
Definition far_store : store :=
  {[ 1%positive := mkPoint F32.FLT_MAX F32.zero;
     2%positive := mkPoint F32.zero F32.FLT_MAX ]}.

(** [[(FLT_MAX, FLT_MAX)]]: the distance overflows. *)
Definition overflow_store : store :=
  {[ 1%positive := mkPoint F32.FLT_MAX F32.FLT_MAX ]}.

(** [[(0.25, 0.25)]]: the distance is exactly [0.5]. *)
Definition boundary_store : store :=
  {[ 1%positive := mkPoint (F32.literal 1 4) (F32.literal 1 4) ]}.

End Examples.

(** A call that returns a number of [[-1, +1]] and changes nothing but
    the state of the engine. *)
Definition draws_in_range {Engine : Type} (m : prog Engine float)
    (w : world Engine) : Prop :=
  exists (v : float) (w' : world Engine),
    m w = Returns (v, w') /\ in_unit_range v /\
    heap w' = heap w /\ cout w' = cout w.

(** What the programs assume of the C++ library: the distribution draws a
    number between its bounds, [rand()] returns an [int] of
    [[0, RAND_MAX]]. *)
Definition library_contract {Engine : Type}
    (uniform : float -> float -> Engine -> float * Engine)
    (rand : Engine -> Z * Engine) (RAND_MAX : Z) : Prop :=
  (forall a b e, F32.valid a = true -> F32.valid b = true ->
                 F32.lt a b = true ->
                 F32.valid (uniform a b e).1 = true /\
                 F32.le a (uniform a b e).1 = true /\
                 F32.le (uniform a b e).1 b = true) /\
  (forall e, 0 <= (rand e).1 <= RAND_MAX) /\
  0 < RAND_MAX <= INT_MAX.

(** The state of [main] while it fills the vector, from the world [w0]:
    the elements of [points] are distinct pointers to the live objects
    [pts], none of which was live in [w0]; every other object is as it
    was; one line has been written for each new object, in order. *)
Definition filled_since {Engine : Type} (w0 : world Engine)
    (points : list pointer) (pts : list Point) (w : world Engine) : Prop :=
  holds (heap w) points pts /\ Forall generated pts /\ NoDup points /\
  cout w = cout w0 ++ map NewPointCreated pts /\
  (forall p, p ∈ points -> pointee (heap w0) p = None) /\
  (forall p, p ∉ points -> pointee (heap w) p = pointee (heap w0) p).

(** *** The points that a run draws

    What the calls of [RandomNumber] and of [RandomPoint] return is a
    function of the state of the engine. *)

Section Draws.

Context {Engine : Type}.
Variable cpp11 : bool.
Variable uniform : float -> float -> Engine -> float * Engine.
Variable rand : Engine -> Z * Engine.
Variable RAND_MAX : Z.
Variable left_to_right : bool.

(** The number that a call of [RandomNumber] returns, with the next state
    of the engine. *)
Definition next_number (e : Engine) : float * Engine :=
  if cpp11 then uniform (F32.opp F32.one) F32.one e
  else
    let '(r, e') := rand e in
    (F32.sub (F32.mul F32.two (F32.div (F32.of_Z r) (F32.of_Z RAND_MAX)))
             F32.one, e').

(** The point that a call of [RandomPoint] makes. *)
Definition next_point (e : Engine) : Point * Engine :=
  let '(first, e1) := next_number e in
  let '(second, e2) := next_number e1 in
  (if left_to_right then mkPoint first second else mkPoint second first,
   e2).

(** The points that [n] successive calls of [RandomPoint] make. *)
Fixpoint next_points (n : nat) (e : Engine) : list Point * Engine :=
  match n with
  | O => ([], e)
  | S n' =>
      let '(pt, e1) := next_point e in
      let '(pts, e2) := next_points n' e1 in
      (pt :: pts, e2)
  end.

End Draws.


(** [n] successive calls of a function, with the values they return, in
    order. *)
Definition successive {Engine A : Type} (n : nat) (m : prog Engine A)
    : prog Engine (list A) :=
  repeat_ n (fun vs => v ← m; mret (vs ++ [v])) [].

(** An engine for the examples: the distribution draws its lower bound,
    [rand()] returns [16383] of a [RAND_MAX] of [32767]. *)
Module ExampleEngine.
Definition uniform (a b : float) (e : unit) : float * unit := (a, e).
Definition rand (e : unit) : Z * unit := (16383, e).
Definition RAND_MAX : Z := 32767.
Definition start : world unit := mkWorld ∅ tt [].
End ExampleEngine.

(** ** Vocabulary of the rounding lemmas *)

Module Round.
Import F32.

(** The mantissa [m], with what is known of the digits below it, shifted
    by [n] places and rounded to nearest, ties to even. *)
Definition rounded (m : Z) (l : location) (n : Z) : Z :=
  let mrs := Nat.iter (Z.to_nat n) shr_1 (shr_record_of_loc m l) in
  round_nearest_even (shr_m mrs) (loc_of_shr_record mrs).

(** The number with mantissa [m2 <= 2 ^ 24] and exponent [e1], once the
    mantissa is brought back to 24 bits and the exponent is checked. *)
Definition pack (sx : bool) (m2 e1 : Z) : float :=
  if m2 =? 0 then S754_zero sx
  else if m2 <? 2 ^ 24 then
    if e1 <=? 104 then S754_finite sx (Z.to_pos m2) e1
    else S754_infinity sx
  else
    if e1 + 1 <=? 104 then S754_finite sx (Z.to_pos (2 ^ 23)) (e1 + 1)
    else S754_infinity sx.

(** [m1 * 2 ^ e1 <= m2 * 2 ^ e2], stated on integers. *)
Definition vle (m1 e1 m2 e2 : Z) : Prop :=
  m1 * 2 ^ (e1 - Z.min e1 e2) <= m2 * 2 ^ (e2 - Z.min e1 e2).

Definition vlt (m1 e1 m2 e2 : Z) : Prop :=
  m1 * 2 ^ (e1 - Z.min e1 e2) < m2 * 2 ^ (e2 - Z.min e1 e2).

(** The number [2 ^ (d - 1)] for [d] digits. *)
Definition pow2_float (d : Z) : float :=
  S754_finite false (Z.to_pos (2 ^ 23)) (d - 24).

End Round.

(** * Properties *)

(** ** The order of [float] *)

Module F32Order.
Import F32.

(** Splits the comparisons of exponents and mantissas that [SFcompare]
    makes on two finite numbers. *)
Ltac split_compare :=
  repeat match goal with
  | H : context [Pos.compare_cont Eq ?a ?b] |- _ =>
      change (Pos.compare_cont Eq a b) with (Pos.compare a b) in H
  | |- context [Pos.compare_cont Eq ?a ?b] =>
      change (Pos.compare_cont Eq a b) with (Pos.compare a b)
  end;
  repeat match goal with
  | H : context [Z.compare ?a ?b] |- _ =>
      destruct (Z.compare_spec a b); simpl in H; try discriminate H
  | |- context [Z.compare ?a ?b] =>
      destruct (Z.compare_spec a b); simpl
  | H : context [Pos.compare ?a ?b] |- _ =>
      destruct (Pos.compare_spec a b); simpl in H; try discriminate H
  | |- context [Pos.compare ?a ?b] =>
      destruct (Pos.compare_spec a b); simpl
  end;
  subst; try reflexivity; try discriminate; try lia.

Ltac by_cases a b c :=
  unfold lt, le, eq, SFltb, SFleb, SFeqb;
  destruct a as [[]|[]| |[] ? ?], b as [[]|[]| |[] ? ?],
           c as [[]|[]| |[] ? ?];
  simpl; intros; try discriminate; try reflexivity; split_compare.

Lemma lt_irrefl (a : float) : lt a a = false.
Proof.
  unfold lt, SFltb.
  destruct a as [[]|[]| |[] m e]; simpl; try reflexivity;
    rewrite Z.compare_refl;
    change (Pos.compare_cont Eq m m) with (Pos.compare m m);
    rewrite Pos.compare_refl; reflexivity.
Qed.

Lemma lt_trans (a b c : float) :
  lt a b = true -> lt b c = true -> lt a c = true.
Proof. revert a b c. intros a b c. by_cases a b c. Qed.

Lemma eq_lt_trans (a b c : float) :
  eq a b = true -> lt b c = true -> lt a c = true.
Proof. by_cases a b c. Qed.

Lemma lt_le_trans (a b c : float) :
  lt a b = true -> le b c = true -> lt a c = true.
Proof. by_cases a b c. Qed.

Lemma le_lt_trans (a b c : float) :
  le a b = true -> lt b c = true -> lt a c = true.
Proof. by_cases a b c. Qed.

Lemma le_trans (a b c : float) :
  le a b = true -> le b c = true -> le a c = true.
Proof. by_cases a b c. Qed.

Lemma eq_refl_finite (a : float) : is_nan a = false -> eq a a = true.
Proof.
  unfold eq, SFeqb.
  destruct a as [[]|[]| |[] m e]; simpl; intros; try reflexivity;
    try discriminate;
    rewrite Z.compare_refl;
    change (Pos.compare_cont Eq m m) with (Pos.compare m m);
    rewrite Pos.compare_refl; reflexivity.
Qed.

Lemma lt_not_nan_l (a b : float) : lt a b = true -> is_nan a = false.
Proof. destruct a, b; simpl; intros; try reflexivity; discriminate. Qed.

Lemma eq_not_lt (a b : float) : eq a b = true -> lt a b = false.
Proof.
  unfold eq, lt, SFeqb, SFltb.
  destruct (SFcompare a b) as [[]|]; intros; try discriminate; reflexivity.
Qed.

(** A value with a clear sign bit is below no value that is at most
    zero. *)
Lemma unsigned_not_lt (d t : float) :
  unsigned d = true -> le t zero = true -> lt d t = false.
Proof.
  unfold unsigned, lt, le, zero, SFltb, SFleb.
  destruct d as [[]|[]| |[] md ed], t as [[]|[]| |[] mt et];
    simpl; intros; try discriminate; reflexivity.
Qed.

Lemma lt_le (a b : float) : lt a b = true -> le a b = true.
Proof.
  unfold lt, le, SFltb, SFleb.
  destruct (SFcompare a b) as [[]|]; intros; try discriminate; reflexivity.
Qed.

Lemma le_refl (a : float) : is_nan a = false -> le a a = true.
Proof.
  intros H. pose proof (eq_refl_finite a H) as E. revert E.
  unfold le, eq, SFleb, SFeqb.
  destruct (SFcompare a a) as [[]|]; intros; try discriminate; reflexivity.
Qed.

(** Two negative numbers are ordered as their magnitudes are, the other
    way round. *)
Lemma le_negated (m m0 : positive) (e e0 : Z) :
  le (S754_finite true m0 e0) (S754_finite true m e)
  = le (S754_finite false m e) (S754_finite false m0 e0).
Proof. unfold le, SFleb. cbn [SFcompare]. split_compare. Qed.

End F32Order.

(** ** The model: loops and dereferences *)

Section Model.

Variable absolute : float -> float.

Lemma subscript_lookup {A : Type} (v : list A) (i : nat) (a : A) :
  v !! i = Some a -> subscript v i = Returns a.
Proof. unfold subscript. intros ->. reflexivity. Qed.

Lemma deref_pointee (h : store) (p : pointer) (pt : Point) :
  pointee h p = Some pt -> deref h p = Returns pt.
Proof.
  unfold pointee, deref. destruct p as [a|]; simpl; [|discriminate].
  intros ->. reflexivity.
Qed.


Lemma Manhattan_pointee (h : store) (p : pointer) (pt : Point) :
  pointee h p = Some pt ->
  Core.ManhattanToOrigin absolute h p = Returns (Core.distance absolute pt).
Proof.
  intros H. unfold Core.ManhattanToOrigin.
  rewrite (deref_pointee _ _ _ H). reflexivity.
Qed.

Lemma IsNearOrigin_pointee (h : store) (p : pointer) (pt : Point) :
  pointee h p = Some pt ->
  Core.IsNearOrigin absolute h p
  = Returns (F32.lt (Core.distance absolute pt) F32.half).
Proof.
  intros H. unfold Core.IsNearOrigin.
  rewrite (Manhattan_pointee _ _ _ H). reflexivity.
Qed.

Lemma count_body_pointee (h : store) (p : pointer) (pt : Point) (n : Z) :
  pointee h p = Some pt ->
  Core.count_body absolute h n p
  = Returns (if F32.lt (Core.distance absolute pt) F32.half
             then n + 1 else n).
Proof.
  intros H. unfold Core.count_body.
  rewrite (IsNearOrigin_pointee _ _ _ H). reflexivity.
Qed.

Lemma nearest_body_pointee (h : store) (p : pointer) (pt : Point)
    (s : pointer * float) :
  pointee h p = Some pt ->
  Core.nearest_body absolute h s p
  = Returns (select s (p, Core.distance absolute pt)).
Proof.
  intros H. destruct s as [mp md]. unfold Core.nearest_body, select.
  rewrite (Manhattan_pointee _ _ _ H). simpl.
  destruct (F32.lt (Core.distance absolute pt) md); reflexivity.
Qed.

Lemma nearest_body_at_pointee (h : store) (points : list pointer)
    (i : nat) (p : pointer) (pt : Point) (s : nat * float) :
  points !! i = Some p -> pointee h p = Some pt ->
  Core.nearest_body_at absolute h points s i
  = Returns (select s (i, Core.distance absolute pt)).
Proof.
  intros Hi H. destruct s as [mi md]. unfold Core.nearest_body_at, select.
  rewrite (subscript_lookup _ _ _ Hi). simpl.
  rewrite (Manhattan_pointee _ _ _ H). simpl.
  destruct (F32.lt (Core.distance absolute pt) md); reflexivity.
Qed.

Lemma holds_length (h : store) (points : list pointer) (pts : list Point) :
  holds h points pts -> length points = length pts.
Proof. apply Forall2_length. Qed.


(** The indexed loops visit the elements of the vector in order: over a
    vector of live pointers an indexed loop and the range-based loop with
    the same body agree. *)
Lemma for_each_indexed {St : Type} (body : St -> pointer -> outcome St)
    (points : list pointer) :
  forall (rest : list pointer) (k : nat) (s : St),
    (forall i p, rest !! i = Some p -> points !! (k + i)%nat = Some p) ->
    for_each (fun s i => point ← subscript points i; body s point)
             (seq k (length rest)) s
    = for_each body rest s.
Proof.
  induction rest as [|p rest IH]; intros k s Hk; [reflexivity|].
  assert (Hpk : points !! k = Some p).
  { rewrite <- (Nat.add_0_r k). apply Hk. reflexivity. }
  cbn [length seq for_each]. rewrite (subscript_lookup _ _ _ Hpk).
  cbn [mbind outcome_bind mret outcome_ret].
  destruct (body s p) as [s'| |]; cbn [mbind outcome_bind];
    try reflexivity.
  apply IH. intros i q Hq.
  replace (S k + i)%nat with (k + S i)%nat by lia.
  apply Hk. exact Hq.
Qed.

Lemma count_indexed_range (h : store) (points : list pointer) :
  Core.count_indexed absolute h points = Core.count_range absolute h points.
Proof.
  unfold Core.count_indexed, Core.count_range, Core.count_body_at.
  apply (for_each_indexed (Core.count_body absolute h) points points 0).
  intros i p Hp. exact Hp.
Qed.

Lemma count_loop (h : store) (points : list pointer) (pts : list Point) :
  holds h points pts ->
  forall n : Z,
    for_each (Core.count_body absolute h) points n
    = Returns (n + count_below F32.half (map (Core.distance absolute) pts)).
Proof.
  induction 1 as [|p pt points pts Hp _ IH]; intros n.
  - simpl. f_equal. lia.
  - cbn [for_each]. rewrite (count_body_pointee _ _ _ n Hp).
    cbn [mbind outcome_bind]. rewrite IH. f_equal.
    cbn [map count_below].
    destruct (F32.lt (Core.distance absolute pt) F32.half); lia.
Qed.

Lemma count_below_bounds (t : float) (ds : list float) :
  0 <= count_below t ds <= Z.of_nat (length ds).
Proof.
  induction ds as [|d ds IH]; simpl; [lia|].
  destruct (F32.lt d t); lia.
Qed.

(** The search of the [shared_ptr] programs is a [scan] of the pointers
    with their distances. *)
Lemma nearest_loop (h : store) (points : list pointer) (pts : list Point) :
  holds h points pts ->
  forall s : pointer * float,
    for_each (Core.nearest_body absolute h) points s
    = Returns (scan (zip points (map (Core.distance absolute) pts)) s).
Proof.
  induction 1 as [|p pt points pts Hp _ IH]; intros s; [reflexivity|].
  cbn [for_each]. rewrite (nearest_body_pointee _ _ _ s Hp).
  cbn [mbind outcome_bind]. apply IH.
Qed.

(** The loop of the raw-pointer programs is a [scan] of the indices with
    the distances. *)
Lemma nearest_loop_at (h : store) (points : list pointer) :
  forall (rest : list pointer) (pts : list Point) (k : nat)
         (s : nat * float),
    (forall i p, rest !! i = Some p -> points !! (k + i)%nat = Some p) ->
    holds h rest pts ->
    for_each (Core.nearest_body_at absolute h points)
             (seq k (length rest)) s
    = Returns (scan (zip (seq k (length rest))
                         (map (Core.distance absolute) pts)) s).
Proof.
  intros rest pts k s Hk H. revert k s Hk.
  induction H as [|p pt rest pts Hp _ IH]; intros k s Hk;
    [reflexivity|].
  assert (Hpk : points !! k = Some p).
  { rewrite <- (Nat.add_0_r k). apply Hk. reflexivity. }
  cbn [length seq for_each].
  rewrite (nearest_body_at_pointee _ _ _ _ _ s Hpk Hp).
  cbn [mbind outcome_bind].
  assert (Hk' : forall i q, rest !! i = Some q ->
                            points !! (S k + i)%nat = Some q).
  { intros i q Hq.
    replace (S k + i)%nat with (k + S i)%nat by lia.
    apply Hk. exact Hq. }
  apply IH. exact Hk'.
Qed.

End Model.

(** ** The search for the minimum *)

Section Scan.

Import F32Order.

Lemma scan_map {A B : Type} (f : A -> B) (l : list (A * float)) :
  forall s : A * float,
    scan (map (prod_map f id) l) (prod_map f id s)
    = prod_map f id (scan l s).
Proof.
  induction l as [|c l IH]; intros s; [reflexivity|].
  cbn [map scan fold_left]. fold (scan (map (prod_map f id) l)).
  fold (scan l).
  replace (select (prod_map f id s) (prod_map f id c))
    with (prod_map f id (select s c)); [apply IH|].
  unfold select. destruct s, c; simpl. destruct (F32.lt _ _); reflexivity.
Qed.

Lemma best_select (ds : list float) (k : nat) (d : float)
    (s : option nat * float) :
  ds !! k = Some d -> best ds k s -> best ds (S k) (select s (Some k, d)).
Proof.
  destruct s as [si sm]. unfold best, select. cbn [fst snd].
  intros Hd [Hlow Hsel].
  destruct (F32.lt d sm) eqn:Hlt; cbn [fst snd].
  - split.
    + intros j d' Hj Hd'. destruct (decide (j = k)) as [->|Hne].
      * rewrite Hd in Hd'. inversion Hd'; subst. apply lt_irrefl.
      * destruct (F32.lt d' d) eqn:Hlt'; [|reflexivity].
        rewrite <- (Hlow j d'); [|lia|assumption].
        symmetry. eapply lt_trans; eassumption.
    + split; [lia|]. split; [assumption|]. split.
      * destruct si as [i|].
        -- destruct Hsel as (_ & _ & Hmax & _). eapply lt_trans; eassumption.
        -- rewrite <- Hsel. assumption.
      * intros j d' Hj Hd'.
        destruct (F32.eq d' d) eqn:Heq; [|reflexivity].
        rewrite <- (Hlow j d'); [|lia|assumption].
        symmetry. eapply eq_lt_trans; eassumption.
  - split.
    + intros j d' Hj Hd'. destruct (decide (j = k)) as [->|Hne].
      * rewrite Hd in Hd'. inversion Hd'; subst. assumption.
      * apply (Hlow j); [lia|assumption].
    + destruct si as [i|]; [|assumption].
      destruct Hsel as (Hi & ?). split; [lia|assumption].
Qed.

Lemma scan_best (ds : list float) :
  forall (rest pre : list float) (s : option nat * float),
    ds = pre ++ rest ->
    best ds (length pre) s ->
    best ds (length ds)
         (scan (zip (map Some (seq (length pre) (length rest))) rest) s).
Proof.
  induction rest as [|d rest IH]; intros pre s Hds Hs.
  - subst ds. rewrite length_app, Nat.add_0_r. exact Hs.
  - cbn [length seq map zip zip_with scan fold_left].
    fold (scan (zip (map Some (seq (S (length pre)) (length rest))) rest)).
    replace (S (length pre)) with (length (pre ++ [d]))
      by (rewrite length_app; simpl; lia).
    apply IH.
    + rewrite <- app_assoc. exact Hds.
    + rewrite length_app. cbn [length]. rewrite Nat.add_1_r.
      apply best_select; [|exact Hs].
      subst ds. rewrite lookup_app_r by lia.
      rewrite Nat.sub_diag. reflexivity.
Qed.

Lemma search_best (ds : list float) : best ds (length ds) (search ds).
Proof.
  apply (scan_best ds ds []); [reflexivity|].
  split; [intros j d Hj; simpl in Hj; lia | reflexivity].
Qed.

(** No index is kept exactly when no distance is below [FLT_MAX]. *)
Lemma search_none (ds : list float) :
  (search ds).1 = None ->
  (search ds).2 = F32.FLT_MAX /\
  forall j d, ds !! j = Some d -> F32.lt d F32.FLT_MAX = false.
Proof.
  intros Hn. destruct (search_best ds) as [Hlow Hsel].
  rewrite Hn in Hsel. split; [exact Hsel|].
  intros j d Hd. rewrite <- Hsel. apply (Hlow j); [|exact Hd].
  apply lookup_lt_Some in Hd. exact Hd.
Qed.

Lemma search_some (ds : list float) (j : nat) (d : float) :
  ds !! j = Some d -> F32.lt d F32.FLT_MAX = true ->
  exists i, (search ds).1 = Some i.
Proof.
  intros Hd Hlt. destruct (search ds).1 as [i|] eqn:Hs; [eauto|].
  destruct (search_none ds Hs) as [_ Hall].
  rewrite (Hall j d Hd) in Hlt. discriminate.
Qed.

End Scan.

Section Nearest.

Variable absolute : float -> float.

Lemma zip_map_fst {A B C : Type} (f : A -> B) (l : list A) (k : list C) :
  zip (map f l) k = map (prod_map f id) (zip l k).
Proof.
  revert k. induction l as [|a l IH]; intros [|c k]; simpl;
    try reflexivity.
  f_equal. apply IH.
Qed.

(** The [shared_ptr] search keeps the pointer of the state of [search]. *)
Lemma NearestToOrigin_shared_search (h : store) (points : list pointer)
    (pts : list Point) :
  holds h points pts ->
  let s := search (map (Core.distance absolute) pts) in
  Core.NearestToOrigin_shared absolute h points
  = Returns (pointer_at points s.1, s.2).
Proof.
  intros H s. unfold Core.NearestToOrigin_shared.
  rewrite (nearest_loop absolute h points pts H).
  f_equal. subst s. unfold search.
  rewrite length_map, <- (holds_length _ _ _ H).
  set (ds := map (Core.distance absolute) pts).
  assert (Hz : zip points ds
               = map (prod_map (pointer_at points) id)
                     (zip (map Some (seq 0 (length points))) ds)).
  { rewrite <- zip_map_fst. f_equal. rewrite map_map.
    apply list_eq. intros i. rewrite list_lookup_fmap.
    destruct (points !! i) as [p|] eqn:Hp.
    - rewrite lookup_seq_lt by (eapply lookup_lt_Some; eassumption).
      simpl. rewrite Hp. reflexivity.
    - rewrite lookup_seq_ge by (apply lookup_ge_None; assumption).
      reflexivity. }
  rewrite Hz.
  change (nullptr, F32.FLT_MAX)
    with (prod_map (pointer_at points) (@id float) (None, F32.FLT_MAX)).
  rewrite scan_map. destruct (scan _ _); reflexivity.
Qed.

(** The raw-pointer loop keeps the index of the state of [search], or
    [0]. *)
Lemma nearest_scan_search (h : store) (points : list pointer)
    (pts : list Point) :
  holds h points pts ->
  let s := search (map (Core.distance absolute) pts) in
  Core.nearest_scan absolute h points = Returns (index_at s.1, s.2).
Proof.
  intros H s. unfold Core.nearest_scan.
  rewrite (nearest_loop_at absolute h points points pts 0);
    [|intros i p Hp; exact Hp|exact H].
  f_equal. subst s. unfold search.
  rewrite length_map, <- (holds_length _ _ _ H).
  set (ds := map (Core.distance absolute) pts).
  assert (Hz : zip (seq 0 (length points)) ds
               = map (prod_map index_at id)
                     (zip (map Some (seq 0 (length points))) ds)).
  { rewrite <- zip_map_fst. f_equal. rewrite map_map.
    symmetry. apply map_id. }
  rewrite Hz.
  change (0%nat, F32.FLT_MAX)
    with (prod_map index_at (@id float) (None, F32.FLT_MAX)).
  rewrite scan_map. destruct (scan _ _); reflexivity.
Qed.

End Nearest.

(** ** Rounding to binary32 *)

Module Rounding.
Import F32 Round.

(** *** Number of binary digits *)

Lemma digits2_log2 (m : positive) :
  Zpos (digits2_pos m) = Z.log2 (Zpos m) + 1.
Proof.
  induction m as [m IH|m IH|]; cbn [digits2_pos].
  - rewrite Pos2Z.inj_succ, IH, Pos2Z.inj_xI.
    rewrite Z.log2_succ_double by lia. lia.
  - rewrite Pos2Z.inj_succ, IH, Pos2Z.inj_xO.
    rewrite Z.log2_double by lia. lia.
  - reflexivity.
Qed.

Lemma Zdigits2_log2 (m : Z) : 0 < m -> Zdigits2 m = Z.log2 m + 1.
Proof.
  destruct m as [|m|m]; try lia. intros _. apply digits2_log2.
Qed.

Lemma Zdigits2_nonneg (m : Z) : 0 <= Zdigits2 m.
Proof. destruct m; simpl; lia. Qed.

Lemma Zdigits2_pos (m : Z) : 0 < m -> 0 < Zdigits2 m.
Proof. destruct m; simpl; lia. Qed.

Lemma Zdigits2_bounds (m : Z) :
  0 < m -> 2 ^ (Zdigits2 m - 1) <= m < 2 ^ Zdigits2 m.
Proof.
  intros H. rewrite (Zdigits2_log2 m H).
  replace (Z.log2 m + 1 - 1) with (Z.log2 m) by lia.
  replace (Z.log2 m + 1) with (Z.succ (Z.log2 m)) by lia.
  apply Z.log2_spec. exact H.
Qed.

Lemma Zdigits2_mono (a b : Z) : 0 <= a <= b -> Zdigits2 a <= Zdigits2 b.
Proof.
  intros [Ha Hab]. destruct (Z.eq_dec a 0) as [->|Hne].
  - apply Zdigits2_nonneg.
  - rewrite !Zdigits2_log2 by lia.
    pose proof (Z.log2_le_mono a b Hab). lia.
Qed.

Lemma Zdigits2_le_pow (m k : Z) : 0 <= k -> 0 <= m < 2 ^ k -> Zdigits2 m <= k.
Proof.
  intros Hk [Hm Hlt]. destruct (Z.eq_dec m 0) as [->|Hne]; [simpl; lia|].
  rewrite Zdigits2_log2 by lia.
  apply Z.log2_lt_pow2 in Hlt; lia.
Qed.

Lemma Zdigits2_ge_pow (m k : Z) : 0 <= k -> 2 ^ k <= m -> k + 1 <= Zdigits2 m.
Proof.
  intros Hk Hle. assert (0 < m) by (pose proof (Z.pow_pos_nonneg 2 k); lia).
  rewrite Zdigits2_log2 by lia.
  apply Z.log2_le_pow2 in Hle; lia.
Qed.

Lemma Zdigits2_shiftr (m n : Z) :
  0 <= m -> 0 <= n -> Zdigits2 (m / 2 ^ n) = Z.max 0 (Zdigits2 m - n).
Proof.
  intros Hm Hn. destruct (Z.eq_dec m 0) as [->|Hne].
  - rewrite Z.div_0_l by (pose proof (Z.pow_pos_nonneg 2 n); lia).
    simpl. lia.
  - pose proof (Zdigits2_bounds m ltac:(lia)) as [Hlo Hhi].
    pose proof (Zdigits2_pos m ltac:(lia)) as Hd.
    destruct (Z_lt_le_dec n (Zdigits2 m)) as [Hlt|Hge].
    + assert (Hq : 2 ^ (Zdigits2 m - 1 - n) <= m / 2 ^ n < 2 ^ (Zdigits2 m - n)).
      { split.
        - apply Z.div_le_lower_bound; [apply Z.pow_pos_nonneg; lia|].
          rewrite <- Z.pow_add_r by lia.
          replace (n + (Zdigits2 m - 1 - n)) with (Zdigits2 m - 1) by lia.
          exact Hlo.
        - apply Z.div_lt_upper_bound; [apply Z.pow_pos_nonneg; lia|].
          rewrite <- Z.pow_add_r by lia.
          replace (n + (Zdigits2 m - n)) with (Zdigits2 m) by lia.
          exact Hhi. }
      assert (0 < m / 2 ^ n).
      { pose proof (Z.pow_pos_nonneg 2 (Zdigits2 m - 1 - n)); lia. }
      pose proof (Zdigits2_le_pow (m / 2 ^ n) (Zdigits2 m - n)
                    ltac:(lia) ltac:(lia)).
      pose proof (Zdigits2_ge_pow (m / 2 ^ n) (Zdigits2 m - 1 - n)
                    ltac:(lia) ltac:(lia)).
      lia.
    + rewrite Z.div_small.
      * simpl. lia.
      * split; [lia|]. eapply Z.lt_le_trans; [exact Hhi|].
        apply Z.pow_le_mono_r; lia.
Qed.


(** *** Shifting a mantissa to the right *)

Lemma iter_pos_nat {A : Type} (f : A -> A) (p : positive) :
  forall a : A, SpecFloat.iter_pos f p a = Nat.iter (Pos.to_nat p) f a.
Proof.
  induction p as [p IH|p IH|]; intros a; cbn [SpecFloat.iter_pos].
  - rewrite !IH, Pos2Nat.inj_xI.
    replace (S (2 * Pos.to_nat p))%nat
      with (Pos.to_nat p + (Pos.to_nat p + 1))%nat by lia.
    rewrite !Nat.iter_add. reflexivity.
  - rewrite !IH, Pos2Nat.inj_xO.
    replace (2 * Pos.to_nat p)%nat
      with (Pos.to_nat p + Pos.to_nat p)%nat by lia.
    rewrite Nat.iter_add. reflexivity.
  - reflexivity.
Qed.

Lemma shr_nat (mrs : shr_record) (e n : Z) :
  shr mrs e n = (Nat.iter (Z.to_nat n) shr_1 mrs, e + Z.max 0 n).
Proof.
  destruct n as [|p|p]; cbn [shr Z.to_nat Nat.iter];
    rewrite ?iter_pos_nat; f_equal; lia.
Qed.

Lemma shr_1_spec (mrs : shr_record) :
  0 <= shr_m mrs ->
  shr_m (shr_1 mrs) = shr_m mrs / 2 /\
  shr_r (shr_1 mrs) = Z.odd (shr_m mrs) /\
  shr_s (shr_1 mrs) = shr_r mrs || shr_s mrs.
Proof.
  destruct mrs as [m r s]. cbn [shr_m shr_r shr_s]. intros Hm.
  destruct m as [|[p|p|]|p]; cbn [shr_1 shr_m shr_r shr_s];
    [| | | |lia]; repeat split; try reflexivity.
  - rewrite Pos2Z.inj_xI. apply (Z.div_unique _ _ _ 1); lia.
  - rewrite Pos2Z.inj_xO. apply (Z.div_unique _ _ _ 0); lia.
Qed.

(** The low part of a number is zero when its top bit and the part below
    are. *)
Lemma low_bits_zero (m : Z) (n : nat) :
  0 <= m ->
  (m mod 2 ^ Z.of_nat (S n) =? 0)
  = negb (Z.odd (m / 2 ^ Z.of_nat n)) && (m mod 2 ^ Z.of_nat n =? 0).
Proof.
  intros Hm. rewrite Nat2Z.inj_succ, Z.pow_succ_r by lia.
  set (k := 2 ^ Z.of_nat n).
  assert (Hk : 0 < k) by (apply Z.pow_pos_nonneg; lia).
  rewrite Z.mul_comm, Z.rem_mul_r by lia. rewrite Zmod_odd.
  pose proof (Z.mod_pos_bound m k Hk).
  destruct (Z.odd (m / k)); cbn [negb andb].
  - apply Z.eqb_neq. lia.
  - rewrite Z.mul_0_r, Z.add_0_r. reflexivity.
Qed.

(** [n] shifts divide the mantissa by [2 ^ n]; the round bit is the last
    bit shifted out and the sticky bit tells whether anything below it
    was lost. *)
Lemma shr_iter (n : nat) (mrs : shr_record) :
  0 <= shr_m mrs ->
  let res := Nat.iter n shr_1 mrs in
  shr_m res = shr_m mrs / 2 ^ Z.of_nat n /\
  forall k : nat, n = S k ->
    shr_r res = Z.odd (shr_m mrs / 2 ^ Z.of_nat k) /\
    shr_s res = shr_r mrs || shr_s mrs
                || negb (shr_m mrs mod 2 ^ Z.of_nat k =? 0).
Proof.
  intros Hm. cbn zeta. induction n as [|n [IHm IHrs]]; cbn [Nat.iter].
  - split; [simpl; rewrite Z.div_1_r; reflexivity|]. intros k Hk. lia.
  - set (prev := Nat.iter n shr_1 mrs) in *.
    assert (Hprev : 0 <= shr_m prev).
    { rewrite IHm. apply Z.div_pos; [lia|]. apply Z.pow_pos_nonneg; lia. }
    destruct (shr_1_spec prev Hprev) as (Em & Er & Es).
    change (Nat.iter (S n) shr_1 mrs) with (shr_1 prev).
    split.
    + rewrite Em, IHm, Nat2Z.inj_succ, Z.pow_succ_r by lia.
      rewrite Z.div_div by (try apply Z.pow_pos_nonneg; lia).
      f_equal. lia.
    + intros k Hk. inversion Hk; subst k. split.
      * rewrite Er, IHm. reflexivity.
      * rewrite Es. destruct n as [|n'].
        -- subst prev. simpl. rewrite Z.mod_1_r. simpl.
           rewrite orb_false_r. reflexivity.
        -- destruct (IHrs n' eq_refl) as [Hr Hs]. rewrite Hr, Hs.
           rewrite (low_bits_zero (shr_m mrs) n' Hm).
           destruct (shr_r mrs), (shr_s mrs),
             (Z.odd (shr_m mrs / 2 ^ Z.of_nat n')),
             (shr_m mrs mod 2 ^ Z.of_nat n' =? 0); reflexivity.
Qed.

(** *** The rounded mantissa *)

Lemma fexp_eq (e : Z) : fexp prec emax e = Z.max (e - 24) (-149).
Proof. reflexivity. Qed.

Lemma fexp_mono (a b : Z) : a <= b -> fexp prec emax a <= fexp prec emax b.
Proof. rewrite !fexp_eq. lia. Qed.

Lemma shr_record_of_loc_m (m : Z) (l : location) :
  shr_m (shr_record_of_loc m l) = m.
Proof. destruct l as [|[]]; reflexivity. Qed.


Lemma round_nearest_even_bounds (m : Z) (l : location) :
  m <= round_nearest_even m l <= m + 1.
Proof.
  destruct l as [|[]]; cbn [round_nearest_even]; try lia.
  destruct (Z.even m); lia.
Qed.

Lemma rounded_bounds (m : Z) (l : location) (n : Z) :
  0 <= m ->
  m / 2 ^ Z.max 0 n <= rounded m l n <= m / 2 ^ Z.max 0 n + 1.
Proof.
  intros Hm. unfold rounded. cbn zeta.
  set (mrs := Nat.iter _ _ _).
  assert (E : shr_m mrs = m / 2 ^ Z.max 0 n).
  { subst mrs.
    destruct (shr_iter (Z.to_nat n) (shr_record_of_loc m l)) as [E _].
    - rewrite shr_record_of_loc_m. exact Hm.
    - rewrite E, shr_record_of_loc_m. f_equal. f_equal. lia. }
  rewrite <- E. apply round_nearest_even_bounds.
Qed.

Lemma rounded_nonneg (m : Z) (l : location) (n : Z) :
  0 <= m -> 0 <= rounded m l n.
Proof.
  intros Hm. pose proof (rounded_bounds m l n Hm) as [H _].
  eapply Z.le_trans; [|exact H].
  apply Z.div_pos; [lia|]. apply Z.pow_pos_nonneg; lia.
Qed.

Lemma rounded_exact (m n : Z) :
  0 <= m -> m mod 2 ^ Z.max 0 n = 0 ->
  rounded m loc_Exact n = m / 2 ^ Z.max 0 n.
Proof.
  intros Hm Hmod. unfold rounded. cbn zeta.
  destruct (shr_iter (Z.to_nat n) (shr_record_of_loc m loc_Exact))
    as [E Hrs]; [simpl; exact Hm|].
  cbn zeta in E, Hrs. set (mrs := Nat.iter _ _ _) in *.
  assert (El : loc_of_shr_record mrs = loc_Exact).
  { destruct (Z.to_nat n) as [|k] eqn:Hn.
    - subst mrs. reflexivity.
    - destruct (Hrs k eq_refl) as [Hr Hs].
      assert (Hz : (m mod 2 ^ Z.of_nat (S k) =? 0) = true).
      { apply Z.eqb_eq. rewrite <- Hmod. f_equal. f_equal. lia. }
      rewrite low_bits_zero in Hz by exact Hm.
      apply andb_true_iff in Hz as [Hodd Hlow].
      cbn [shr_record_of_loc shr_m shr_r shr_s] in Hr, Hs.
      rewrite Hlow in Hs. apply negb_true_iff in Hodd.
      rewrite Hodd in Hr. destruct mrs as [mm r s0].
      cbn [shr_r shr_s] in Hr, Hs. subst r s0. reflexivity. }
  rewrite El. cbn [round_nearest_even]. rewrite E.
  cbn [shr_record_of_loc shr_m]. f_equal. f_equal. lia.
Qed.

(** For numbers known exactly, rounding is monotone. *)
Lemma rounded_mono (a b n : Z) :
  0 <= a <= b -> rounded a loc_Exact n <= rounded b loc_Exact n.
Proof.
  intros [Ha Hab].
  pose proof (rounded_bounds a loc_Exact n Ha) as [_ Hua].
  pose proof (rounded_bounds b loc_Exact n ltac:(lia)) as [Hlb _].
  set (k := Z.max 0 n) in *.
  assert (Hk : 0 < 2 ^ k) by (apply Z.pow_pos_nonneg; lia).
  assert (Hq : a / 2 ^ k <= b / 2 ^ k) by (apply Z.div_le_mono; lia).
  destruct (Z.eq_dec (a / 2 ^ k) (b / 2 ^ k)) as [Eq|Hne]; [|lia].
  clear Hua Hlb Hq. unfold rounded. cbn zeta.
  destruct (shr_iter (Z.to_nat n) (shr_record_of_loc a loc_Exact))
    as [Ea Hrsa]; [simpl; exact Ha|].
  destruct (shr_iter (Z.to_nat n) (shr_record_of_loc b loc_Exact))
    as [Eb Hrsb]; [simpl; lia|].
  cbn zeta in Ea, Hrsa, Eb, Hrsb.
  set (ra := Nat.iter _ _ (shr_record_of_loc a _)) in *.
  set (rb := Nat.iter _ _ (shr_record_of_loc b _)) in *.
  cbn [shr_record_of_loc shr_m shr_r shr_s orb] in *.
  destruct (Z.to_nat n) as [|j] eqn:Hn.
  - subst ra rb. cbn. lia.
  - destruct (Hrsa j eq_refl) as [Hra Hsa].
    destruct (Hrsb j eq_refl) as [Hrb Hsb].
    assert (Ek : k = Z.of_nat (S j)) by lia.
    rewrite Ek in *. rewrite Nat2Z.inj_succ, Z.pow_succ_r in * by lia.
    set (h := 2 ^ Z.of_nat j) in *.
    assert (Hh : 0 < h) by (apply Z.pow_pos_nonneg; lia).
    assert (Ha2 : a / (2 * h) = a / h / 2)
      by (rewrite Z.div_div by lia; f_equal; lia).
    assert (Hb2 : b / (2 * h) = b / h / 2)
      by (rewrite Z.div_div by lia; f_equal; lia).
    rewrite Ha2 in Eq, Ea. rewrite Hb2 in Eq, Eb. clear Ha2 Hb2.
    pose proof (Z.div_mod a h ltac:(lia)) as Da.
    pose proof (Z.div_mod b h ltac:(lia)) as Db.
    pose proof (Z.mod_pos_bound a h Hh) as Ba.
    pose proof (Z.mod_pos_bound b h Hh) as Bb.
    pose proof (Z.div_mod (a / h) 2 ltac:(lia)) as Da2.
    pose proof (Z.div_mod (b / h) 2 ltac:(lia)) as Db2.
    rewrite (Zmod_odd (a / h)) in Da2. rewrite (Zmod_odd (b / h)) in Db2.
    assert (Hle : a / h <= b / h) by (apply Z.div_le_mono; lia).
    destruct ra as [ma ra sa], rb as [mb rb sb].
    cbn [shr_m shr_r shr_s] in *. subst ma mb ra rb sa sb.
    rewrite Eq.
    destruct (Z.odd (a / h)) eqn:Oa, (Z.odd (b / h)) eqn:Ob;
      destruct (Z.eqb_spec (a mod h) 0), (Z.eqb_spec (b mod h) 0);
      cbn [negb loc_of_shr_record round_nearest_even];
      try destruct (Z.even (b / h / 2)); try lia; try nia.
Qed.

(** *** The result of a rounding *)

Lemma shifted_exact_m (m n : Z) :
  0 <= m ->
  shr_m (Nat.iter (Z.to_nat n) shr_1 (shr_record_of_loc m loc_Exact))
  = m / 2 ^ Z.max 0 n.
Proof.
  intros Hm.
  destruct (shr_iter (Z.to_nat n) (shr_record_of_loc m loc_Exact))
    as [E _]; [simpl; exact Hm|].
  cbn zeta in E. rewrite E. cbn [shr_record_of_loc shr_m].
  f_equal. f_equal. lia.
Qed.

(** Under the alignment condition [ex <= fexp (digits mx + ex)], the
    rounded mantissa has at most 24 bits, or is [2 ^ 24]. *)
Lemma rounded_le_pow (mx ex : Z) (lx : location) :
  0 <= mx ->
  let e1 := fexp prec emax (Zdigits2 mx + ex) in
  ex <= e1 ->
  rounded mx lx (e1 - ex) <= 2 ^ 24.
Proof.
  intros Hm e1 Hal.
  pose proof (rounded_bounds mx lx (e1 - ex) Hm) as [_ Hu].
  replace (Z.max 0 (e1 - ex)) with (e1 - ex) in Hu by lia.
  assert (Hd : Zdigits2 (mx / 2 ^ (e1 - ex)) <= 24).
  { rewrite Zdigits2_shiftr by lia. subst e1. rewrite fexp_eq in *. lia. }
  assert (Hq : 0 <= mx / 2 ^ (e1 - ex)).
  { apply Z.div_pos; [lia|]. apply Z.pow_pos_nonneg; lia. }
  destruct (Z.eq_dec (mx / 2 ^ (e1 - ex)) 0) as [E|Hne].
  - rewrite E in Hu. lia.
  - pose proof (Zdigits2_bounds (mx / 2 ^ (e1 - ex)) ltac:(lia))
      as [_ Hlt].
    assert (2 ^ Zdigits2 (mx / 2 ^ (e1 - ex)) <= 2 ^ 24)
      by (apply Z.pow_le_mono_r; lia).
    lia.
Qed.

Lemma binary_round_aux_spec (sx : bool) (mx ex : Z) (lx : location) :
  0 <= mx ->
  let e1 := fexp prec emax (Zdigits2 mx + ex) in
  ex <= e1 ->
  binary_round_aux prec emax sx mx ex lx
  = pack sx (rounded mx lx (e1 - ex)) e1.
Proof.
  intros Hm e1 Hal.
  pose proof (rounded_le_pow mx ex lx Hm Hal) as Hle.
  pose proof (rounded_nonneg mx lx (e1 - ex) Hm) as Hge.
  unfold binary_round_aux, shr_fexp. rewrite shr_nat. fold e1.
  fold (rounded mx lx (e1 - ex)).
  set (m2 := rounded mx lx (e1 - ex)) in *.
  change (m2 <= 2 ^ 24) in Hle.
  replace (ex + Z.max 0 (e1 - ex)) with e1 by lia.
  rewrite shr_nat, shifted_exact_m by exact Hge.
  set (n' := fexp prec emax (Zdigits2 m2 + e1) - e1).
  assert (He1 : -149 <= e1) by (subst e1; rewrite fexp_eq; lia).
  unfold pack. destruct (Z.eqb_spec m2 0) as [E0|Hne].
  - rewrite E0. rewrite Z.div_0_l; [reflexivity|].
    pose proof (Z.pow_pos_nonneg 2 (Z.max 0 n')). lia.
  - destruct (Z.ltb_spec m2 (2 ^ 24)) as [Hlt|Hge24].
    + assert (Hn' : n' <= 0).
      { subst n'. rewrite fexp_eq.
        pose proof (Zdigits2_le_pow m2 24 ltac:(lia) ltac:(lia)). lia. }
      replace (Z.max 0 n') with 0 by lia.
      rewrite Z.pow_0_r, Z.div_1_r, Z.add_0_r.
      destruct m2 as [|p|p]; try lia. reflexivity.
    + assert (E : m2 = 2 ^ 24) by lia.
      assert (Hn' : n' = 1).
      { subst n'. rewrite fexp_eq, E.
        change (Zdigits2 (2 ^ 24)) with 25. lia. }
      rewrite Hn', E. reflexivity.
Qed.

Lemma pack_abs (sx : bool) (m2 e1 : Z) :
  SFabs (pack sx m2 e1) = pack false m2 e1.
Proof.
  unfold pack.
  repeat match goal with |- context [if ?b then _ else _] => destruct b end;
    reflexivity.
Qed.

Lemma pack_opp (sx : bool) (m2 e1 : Z) :
  SFopp (pack sx m2 e1) = pack (negb sx) m2 e1.
Proof.
  unfold pack.
  repeat match goal with |- context [if ?b then _ else _] => destruct b end;
    reflexivity.
Qed.

Lemma pack_unsigned (m2 e1 : Z) : unsigned (pack false m2 e1) = true.
Proof.
  unfold pack.
  repeat match goal with |- context [if ?b then _ else _] => destruct b end;
    reflexivity.
Qed.

Lemma pack_not_nan (sx : bool) (m2 e1 : Z) : is_nan (pack sx m2 e1) = false.
Proof.
  unfold pack.
  repeat match goal with |- context [if ?b then _ else _] => destruct b end;
    reflexivity.
Qed.

Lemma valid_finite (s : bool) (m : positive) (e : Z) :
  valid (S754_finite s m e) = true <->
  fexp prec emax (Zpos (digits2_pos m) + e) = e /\ e <= 104.
Proof.
  unfold valid, valid_binary, bounded, canonical_mantissa.
  rewrite andb_true_iff, Z.eqb_eq, Z.leb_le. reflexivity.
Qed.

(** A valid number has at most 24 bits of mantissa, exactly 24 unless its
    exponent is the least one. *)
Lemma valid_mantissa (s : bool) (m : positive) (e : Z) :
  valid (S754_finite s m e) = true ->
  -149 <= e <= 104 /\ Zpos m < 2 ^ 24 /\ (-149 < e -> 2 ^ 23 <= Zpos m).
Proof.
  intros H. apply valid_finite in H as [Hc Hb]. rewrite fexp_eq in Hc.
  pose proof (Zdigits2_bounds (Zpos m) ltac:(lia)) as [Hlo Hhi].
  cbn [Zdigits2] in Hlo, Hhi.
  split; [lia|]. split.
  - eapply Z.lt_le_trans; [exact Hhi|]. apply Z.pow_le_mono_r; lia.
  - intros He. eapply Z.le_trans; [|exact Hlo].
    apply Z.pow_le_mono_r; lia.
Qed.

Lemma pack_valid (sx : bool) (m2 e1 : Z) :
  0 <= m2 <= 2 ^ 24 -> -149 <= e1 ->
  (-149 < e1 -> m2 < 2 ^ 24 -> 2 ^ 23 <= m2) ->
  valid (pack sx m2 e1) = true.
Proof.
  intros Hm He Hn. unfold pack.
  destruct (Z.eqb_spec m2 0); [reflexivity|].
  destruct (Z.ltb_spec m2 (2 ^ 24)).
  - destruct (Z.leb_spec e1 104); [|reflexivity].
    apply valid_finite. split; [|assumption].
    change (Zpos (digits2_pos (Z.to_pos m2))) with (Zdigits2 (Zpos (Z.to_pos m2))).
    rewrite Z2Pos.id by lia. rewrite fexp_eq.
    pose proof (Zdigits2_le_pow m2 24 ltac:(lia) ltac:(lia)).
    destruct (Z.eq_dec e1 (-149)); [lia|].
    pose proof (Zdigits2_ge_pow m2 23 ltac:(lia) ltac:(lia)). lia.
  - destruct (Z.leb_spec (e1 + 1) 104); [|reflexivity].
    apply valid_finite. split; [|assumption].
    rewrite fexp_eq. change (Zpos (digits2_pos (Z.to_pos (2 ^ 23)))) with 24.
    lia.
Qed.

Lemma binary_round_aux_valid (sx : bool) (mx ex : Z) (lx : location) :
  0 <= mx -> ex <= fexp prec emax (Zdigits2 mx + ex) ->
  valid (binary_round_aux prec emax sx mx ex lx) = true.
Proof.
  intros Hm Hal. rewrite binary_round_aux_spec by assumption.
  set (e1 := fexp prec emax (Zdigits2 mx + ex)) in *.
  pose proof (rounded_le_pow mx ex lx Hm Hal) as Hle. fold e1 in Hle.
  pose proof (rounded_nonneg mx lx (e1 - ex) Hm) as Hge.
  pose proof (rounded_bounds mx lx (e1 - ex) Hm) as [Hlo _].
  replace (Z.max 0 (e1 - ex)) with (e1 - ex) in Hlo by lia.
  assert (He1 : -149 <= e1) by (subst e1; rewrite fexp_eq; lia).
  apply pack_valid; [lia|exact He1|].
  intros Hgt _. eapply Z.le_trans; [|exact Hlo].
  assert (Hd : Zdigits2 (mx / 2 ^ (e1 - ex)) = 24).
  { rewrite Zdigits2_shiftr by lia. subst e1. rewrite fexp_eq in *. lia. }
  assert (Hq : 0 < mx / 2 ^ (e1 - ex)).
  { destruct (Z.eq_dec (mx / 2 ^ (e1 - ex)) 0) as [E|Hne].
    - rewrite E in Hd. discriminate.
    - pose proof (Z.div_pos mx (2 ^ (e1 - ex)) Hm
                    ltac:(apply Z.pow_pos_nonneg; lia)). lia. }
  pose proof (Zdigits2_bounds (mx / 2 ^ (e1 - ex)) Hq) as [Hlow _].
  rewrite Hd in Hlow. exact Hlow.
Qed.

(** *** Comparing the numbers [m * 2 ^ e] *)

Lemma pow_split (e c c0 : Z) :
  c <= c0 -> c0 <= e -> 2 ^ (e - c) = 2 ^ (e - c0) * 2 ^ (c0 - c).
Proof.
  intros H1 H2. rewrite <- Z.pow_add_r by lia. f_equal. lia.
Qed.

Lemma vle_base (c m1 e1 m2 e2 : Z) :
  c <= e1 -> c <= e2 ->
  vle m1 e1 m2 e2 <-> m1 * 2 ^ (e1 - c) <= m2 * 2 ^ (e2 - c).
Proof.
  intros H1 H2. unfold vle. set (c0 := Z.min e1 e2).
  rewrite (pow_split e1 c c0), (pow_split e2 c c0) by lia.
  rewrite !Z.mul_assoc.
  assert (0 < 2 ^ (c0 - c)) by (apply Z.pow_pos_nonneg; lia).
  split; intros H0; nia.
Qed.

Lemma vlt_base (c m1 e1 m2 e2 : Z) :
  c <= e1 -> c <= e2 ->
  vlt m1 e1 m2 e2 <-> m1 * 2 ^ (e1 - c) < m2 * 2 ^ (e2 - c).
Proof.
  intros H1 H2. unfold vlt. set (c0 := Z.min e1 e2).
  rewrite (pow_split e1 c c0), (pow_split e2 c c0) by lia.
  rewrite !Z.mul_assoc.
  assert (0 < 2 ^ (c0 - c)) by (apply Z.pow_pos_nonneg; lia).
  split; intros H0; nia.
Qed.



(** The order of the mantissas of two numbers bounds the order of their
    numbers of digits. *)
Lemma vle_digits (m1 e1 m2 e2 : Z) :
  0 < m1 -> 0 < m2 -> vle m1 e1 m2 e2 ->
  Zdigits2 m1 + e1 <= Zdigits2 m2 + e2.
Proof.
  intros H1 H2 H. set (c := Z.min e1 e2).
  pose proof (proj1 (vle_base c m1 e1 m2 e2 ltac:(lia) ltac:(lia)) H) as H'.
  pose proof (Zdigits2_bounds m1 H1) as [Hlo _].
  pose proof (Zdigits2_bounds m2 H2) as [_ Hhi].
  pose proof (Zdigits2_pos m1 H1). pose proof (Zdigits2_pos m2 H2).
  destruct (Z_lt_le_dec (Zdigits2 m2 + e2) (Zdigits2 m1 + e1)) as [Hlt|];
    [exfalso|lia].
  assert (A : 2 ^ (Zdigits2 m1 - 1) * 2 ^ (e1 - c) <= m1 * 2 ^ (e1 - c)).
  { apply Z.mul_le_mono_nonneg_r; [apply Z.pow_nonneg|]; lia. }
  assert (B : m2 * 2 ^ (e2 - c) < 2 ^ Zdigits2 m2 * 2 ^ (e2 - c)).
  { apply Z.mul_lt_mono_pos_r; [apply Z.pow_pos_nonneg|]; lia. }
  rewrite <- Z.pow_add_r in A, B by lia.
  assert (C : 2 ^ (Zdigits2 m2 + (e2 - c)) <= 2 ^ (Zdigits2 m1 - 1 + (e1 - c))).
  { apply Z.pow_le_mono_r; lia. }
  lia.
Qed.

(** *** Bounds on the result of a rounding *)

Lemma le_finite (m1 m2 : positive) (e1 e2 : Z) :
  e1 < e2 \/ (e1 = e2 /\ Zpos m1 <= Zpos m2) ->
  le (S754_finite false m1 e1) (S754_finite false m2 e2) = true.
Proof.
  unfold le, SFleb. cbn [SFcompare].
  change (Pos.compare_cont Eq m1 m2) with (Pos.compare m1 m2).
  destruct (Z.compare_spec e1 e2); [|reflexivity|lia].
  destruct (Pos.compare_spec m1 m2); try reflexivity. lia.
Qed.

(** Rounding does not cross a representable number: upper bound. *)
Lemma binary_round_aux_le (sx : bool) (mx ex : Z) (lx : location)
    (mV : positive) (eV : Z) :
  0 <= mx -> ex <= fexp prec emax (Zdigits2 mx + ex) ->
  valid (S754_finite false mV eV) = true ->
  vle mx ex (Zpos mV) eV ->
  (lx <> loc_Exact -> vlt mx ex (Zpos mV) eV) ->
  le (SFabs (binary_round_aux prec emax sx mx ex lx))
     (S754_finite false mV eV) = true.
Proof.
  intros Hm Hal HV Hle Hlt.
  rewrite binary_round_aux_spec, pack_abs by assumption.
  set (e1 := fexp prec emax (Zdigits2 mx + ex)) in *.
  pose proof (valid_mantissa _ _ _ HV) as (HeV & HmV & HnV).
  apply valid_finite in HV as [HcV _].
  change (Zpos (digits2_pos mV)) with (Zdigits2 (Zpos mV)) in HcV.
  assert (C1 : e1 <= eV).
  { destruct (Z.eq_dec mx 0) as [->|Hne].
    - subst e1. cbn [Zdigits2] in *. rewrite fexp_eq in *. lia.
    - rewrite <- HcV. apply fexp_mono. apply vle_digits; [lia|lia|exact Hle]. }
  set (n := e1 - ex). set (W := Zpos mV * 2 ^ (eV - e1)).
  assert (Hn : 0 < 2 ^ n) by (apply Z.pow_pos_nonneg; lia).
  assert (HW : Zpos mV * 2 ^ (eV - ex) = W * 2 ^ n).
  { subst W n. rewrite <- Z.mul_assoc, <- Z.pow_add_r by lia.
    f_equal. f_equal. lia. }
  assert (Hle' : mx <= W * 2 ^ n).
  { rewrite <- HW.
    pose proof (proj1 (vle_base ex mx ex (Zpos mV) eV ltac:(lia) ltac:(lia))
                  Hle) as H.
    rewrite Z.sub_diag, Z.pow_0_r, Z.mul_1_r in H. exact H. }
  pose proof (rounded_bounds mx lx n Hm) as [Hlo Hhi].
  replace (Z.max 0 n) with n in Hlo, Hhi by lia.
  assert (Hq : mx / 2 ^ n <= W).
  { apply Z.div_le_upper_bound; [exact Hn|]. lia. }
  assert (C2 : rounded mx lx n <= W).
  { destruct (Z.eq_dec (mx / 2 ^ n) W) as [E|Hne]; [|lia].
    pose proof (Z.mul_div_le mx (2 ^ n) Hn) as Hd. rewrite E in Hd.
    assert (Emx : mx = W * 2 ^ n) by lia.
    assert (Elx : lx = loc_Exact).
    { destruct lx as [|c]; [reflexivity|]. exfalso.
      assert (Hs : vlt mx ex (Zpos mV) eV) by (apply Hlt; discriminate).
      apply (vlt_base ex) in Hs; [|lia|lia].
      rewrite Z.sub_diag, Z.pow_0_r, Z.mul_1_r, HW in Hs. lia. }
    subst lx. rewrite rounded_exact.
    - replace (Z.max 0 n) with n by lia. lia.
    - exact Hm.
    - replace (Z.max 0 n) with n by lia. rewrite Emx.
      apply Z.mod_mul. lia. }
  fold n. set (m2 := rounded mx lx n) in *.
  pose proof (rounded_nonneg mx lx n Hm) as Hm2. fold m2 in Hm2.
  assert (HWlt : W < 2 ^ 24 * 2 ^ (eV - e1)).
  { subst W. apply Z.mul_lt_mono_pos_r; [apply Z.pow_pos_nonneg|]; lia. }
  unfold pack. destruct (Z.eqb_spec m2 0); [reflexivity|].
  destruct (Z.ltb_spec m2 (2 ^ 24)) as [Hlt24|Hge24].
  - destruct (Z.leb_spec e1 104); [|lia].
    apply le_finite. rewrite Z2Pos.id by lia.
    destruct (Z.eq_dec e1 eV) as [E|]; [right|left; lia].
    split; [exact E|]. subst W. rewrite E, Z.sub_diag, Z.pow_0_r in C2. lia.
  - assert (He : e1 < eV).
    { destruct (Z.eq_dec e1 eV) as [E|]; [|lia].
      rewrite E, Z.sub_diag, Z.pow_0_r in HWlt. lia. }
    destruct (Z.leb_spec (e1 + 1) 104); [|lia].
    apply le_finite.
    destruct (Z.eq_dec (e1 + 1) eV) as [E|]; [right|left; lia].
    split; [exact E|]. rewrite Z2Pos.id by lia.
    subst W. replace (eV - e1) with 1 in C2 by lia.
    change (2 ^ 1) with 2 in C2. change (2 ^ 24) with (2 * 2 ^ 23) in Hge24.
    lia.
Qed.

(** Rounding does not cross a representable number: lower bound. *)
Lemma binary_round_aux_ge (sx : bool) (mx ex : Z) (lx : location)
    (mV : positive) (eV : Z) :
  0 <= mx -> ex <= fexp prec emax (Zdigits2 mx + ex) ->
  valid (S754_finite false mV eV) = true ->
  vle (Zpos mV) eV mx ex ->
  le (S754_finite false mV eV)
     (SFabs (binary_round_aux prec emax sx mx ex lx)) = true.
Proof.
  intros Hm Hal HV Hle.
  rewrite binary_round_aux_spec, pack_abs by assumption.
  set (e1 := fexp prec emax (Zdigits2 mx + ex)) in *.
  pose proof (valid_mantissa _ _ _ HV) as (HeV & HmV & HnV).
  apply valid_finite in HV as [HcV _].
  change (Zpos (digits2_pos mV)) with (Zdigits2 (Zpos mV)) in HcV.
  assert (Hpos : 0 < mx).
  { destruct (Z.eq_dec mx 0) as [E|]; [|lia]. exfalso.
    unfold vle in Hle. rewrite E, Z.mul_0_l in Hle.
    pose proof (Z.pow_pos_nonneg 2 (eV - Z.min eV ex) ltac:(lia) ltac:(lia)).
    nia. }
  pose proof (vle_digits (Zpos mV) eV mx ex ltac:(lia) Hpos Hle) as HD.
  pose proof (Zdigits2_pos (Zpos mV) ltac:(lia)) as HdV.
  assert (C1 : eV <= e1).
  { rewrite <- HcV. apply fexp_mono. exact HD. }
  set (n := e1 - ex).
  assert (Hn : 0 < 2 ^ n) by (apply Z.pow_pos_nonneg; lia).
  pose proof (rounded_bounds mx lx n Hm) as [Hlo Hhi].
  replace (Z.max 0 n) with n in Hlo, Hhi by lia.
  assert (Hd : Zdigits2 (mx / 2 ^ n) = Z.max 0 (Zdigits2 mx - n))
    by (apply Zdigits2_shiftr; lia).
  assert (Hq : 0 < mx / 2 ^ n).
  { destruct (Z.eq_dec (mx / 2 ^ n) 0) as [E|Hne].
    - rewrite E in Hd. cbn [Zdigits2] in Hd. subst n e1.
      rewrite fexp_eq in *. lia.
    - pose proof (Z.div_pos mx (2 ^ n) Hm Hn). lia. }
  fold n. set (m2 := rounded mx lx n) in *.
  pose proof (rounded_le_pow mx ex lx Hm Hal) as Hm2. fold e1 n m2 in Hm2.
  unfold pack. destruct (Z.eqb_spec m2 0); [lia|].
  destruct (Z.ltb_spec m2 (2 ^ 24)) as [Hlt24|Hge24].
  - destruct (Z.leb_spec e1 104); [|reflexivity].
    apply le_finite. rewrite Z2Pos.id by lia.
    destruct (Z.eq_dec eV e1) as [E|]; [right|left; lia].
    split; [exact E|].
    pose proof (proj1 (vle_base ex (Zpos mV) eV mx ex ltac:(lia) ltac:(lia))
                  Hle) as Hb.
    rewrite Z.sub_diag, Z.pow_0_r, Z.mul_1_r in Hb.
    replace (eV - ex) with n in Hb by lia.
    assert (Zpos mV <= mx / 2 ^ n).
    { apply Z.div_le_lower_bound; [exact Hn|]. lia. }
    lia.
  - destruct (Z.leb_spec (e1 + 1) 104); [|reflexivity].
    apply le_finite. left. lia.
Qed.

(** *** Rounding a number given exactly *)

Lemma iter_xO (m d : positive) :
  Zpos (Pos.iter xO m d) = Zpos m * 2 ^ Zpos d.
Proof.
  induction d as [|d IH] using Pos.peano_ind.
  - cbn [Pos.iter]. rewrite Pos2Z.inj_xO. change (2 ^ 1) with 2. lia.
  - rewrite Pos.iter_succ, Pos2Z.inj_xO, IH, Pos2Z.inj_succ.
    rewrite Z.pow_succ_r by lia. lia.
Qed.

Lemma shl_align_spec (mx : positive) (ex e : Z) :
  let ez := Z.min ex e in
  shl_align mx ex e = (Z.to_pos (Zpos mx * 2 ^ (ex - ez)), ez).
Proof.
  cbn zeta. unfold shl_align. destruct (e - ex) as [|d|d] eqn:E.
  - replace (Z.min ex e) with ex by lia.
    rewrite Z.sub_diag, Z.pow_0_r, Z.mul_1_r. reflexivity.
  - replace (Z.min ex e) with ex by lia.
    rewrite Z.sub_diag, Z.pow_0_r, Z.mul_1_r. reflexivity.
  - replace (Z.min ex e) with e by lia.
    replace (ex - e) with (Zpos d) by lia.
    rewrite <- iter_xO. reflexivity.
Qed.

Lemma Zdigits2_shiftl (m k : Z) :
  0 < m -> 0 <= k -> Zdigits2 (m * 2 ^ k) = Zdigits2 m + k.
Proof.
  intros Hm Hk.
  assert (0 < m * 2 ^ k) by (pose proof (Z.pow_pos_nonneg 2 k); nia).
  rewrite !Zdigits2_log2 by lia. rewrite Z.log2_mul_pow2 by lia. lia.
Qed.

Lemma vle_shiftl_l (m e k m' e' : Z) :
  0 <= k -> vle (m * 2 ^ k) (e - k) m' e' <-> vle m e m' e'.
Proof.
  intros Hk. set (c := Z.min (e - k) e').
  rewrite (vle_base c (m * 2 ^ k) (e - k) m' e') by lia.
  rewrite (vle_base c m e m' e') by lia.
  rewrite <- Z.mul_assoc, <- Z.pow_add_r by lia.
  replace (k + (e - k - c)) with (e - c) by lia. reflexivity.
Qed.

Lemma vle_shiftl_r (m e k m' e' : Z) :
  0 <= k -> vle m' e' (m * 2 ^ k) (e - k) <-> vle m' e' m e.
Proof.
  intros Hk. set (c := Z.min (e - k) e').
  rewrite (vle_base c m' e' (m * 2 ^ k) (e - k)) by lia.
  rewrite (vle_base c m' e' m e) by lia.
  rewrite <- Z.mul_assoc, <- Z.pow_add_r by lia.
  replace (k + (e - k - c)) with (e - c) by lia. reflexivity.
Qed.

(** [binary_round] first aligns the mantissa, then rounds. *)
Lemma binary_round_aligned (sx : bool) (mx : positive) (ex : Z) :
  let e1 := fexp prec emax (Zdigits2 (Zpos mx) + ex) in
  let k := ex - Z.min ex e1 in
  let mz := Zpos mx * 2 ^ k in
  binary_round prec emax sx mx ex
  = binary_round_aux prec emax sx mz (ex - k) loc_Exact /\
  0 < mz /\ 0 <= k /\
  ex - k <= fexp prec emax (Zdigits2 mz + (ex - k)).
Proof.
  cbn zeta. set (e1 := fexp prec emax (Zdigits2 (Zpos mx) + ex)).
  set (k := ex - Z.min ex e1).
  assert (Hk : 0 <= k) by lia.
  assert (Hmz : 0 < Zpos mx * 2 ^ k)
    by (pose proof (Z.pow_pos_nonneg 2 k); nia).
  split; [|split; [exact Hmz|split; [exact Hk|]]].
  - unfold binary_round.
    change (Zpos (digits2_pos mx)) with (Zdigits2 (Zpos mx)). fold e1.
    rewrite shl_align_spec. fold k. rewrite Z2Pos.id by exact Hmz.
    f_equal. lia.
  - rewrite Zdigits2_shiftl by lia.
    replace (Zdigits2 (Zpos mx) + k + (ex - k))
      with (Zdigits2 (Zpos mx) + ex) by lia.
    fold e1. lia.
Qed.

Lemma binary_round_valid (sx : bool) (mx : positive) (ex : Z) :
  valid (binary_round prec emax sx mx ex) = true.
Proof.
  destruct (binary_round_aligned sx mx ex) as (E & Hm & Hk & Hal).
  rewrite E. apply binary_round_aux_valid; [lia|exact Hal].
Qed.

Lemma binary_round_le (sx : bool) (mx : positive) (ex : Z)
    (mV : positive) (eV : Z) :
  valid (S754_finite false mV eV) = true ->
  vle (Zpos mx) ex (Zpos mV) eV ->
  le (SFabs (binary_round prec emax sx mx ex)) (S754_finite false mV eV)
  = true.
Proof.
  intros HV Hle.
  destruct (binary_round_aligned sx mx ex) as (E & Hm & Hk & Hal).
  rewrite E. apply binary_round_aux_le; try assumption; [lia| |].
  - apply vle_shiftl_l; assumption.
  - intros Hne. exfalso. apply Hne. reflexivity.
Qed.

Lemma binary_round_ge (sx : bool) (mx : positive) (ex : Z)
    (mV : positive) (eV : Z) :
  valid (S754_finite false mV eV) = true ->
  vle (Zpos mV) eV (Zpos mx) ex ->
  le (S754_finite false mV eV) (SFabs (binary_round prec emax sx mx ex))
  = true.
Proof.
  intros HV Hle.
  destruct (binary_round_aligned sx mx ex) as (E & Hm & Hk & Hal).
  rewrite E. apply binary_round_aux_ge; try assumption; [lia|].
  apply vle_shiftl_r; assumption.
Qed.

Lemma binary_round_sign (sx : bool) (mx : positive) (ex : Z) :
  binary_round prec emax sx mx ex
  = (if sx then SFopp (binary_round prec emax false mx ex)
     else binary_round prec emax false mx ex) /\
  unsigned (binary_round prec emax false mx ex) = true /\
  is_nan (binary_round prec emax sx mx ex) = false.
Proof.
  destruct (binary_round_aligned sx mx ex) as (E & Hm & Hk & Hal).
  destruct (binary_round_aligned false mx ex) as (E' & _).
  rewrite E, E'. rewrite !binary_round_aux_spec by (try lia; exact Hal).
  split; [|split].
  - destruct sx; [rewrite pack_opp|]; reflexivity.
  - apply pack_unsigned.
  - apply pack_not_nan.
Qed.

(** *** Order and value of valid numbers *)

Lemma le_numeric (ma mb : positive) (ea eb : Z) :
  valid (S754_finite false ma ea) = true ->
  valid (S754_finite false mb eb) = true ->
  le (S754_finite false ma ea) (S754_finite false mb eb) = true ->
  vle (Zpos ma) ea (Zpos mb) eb.
Proof.
  intros Ha Hb Hle.
  apply valid_mantissa in Ha as (Hea & Hma & _).
  apply valid_mantissa in Hb as (Heb & _ & Hmb).
  apply (vle_base (Z.min ea eb)); [lia|lia|].
  unfold le, SFleb in Hle. cbn [SFcompare] in Hle.
  change (Pos.compare_cont Eq ma mb) with (Pos.compare ma mb) in Hle.
  destruct (Z.compare_spec ea eb) as [E|Hlt|Hgt]; [| |discriminate].
  - subst eb. rewrite Z.min_id, Z.sub_diag, Z.pow_0_r, !Z.mul_1_r.
    destruct (Pos.compare_spec ma mb); try discriminate; lia.
  - replace (Z.min ea eb) with ea by lia.
    rewrite Z.sub_diag, Z.pow_0_r, Z.mul_1_r.
    assert (2 ^ 1 <= 2 ^ (eb - ea)) by (apply Z.pow_le_mono_r; lia).
    change (2 ^ 1) with 2 in *. change (2 ^ 24) with (2 ^ 23 * 2) in Hma.
    specialize (Hmb ltac:(lia)). nia.
Qed.

(** *** Addition of two magnitudes *)

Lemma add_finite (mx my : positive) (ex ey : Z) :
  let ez := Z.min ex ey in
  exists p : positive,
    Zpos p = Zpos mx * 2 ^ (ex - ez) + Zpos my * 2 ^ (ey - ez) /\
    add (S754_finite false mx ex) (S754_finite false my ey)
    = binary_round prec emax false p ez.
Proof.
  cbn zeta. set (ez := Z.min ex ey).
  unfold add, SFadd. fold ez. rewrite !shl_align_spec.
  replace (Z.min ex ez) with ez by lia.
  replace (Z.min ey ez) with ez by lia.
  cbn [fst cond_Zopp].
  assert (Hx : 0 < Zpos mx * 2 ^ (ex - ez))
    by (pose proof (Z.pow_pos_nonneg 2 (ex - ez)); nia).
  assert (Hy : 0 < Zpos my * 2 ^ (ey - ez))
    by (pose proof (Z.pow_pos_nonneg 2 (ey - ez)); nia).
  exists (Z.to_pos (Zpos mx * 2 ^ (ex - ez))
          + Z.to_pos (Zpos my * 2 ^ (ey - ez)))%positive.
  split; [|reflexivity].
  rewrite Pos2Z.inj_add, !Z2Pos.id by assumption. reflexivity.
Qed.

Lemma add_abs_unsigned (a b : float) :
  unsigned (add (SFabs a) (SFabs b)) = true.
Proof.
  destruct a as [sa|sa| |sa ma ea], b as [sb|sb| |sb mb eb];
    try reflexivity.
  cbn [SFabs]. destruct (add_finite ma mb ea eb) as (p & _ & E).
  rewrite E. apply (binary_round_sign false).
Qed.

Lemma add_abs_nan (a b : float) :
  is_nan (add (SFabs a) (SFabs b)) = is_nan a || is_nan b.
Proof.
  destruct a as [sa|sa| |sa ma ea], b as [sb|sb| |sb mb eb];
    try reflexivity.
  cbn [SFabs is_nan orb]. destruct (add_finite ma mb ea eb) as (p & _ & E).
  rewrite E. apply (binary_round_sign false).
Qed.

Lemma one_valid : valid one = true.
Proof. reflexivity. Qed.

Lemma two_valid : valid two = true.
Proof. reflexivity. Qed.

(** A magnitude of at most one, as a mantissa and an exponent. *)
Lemma le_one_numeric (m : positive) (e : Z) :
  valid (S754_finite false m e) = true ->
  le (S754_finite false m e) one = true ->
  -149 <= e /\ Zpos m * 2 ^ (e + 149) <= 2 ^ 149.
Proof.
  intros Hv Hle. pose proof (valid_mantissa _ _ _ Hv) as (He & _).
  split; [lia|].
  pose proof (le_numeric m (Z.to_pos (2 ^ 23)) e (-23) Hv one_valid Hle) as H.
  apply (vle_base (-149)) in H; [|lia|lia].
  replace (e - -149) with (e + 149) in H by lia. exact H.
Qed.

(** The sum of two magnitudes of at most one is at most two. *)
Lemma add_le_two (a b : float) :
  valid a = true -> valid b = true ->
  le (SFabs a) one = true -> le (SFabs b) one = true ->
  le (add (SFabs a) (SFabs b)) two = true.
Proof.
  intros Hva Hvb Ha Hb.
  destruct a as [sa|sa| |sa ma ea], b as [sb|sb| |sb mb eb];
    try discriminate; try reflexivity; cbn [SFabs] in *.
  - eapply F32Order.le_trans; [exact Hb|reflexivity].
  - eapply F32Order.le_trans; [exact Ha|reflexivity].
  - destruct (le_one_numeric ma ea Hva Ha) as [Hea Hna].
    destruct (le_one_numeric mb eb Hvb Hb) as [Heb Hnb].
    destruct (add_finite ma mb ea eb) as (p & Ep & E). rewrite E.
    pose proof (binary_round_sign false p (Z.min ea eb)) as (_ & Hu & _).
    assert (Habs : SFabs (binary_round prec emax false p (Z.min ea eb))
                   = binary_round prec emax false p (Z.min ea eb)).
    { destruct (binary_round prec emax false p (Z.min ea eb))
        as [[]|[]| |[] ? ?]; try discriminate; reflexivity. }
    rewrite <- Habs.
    apply (binary_round_le false p (Z.min ea eb) (Z.to_pos (2 ^ 23)) (-22));
      [reflexivity|].
    apply (vle_base (-149)); [lia|lia|]. rewrite Ep.
    rewrite Z.mul_add_distr_r, <- !Z.mul_assoc, <- !Z.pow_add_r by lia.
    replace (ea - Z.min ea eb + (Z.min ea eb - -149)) with (ea + 149) by lia.
    replace (eb - Z.min ea eb + (Z.min ea eb - -149)) with (eb + 149) by lia.
    change (Zpos (Z.to_pos (2 ^ 23)) * 2 ^ (-22 - -149)) with (2 ^ 149 + 2 ^ 149).
    lia.
Qed.

(** *** Conversion of an integer *)

Lemma of_Z_pos (n : Z) :
  0 < n -> of_Z n = binary_round prec emax false (Z.to_pos n) 0.
Proof. destruct n; try lia. reflexivity. Qed.

Lemma of_Z_spec (n : Z) :
  0 < n ->
  let e1 := fexp prec emax (Zdigits2 n) in
  let k := 0 - Z.min 0 e1 in
  of_Z n = pack false (rounded (n * 2 ^ k) loc_Exact (e1 - (0 - k))) e1.
Proof.
  intros Hn. cbn zeta. rewrite of_Z_pos by exact Hn.
  destruct (binary_round_aligned false (Z.to_pos n) 0) as (E & Hm & Hk & Hal).
  rewrite Z2Pos.id, Z.add_0_r in * by exact Hn.
  rewrite E, binary_round_aux_spec by (try lia; exact Hal).
  rewrite Zdigits2_shiftl by lia.
  set (k := 0 - Z.min 0 (fexp prec emax (Zdigits2 n))).
  replace (Zdigits2 n + k + (0 - k)) with (Zdigits2 n) by lia.
  reflexivity.
Qed.

Lemma pack_le_refl (m e : Z) : le (pack false m e) (pack false m e) = true.
Proof.
  unfold pack.
  repeat match goal with |- context [if ?b then _ else _] => destruct b end;
    try reflexivity; apply le_finite; right; split; lia.
Qed.

Lemma pack_mono (m m' e : Z) :
  0 <= m <= m' -> m' <= 2 ^ 24 ->
  le (pack false m e) (pack false m' e) = true.
Proof.
  intros [Hm Hmm] Hm'.
  destruct (Z.eq_dec m m') as [->|Hne]; [apply pack_le_refl|].
  unfold pack.
  destruct (Z.eqb_spec m 0), (Z.eqb_spec m' 0); try lia.
  - repeat match goal with
           | |- context [if ?b then _ else _] => destruct b
           end; reflexivity.
  - destruct (Z.ltb_spec m (2 ^ 24)); [|lia].
    destruct (Z.ltb_spec m' (2 ^ 24)).
    + destruct (Z.leb_spec e 104); [|reflexivity].
      apply le_finite. right. rewrite !Z2Pos.id by lia. lia.
    + destruct (Z.leb_spec e 104), (Z.leb_spec (e + 1) 104);
        try reflexivity; try lia.
      apply le_finite. left. lia.
Qed.

Lemma pow2_float_valid (d : Z) :
  -125 <= d <= 128 -> valid (pow2_float d) = true.
Proof.
  intros Hd. apply valid_finite.
  change (Zpos (digits2_pos (Z.to_pos (2 ^ 23)))) with 24.
  rewrite fexp_eq. lia.
Qed.

Lemma vle_pow2_upper (n d : Z) :
  0 < n -> Zdigits2 n < d -> vle n 0 (2 ^ 23) (d - 24).
Proof.
  intros Hn Hd. pose proof (Zdigits2_bounds n Hn) as [_ Hhi].
  pose proof (Zdigits2_pos n Hn).
  set (c := Z.min 0 (d - 24)).
  apply (vle_base c); [lia|lia|].
  rewrite <- Z.pow_add_r by lia.
  replace (23 + (d - 24 - c)) with (d - 1 + (0 - c)) by lia.
  rewrite Z.pow_add_r by lia.
  apply Z.mul_le_mono_nonneg_r; [apply Z.pow_nonneg; lia|].
  assert (2 ^ Zdigits2 n <= 2 ^ (d - 1)) by (apply Z.pow_le_mono_r; lia).
  lia.
Qed.

Lemma vle_pow2_lower (n : Z) :
  0 < n -> vle (2 ^ 23) (Zdigits2 n - 24) n 0.
Proof.
  intros Hn. pose proof (Zdigits2_bounds n Hn) as [Hlo _].
  pose proof (Zdigits2_pos n Hn).
  set (c := Z.min 0 (Zdigits2 n - 24)).
  apply (vle_base c); [lia|lia|].
  rewrite <- Z.pow_add_r by lia.
  replace (23 + (Zdigits2 n - 24 - c)) with (Zdigits2 n - 1 + (0 - c)) by lia.
  rewrite Z.pow_add_r by lia.
  apply Z.mul_le_mono_nonneg_r; [apply Z.pow_nonneg; lia|]. exact Hlo.
Qed.

Lemma of_Z_abs (n : Z) : 0 <= n -> SFabs (of_Z n) = of_Z n.
Proof.
  intros Hn. destruct (Z.eq_dec n 0) as [->|]; [reflexivity|].
  rewrite of_Z_spec by lia. apply pack_abs.
Qed.

Lemma of_Z_valid (n : Z) : valid (of_Z n) = true.
Proof.
  destruct n as [|p|p]; [reflexivity| |]; apply binary_round_valid.
Qed.

(** The conversion is monotone. *)
Lemma of_Z_mono (a b : Z) :
  0 < a <= b -> b < 2 ^ 128 -> le (of_Z a) (of_Z b) = true.
Proof.
  intros [Ha Hab] Hb.
  pose proof (Zdigits2_mono a b ltac:(lia)) as Hd.
  pose proof (Zdigits2_pos a Ha) as Hda.
  pose proof (Zdigits2_le_pow b 128 ltac:(lia) ltac:(lia)) as Hdb.
  destruct (Z.eq_dec (Zdigits2 a) (Zdigits2 b)) as [E|Hne].
  - rewrite (of_Z_spec a), (of_Z_spec b) by lia. rewrite E.
    set (e1 := fexp prec emax (Zdigits2 b)). set (k := 0 - Z.min 0 e1).
    assert (Hk : 0 < 2 ^ k) by (apply Z.pow_pos_nonneg; lia).
    apply pack_mono.
    + split; [apply rounded_nonneg; nia|]. apply rounded_mono. nia.
    + pose proof (rounded_le_pow (b * 2 ^ k) (0 - k) loc_Exact ltac:(nia))
        as H.
      cbn zeta in H. rewrite Zdigits2_shiftl in H by lia.
      replace (Zdigits2 b + k + (0 - k)) with (Zdigits2 b) in H by lia.
      fold e1 in H. apply H. lia.
  - apply (F32Order.le_trans _ (pow2_float (Zdigits2 b))).
    + rewrite <- (of_Z_abs a) by lia. rewrite of_Z_pos by lia.
      apply binary_round_le; [apply pow2_float_valid; lia|].
      rewrite (Z2Pos.id a) by lia. apply vle_pow2_upper; lia.
    + rewrite <- (of_Z_abs b) by lia. rewrite of_Z_pos by lia.
      apply binary_round_ge; [apply pow2_float_valid; lia|].
      rewrite (Z2Pos.id b) by lia. apply vle_pow2_lower. lia.
Qed.

(** *** Division *)

Lemma SFdiv_core_spec (m1 m2 : positive) (e1 e2 : Z) :
  let e' := Z.min (fexp prec emax (Zdigits2 (Zpos m1) + e1
                                   - (Zdigits2 (Zpos m2) + e2)))
                  (e1 - e2) in
  let m' := Zpos m1 * 2 ^ (e1 - e2 - e') in
  SFdiv_core_binary prec emax (Zpos m1) e1 (Zpos m2) e2
  = (m' / Zpos m2, e', new_location (Zpos m2) (m' mod Zpos m2)).
Proof.
  cbn zeta. unfold SFdiv_core_binary.
  set (e' := Z.min _ (e1 - e2)). set (s := e1 - e2 - e').
  assert (Hs : 0 <= s) by lia.
  assert (Em : match s with
               | 0 => Zpos m1
               | Zpos _ => Z.shiftl (Zpos m1) s
               | Zneg _ => 0
               end = Zpos m1 * 2 ^ s).
  { destruct s as [|p|p] eqn:E; [simpl; lia| |lia].
    apply Z.shiftl_mul_pow2. lia. }
  rewrite Em. unfold Z.div, Z.modulo.
  destruct (Z.div_eucl (Zpos m1 * 2 ^ s) (Zpos m2)). reflexivity.
Qed.

Lemma new_location_zero (nb : Z) : new_location nb 0 = loc_Exact.
Proof.
  unfold new_location, new_location_even, new_location_odd.
  destruct (Z.even nb); reflexivity.
Qed.

(** The quotient of a number by a larger one is at most one. *)
Lemma div_le_one (ma mb : positive) (ea eb : Z) :
  valid (S754_finite false ma ea) = true ->
  valid (S754_finite false mb eb) = true ->
  vle (Zpos ma) ea (Zpos mb) eb ->
  let q := div (S754_finite false ma ea) (S754_finite false mb eb) in
  valid q = true /\ unsigned q = true /\ le q one = true.
Proof.
  intros Hva Hvb Hle. cbn zeta. unfold div, SFdiv. cbn [xorb].
  rewrite SFdiv_core_spec.
  set (X := Zdigits2 (Zpos ma) + ea - (Zdigits2 (Zpos mb) + eb)).
  set (e' := Z.min (fexp prec emax X) (ea - eb)).
  set (s := ea - eb - e'). set (m' := Zpos ma * 2 ^ s).
  assert (Hs : 0 <= s) by lia.
  assert (Hps : 0 < 2 ^ s) by (apply Z.pow_pos_nonneg; lia).
  assert (Hm' : 0 < m') by (subst m'; nia).
  set (q := m' / Zpos mb). set (r := m' mod Zpos mb).
  pose proof (Z.div_mod m' (Zpos mb) ltac:(lia)) as Hdm. fold q r in Hdm.
  pose proof (Z.mod_pos_bound m' (Zpos mb) ltac:(lia)) as Hr. fold r in Hr.
  assert (Hq : 0 <= q) by (apply Z.div_pos; lia).
  pose proof (vle_digits (Zpos ma) ea (Zpos mb) eb ltac:(lia) ltac:(lia) Hle)
    as HD.
  assert (HX : X <= 0) by lia.
  assert (He' : e' <= -24) by (subst e'; rewrite fexp_eq; lia).
  (* alignment *)
  assert (Hal : e' <= fexp prec emax (Zdigits2 q + e')).
  { destruct (Z_le_gt_dec e' (-149)) as [|Hgt];
      [rewrite fexp_eq; lia|].
    assert (HX24 : e' <= X - 24) by (subst e'; rewrite fexp_eq in *; lia).
    pose proof (Zdigits2_bounds (Zpos ma) ltac:(lia)) as [Hlo _].
    pose proof (Zdigits2_bounds (Zpos mb) ltac:(lia)) as [_ Hhi].
    pose proof (Zdigits2_pos (Zpos ma) ltac:(lia)).
    pose proof (Zdigits2_pos (Zpos mb) ltac:(lia)).
    set (j := X - 1 - e').
    assert (Hj : 2 ^ j <= q).
    { apply Z.div_le_lower_bound; [lia|].
      assert (A : Zpos mb * 2 ^ j <= 2 ^ Zdigits2 (Zpos mb) * 2 ^ j).
      { apply Z.mul_le_mono_nonneg_r; [apply Z.pow_nonneg|]; lia. }
      assert (B : 2 ^ (Zdigits2 (Zpos ma) - 1) * 2 ^ s <= m').
      { subst m'. apply Z.mul_le_mono_nonneg_r; lia. }
      rewrite <- Z.pow_add_r in A, B by lia.
      replace (Zdigits2 (Zpos mb) + j) with (Zdigits2 (Zpos ma) - 1 + s)
        in A by lia.
      lia. }
    pose proof (Zdigits2_ge_pow q j ltac:(lia) Hj).
    eapply Z.le_trans; [|apply fexp_mono with (a := X); lia].
    rewrite fexp_eq. lia. }
  (* value *)
  assert (Hnum : m' <= Zpos mb * 2 ^ (- e')).
  { pose proof (proj1 (vle_base (eb + e') (Zpos ma) ea (Zpos mb) eb
                                ltac:(lia) ltac:(lia)) Hle) as H.
    replace (ea - (eb + e')) with s in H by lia.
    replace (eb - (eb + e')) with (- e') in H by lia. exact H. }
  assert (Hq1 : q <= 2 ^ (- e')) by nia.
  split; [|split].
  - apply binary_round_aux_valid; assumption.
  - rewrite binary_round_aux_spec by assumption. apply pack_unsigned.
  - rewrite binary_round_aux_spec by assumption.
    rewrite <- (pack_abs false), <- binary_round_aux_spec by assumption.
    apply (binary_round_aux_le false q e' _ (Z.to_pos (2 ^ 23)) (-23));
      try assumption; [reflexivity| |].
    + apply (vle_base e'); [lia|lia|].
      rewrite Z.sub_diag, Z.pow_0_r, Z.mul_1_r.
      change (Zpos (Z.to_pos (2 ^ 23))) with (2 ^ 23).
      rewrite <- Z.pow_add_r by lia.
      replace (23 + (-23 - e')) with (- e') by lia. exact Hq1.
    + intros Hne. apply (vlt_base e'); [lia|lia|].
      rewrite Z.sub_diag, Z.pow_0_r, Z.mul_1_r.
      change (Zpos (Z.to_pos (2 ^ 23))) with (2 ^ 23).
      rewrite <- Z.pow_add_r by lia.
      replace (23 + (-23 - e')) with (- e') by lia.
      destruct (Z.eq_dec r 0) as [E|Hr0].
      * exfalso. apply Hne. rewrite E. apply new_location_zero.
      * nia.
Qed.

(** *** Doubling, and subtracting one *)

Lemma mul_two_le_two (q : float) :
  valid q = true -> unsigned q = true -> le q one = true ->
  let t := mul two q in
  valid t = true /\ unsigned t = true /\ le t two = true.
Proof.
  intros Hv Hu Hle. cbn zeta.
  destruct q as [[]|[]| |[] mq eq]; try discriminate;
    [repeat split; reflexivity|].
  unfold mul, two, SFmul. cbn [xorb].
  destruct (le_one_numeric mq eq Hv Hle) as [He Hn].
  apply valid_finite in Hv as [Hc _]. rewrite fexp_eq in Hc.
  change (Zpos (digits2_pos mq)) with (Zdigits2 (Zpos mq)) in Hc.
  set (mx := Zpos (8388608 * mq)).
  assert (Emx : mx = Zpos mq * 2 ^ 23) by (subst mx; lia).
  assert (Hal : -22 + eq <= fexp prec emax (Zdigits2 mx + (-22 + eq))).
  { rewrite Emx, Zdigits2_shiftl, fexp_eq by lia. lia. }
  assert (Hmx : 0 <= mx) by lia.
  split; [|split].
  - apply binary_round_aux_valid; assumption.
  - rewrite binary_round_aux_spec by assumption. apply pack_unsigned.
  - rewrite binary_round_aux_spec by assumption.
    rewrite <- (pack_abs false), <- binary_round_aux_spec by assumption.
    apply (binary_round_aux_le false mx (-22 + eq) _ (Z.to_pos (2 ^ 23)) (-22));
      [exact Hmx|exact Hal|reflexivity| |].
    + apply (vle_base (-171)); [lia|lia|].
      change (Zpos (Z.to_pos (2 ^ 23)) * 2 ^ (-22 - -171))
        with (2 ^ 149 * 2 ^ 23).
      replace (-22 + eq - -171) with (eq + 149) by lia.
      rewrite Emx. nia.
    + intros Hne. exfalso. apply Hne. reflexivity.
Qed.

(** A number whose magnitude is at most one lies in [[-1, +1]]. *)
Lemma abs_le_one_range (v : float) :
  le (SFabs v) one = true ->
  le (opp one) v = true /\ le v one = true.
Proof.
  destruct v as [[]|[]| |[] m e]; cbn [SFabs]; intros H;
    try discriminate H; split; try reflexivity; try exact H.
  unfold opp, one. cbn [SFopp negb]. rewrite F32Order.le_negated. exact H.
Qed.

Lemma sub_one_range (t : float) :
  valid t = true -> unsigned t = true -> le t two = true ->
  let v := sub t one in
  valid v = true /\ le (opp one) v = true /\ le v one = true.
Proof.
  intros Hv Hu Hle. cbn zeta.
  destruct t as [[]|[]| |[] mt et]; try discriminate;
    [repeat split; reflexivity|].
  pose proof (valid_mantissa _ _ _ Hv) as (He & _).
  pose proof (le_numeric mt (Z.to_pos (2 ^ 23)) et (-22) Hv two_valid Hle)
    as Hn.
  apply (vle_base (-149)) in Hn; [|lia|lia].
  replace (et - -149) with (et + 149) in Hn by lia.
  change (Zpos (Z.to_pos (2 ^ 23)) * 2 ^ (-22 - -149)) with (2 ^ 150) in Hn.
  unfold sub, one, SFsub. set (ez := Z.min et (-23)).
  rewrite !shl_align_spec.
  replace (Z.min et ez) with ez by lia.
  replace (Z.min (-23) ez) with ez by lia.
  cbn [fst cond_Zopp].
  assert (Hx : 0 < Zpos mt * 2 ^ (et - ez))
    by (pose proof (Z.pow_pos_nonneg 2 (et - ez)); nia).
  assert (Hy : 0 < 8388608 * 2 ^ (-23 - ez))
    by (pose proof (Z.pow_pos_nonneg 2 (-23 - ez)); nia).
  rewrite !Z2Pos.id by assumption.
  set (D := Zpos mt * 2 ^ (et - ez) - 8388608 * 2 ^ (-23 - ez)).
  assert (HD : D * 2 ^ (ez + 149) = Zpos mt * 2 ^ (et + 149) - 2 ^ 149).
  { subst D. rewrite Z.mul_sub_distr_r, <- !Z.mul_assoc.
    rewrite <- !Z.pow_add_r by lia.
    replace (et - ez + (ez + 149)) with (et + 149) by lia.
    replace (-23 - ez + (ez + 149)) with 126 by lia. reflexivity. }
  assert (Hp : 0 < 2 ^ (ez + 149)) by (apply Z.pow_pos_nonneg; lia).
  assert (Hmt : 0 < Zpos mt * 2 ^ (et + 149))
    by (pose proof (Z.pow_pos_nonneg 2 (et + 149)); nia).
  assert (Hbound : forall s p, Zpos p * 2 ^ (ez + 149) <= 2 ^ 149 ->
    let v := binary_round prec emax s p ez in
    valid v = true /\ le (opp one) v = true /\ le v one = true).
  { intros s p Hpv. cbn zeta. split; [apply binary_round_valid|].
    apply abs_le_one_range.
    apply (binary_round_le s p ez (Z.to_pos (2 ^ 23)) (-23));
      [reflexivity|].
    apply (vle_base (-149)); [lia|lia|].
    replace (ez - -149) with (ez + 149) by lia. exact Hpv. }
  destruct D as [|p|p] eqn:ED; cbn [binary_normalize].
  - repeat split; reflexivity.
  - apply Hbound. lia.
  - apply Hbound. lia.
Qed.

(** The value that the C++03 branch of [RandomNumber] computes from the
    result [r] of [rand()]. *)
Lemma scaled_rand_range (r RAND_MAX : Z) :
  0 <= r <= RAND_MAX -> 0 < RAND_MAX < 2 ^ 127 ->
  let v := sub (mul two (div (of_Z r) (of_Z RAND_MAX))) one in
  valid v = true /\ le (opp one) v = true /\ le v one = true.
Proof.
  intros Hr HM. cbn zeta.
  assert (HB : exists mb eb, of_Z RAND_MAX = S754_finite false mb eb).
  { pose proof (of_Z_abs RAND_MAX ltac:(lia)) as Habs.
    assert (Hlo : le one (of_Z RAND_MAX) = true).
    { rewrite <- Habs, of_Z_pos by lia.
      apply (binary_round_ge false _ 0 (Z.to_pos (2 ^ 23)) (-23));
        [reflexivity|].
      rewrite Z2Pos.id by lia. apply (vle_base (-23)); [lia|lia|].
      change (Zpos (Z.to_pos (2 ^ 23)) * 2 ^ (-23 - -23)) with (2 ^ 23).
      change (2 ^ (0 - -23)) with (2 ^ 23). lia. }
    assert (Hhi : le (of_Z RAND_MAX) (pow2_float 128) = true).
    { rewrite <- Habs, of_Z_pos by lia.
      apply binary_round_le; [reflexivity|].
      rewrite Z2Pos.id by lia. apply (vle_base 0); [lia|lia|].
      change (Zpos (Z.to_pos (2 ^ 23)) * 2 ^ (128 - 24 - 0)) with (2 ^ 127).
      rewrite Z.sub_diag, Z.pow_0_r. lia. }
    destruct (of_Z RAND_MAX) as [[]|[]| |[] mb eb]; try discriminate.
    eauto. }
  destruct HB as (mb & eb & EB).
  pose proof (of_Z_valid RAND_MAX) as HvB. rewrite EB in HvB.
  assert (HQ : let q := div (of_Z r) (of_Z RAND_MAX) in
               valid q = true /\ unsigned q = true /\ le q one = true).
  { destruct (Z.eq_dec r 0) as [->|Hr0].
    - rewrite EB. repeat split; reflexivity.
    - pose proof (of_Z_mono r RAND_MAX ltac:(lia)
                    ltac:(assert (2 ^ 127 < 2 ^ 128) by reflexivity; lia))
        as Hmono.
      pose proof (of_Z_valid r) as HvA.
      pose proof (of_Z_abs r ltac:(lia)) as HabsA.
      assert (HloA : le one (of_Z r) = true).
      { rewrite <- HabsA, of_Z_pos by lia.
        apply (binary_round_ge false _ 0 (Z.to_pos (2 ^ 23)) (-23));
          [reflexivity|].
        rewrite Z2Pos.id by lia. apply (vle_base (-23)); [lia|lia|].
        change (Zpos (Z.to_pos (2 ^ 23)) * 2 ^ (-23 - -23)) with (2 ^ 23).
        change (2 ^ (0 - -23)) with (2 ^ 23). lia. }
      rewrite EB in *.
      destruct (of_Z r) as [[]|[]| |[] ma ea]; try discriminate.
      apply div_le_one; try assumption.
      apply le_numeric; assumption. }
  cbn zeta in HQ. destruct HQ as (Hvq & Huq & Hleq).
  destruct (mul_two_le_two _ Hvq Huq Hleq) as (Hvt & Hut & Hlet).
  apply sub_one_range; assumption.
Qed.

End Rounding.

(** ** Distances *)

Section Distances.

Import F32 F32Order Rounding.

(** Both absolute-value functions give the same distance. *)
Lemma distance_abs_fabs (pt : Point) :
  Core.distance std_abs pt = Core.distance std_fabs pt.
Proof. reflexivity. Qed.

Lemma magnitude_abs (v : float) :
  Spec.magnitude v = SFabs v \/ v = S754_zero true.
Proof.
  destruct v as [[]|[]| |[] m e]; (left; reflexivity) || (right; reflexivity).
Qed.

(** The distance of the code and the distance of the specification are
    the same number: equal, or two zeros of different signs. *)
Lemma distance_manhattan (pt : Point) :
  Core.distance std_fabs pt = Spec.manhattan_distance pt \/
  exists s s', Core.distance std_fabs pt = S754_zero s /\
               Spec.manhattan_distance pt = S754_zero s'.
Proof.
  destruct pt as [vx vy].
  unfold Core.distance, Spec.manhattan_distance, std_fabs. cbn [x y].
  destruct (magnitude_abs vx) as [Ex|Ex], (magnitude_abs vy) as [Ey|Ey].
  - left. rewrite Ex, Ey. reflexivity.
  - subst vy. rewrite Ex.
    destruct vx as [[]|[]| |[] m e]; cbn; eauto.
  - subst vx. rewrite Ey.
    destruct vy as [[]|[]| |[] m e]; cbn; eauto.
  - subst vx vy. cbn. eauto.
Qed.

Lemma lt_distance_manhattan (pt : Point) (t : float) :
  lt (Core.distance std_fabs pt) t = lt (Spec.manhattan_distance pt) t.
Proof.
  destruct (distance_manhattan pt) as [->|(s & s' & -> & ->)];
    [reflexivity|].
  destruct s, s', t as [[]|[]| |[] ? ?]; reflexivity.
Qed.

Lemma distance_unsigned (pt : Point) :
  unsigned (Core.distance std_fabs pt) = true.
Proof. unfold Core.distance, std_fabs. apply add_abs_unsigned. Qed.


Lemma finite_not_nan (v : float) : is_finite v = true -> is_nan v = false.
Proof. destruct v; simpl; intros; try discriminate; reflexivity. Qed.

Lemma range_abs_le_one (v : float) :
  le (opp one) v = true -> le v one = true -> le (SFabs v) one = true.
Proof.
  destruct v as [[]|[]| |[] m e]; intros H1 H2; try discriminate H1;
    try discriminate H2; try exact H2.
  cbn [SFabs]. unfold one. rewrite <- le_negated. exact H1.
Qed.

(** A point with coordinates in [[-1, +1]] is at a distance of at most
    two, far below [FLT_MAX]. *)
Lemma generated_distance (pt : Point) :
  generated pt ->
  le (Core.distance std_fabs pt) two = true /\
  lt (Core.distance std_fabs pt) FLT_MAX = true.
Proof.
  intros [(Hvx & Hx1 & Hx2) (Hvy & Hy1 & Hy2)].
  assert (H : le (Core.distance std_fabs pt) two = true).
  { unfold Core.distance, std_fabs.
    apply add_le_two; try assumption; apply range_abs_le_one; assumption. }
  split; [exact H|].
  eapply le_lt_trans; [exact H|reflexivity].
Qed.

End Distances.

(** ** The search, in both ownership styles *)

Section Search.

Import F32 F32Order.

Variable absolute : float -> float.

(** When some distance is below [FLT_MAX], both searches return the
    pointer at the first index that achieves the least distance, with
    that distance. *)
Lemma nearest_first_minimum (h : store) (points : list pointer)
    (pts : list Point) :
  holds h points pts ->
  (exists j pt, pts !! j = Some pt /\
                lt (Core.distance absolute pt) FLT_MAX = true) ->
  exists (i : nat) (p : pointer) (pt : Point),
    points !! i = Some p /\ pts !! i = Some pt /\
    lt (Core.distance absolute pt) FLT_MAX = true /\
    Core.nearest_scan absolute h points
    = Returns (i, Core.distance absolute pt) /\
    Core.NearestToOrigin_raw absolute h points
    = Returns (p, Core.distance absolute pt) /\
    Core.NearestToOrigin_shared absolute h points
    = Returns (p, Core.distance absolute pt) /\
    (forall j q, pts !! j = Some q ->
       lt (Core.distance absolute q) (Core.distance absolute pt) = false) /\
    (forall j q, (j < i)%nat -> pts !! j = Some q ->
       eq (Core.distance absolute q) (Core.distance absolute pt) = false).
Proof.
  intros H (j & ptj & Hj & Hlt).
  set (ds := map (Core.distance absolute) pts).
  assert (Hdj : ds !! j = Some (Core.distance absolute ptj)).
  { subst ds. rewrite list_lookup_fmap, Hj. reflexivity. }
  destruct (search_some ds j _ Hdj Hlt) as [i Hi].
  pose proof (search_best ds) as [Hlow Hsel]. rewrite Hi in Hsel.
  destruct Hsel as (Hik & Hdi & Hmax & Hfirst).
  assert (Hpt : exists pt, pts !! i = Some pt /\
                           Core.distance absolute pt = (search ds).2).
  { subst ds. rewrite list_lookup_fmap in Hdi.
    destruct (pts !! i) as [pt|]; [|discriminate].
    inversion Hdi. eauto. }
  destruct Hpt as (pt & Hpti & Ed).
  destruct (Forall2_lookup_r _ _ _ _ _ H Hpti) as (p & Hp & Hpp).
  pose proof (NearestToOrigin_shared_search absolute h points pts H) as Es.
  pose proof (nearest_scan_search absolute h points pts H) as Er.
  cbn zeta in Es, Er. fold ds in Es, Er. rewrite Hi in Es, Er.
  cbn [pointer_at index_at default] in Es, Er.
  rewrite Hp in Es. cbn [default] in Es. rewrite <- Ed in Es, Er, Hmax.
  exists i, p, pt. repeat split; try assumption.
  - unfold Core.NearestToOrigin_raw. rewrite Er. cbn.
    rewrite (subscript_lookup _ _ _ Hp). reflexivity.
  - intros k q Hq. rewrite Ed. apply (Hlow k).
    + subst ds. rewrite length_map. eapply lookup_lt_Some. exact Hq.
    + subst ds. rewrite list_lookup_fmap, Hq. reflexivity.
  - intros k q Hk Hq. rewrite Ed. apply (Hfirst k); [exact Hk|].
    subst ds. rewrite list_lookup_fmap, Hq. reflexivity.
Qed.

(** No call leaves by an exception: the programs have no [throw]. *)
Lemma bind_no_raise {A B : Type} (m : outcome A) (k : A -> outcome B) :
  no_raise m -> (forall a, no_raise (k a)) -> no_raise (m ≫= k).
Proof.
  intros Hm Hk e. destruct m as [a| |]; cbn.
  - apply Hk.
  - exfalso. eapply Hm. reflexivity.
  - discriminate.
Qed.

Lemma ret_no_raise {A : Type} (a : A) : no_raise (mret a : outcome A).
Proof. intros e. discriminate. Qed.

Lemma for_each_no_raise {A St : Type} (body : St -> A -> outcome St)
    (l : list A) :
  (forall s a, no_raise (body s a)) ->
  forall s, no_raise (for_each body l s).
Proof.
  intros Hb. induction l as [|a l IH]; intros s; cbn [for_each].
  - intros e. discriminate.
  - apply bind_no_raise; [apply Hb|exact IH].
Qed.

Lemma deref_no_raise (h : store) (p : pointer) : no_raise (deref h p).
Proof.
  intros e. unfold deref. destruct p as [a|]; [|discriminate].
  destruct (h !! a); discriminate.
Qed.

Lemma subscript_no_raise {A : Type} (v : list A) (i : nat) :
  no_raise (subscript v i).
Proof. intros e. unfold subscript. destruct (v !! i); discriminate. Qed.

Lemma Manhattan_no_raise (h : store) (p : pointer) :
  no_raise (Core.ManhattanToOrigin absolute h p).
Proof.
  unfold Core.ManhattanToOrigin.
  apply bind_no_raise; [apply deref_no_raise|]. intros px.
  apply bind_no_raise; [apply deref_no_raise|]. intros py.
  apply ret_no_raise.
Qed.

Lemma NearestToOrigin_shared_no_raise (h : store) (points : list pointer) :
  no_raise (Core.NearestToOrigin_shared absolute h points).
Proof.
  apply for_each_no_raise. intros [mp md] p. unfold Core.nearest_body.
  apply bind_no_raise; [apply Manhattan_no_raise|]. intros d.
  destruct (lt d md); [|apply ret_no_raise].
  apply bind_no_raise; [apply Manhattan_no_raise|]. intros d'.
  apply ret_no_raise.
Qed.

Lemma NearestToOrigin_raw_no_raise (h : store) (points : list pointer) :
  no_raise (Core.NearestToOrigin_raw absolute h points).
Proof.
  unfold Core.NearestToOrigin_raw, Core.nearest_scan.
  apply bind_no_raise.
  - apply for_each_no_raise. intros [mi md] i. unfold Core.nearest_body_at.
    apply bind_no_raise; [apply subscript_no_raise|]. intros p.
    apply bind_no_raise; [apply Manhattan_no_raise|]. intros d.
    destruct (lt d md); [|apply ret_no_raise].
    apply bind_no_raise; [apply subscript_no_raise|]. intros p'.
    apply bind_no_raise; [apply Manhattan_no_raise|]. intros d'.
    apply ret_no_raise.
  - intros [mi md].
    apply bind_no_raise; [apply subscript_no_raise|]. intros p.
    apply ret_no_raise.
Qed.

End Search.


(** ** The programs as a whole *)

Section Programs.

Context {Engine : Type}.
Variable cpp11 : bool.
Variable uniform : float -> float -> Engine -> float * Engine.
Variable rand : Engine -> Z * Engine.
Variable RAND_MAX : Z.
Variable left_to_right : bool.

(** Every call of [RandomNumber] returns a number of [[-1, +1]] and
    changes the state of the engine only. *)
Hypothesis number_range :
  forall w, draws_in_range (Core.RandomNumber cpp11 uniform rand RAND_MAX) w.

Lemma prog_bind_returns {A B : Type} (m : prog Engine A)
    (k : A -> prog Engine B) (w w' : world Engine) (a : A) :
  m w = Returns (a, w') -> (m ≫= k) w = k a w'.
Proof.
  intros H. unfold mbind, prog_mbind, prog_bind. rewrite H. reflexivity.
Qed.

Lemma call_returns {A : Type} (f : store -> outcome A) (w : world Engine)
    (a : A) :
  f (heap w) = Returns a -> call f w = Returns (a, w).
Proof. intros H. unfold call. rewrite H. reflexivity. Qed.

Lemma RandomNumber_next (w : world Engine) :
  Core.RandomNumber cpp11 uniform rand RAND_MAX w
  = Returns ((next_number cpp11 uniform rand RAND_MAX (engine w)).1,
             mkWorld (heap w)
                     (next_number cpp11 uniform rand RAND_MAX (engine w)).2
                     (cout w)).
Proof.
  unfold Core.RandomNumber, next_number. destruct cpp11.
  - destruct (uniform _ _ _). reflexivity.
  - destruct (rand _). reflexivity.
Qed.

Lemma next_number_range (e : Engine) :
  in_unit_range (next_number cpp11 uniform rand RAND_MAX e).1.
Proof.
  destruct (number_range (mkWorld ∅ e [])) as (v & w' & E & Hv & _).
  rewrite RandomNumber_next in E. cbn [engine] in E.
  assert (Ev : (next_number cpp11 uniform rand RAND_MAX e).1 = v)
    by congruence.
  rewrite Ev. exact Hv.
Qed.

Lemma pointee_insert_fresh (h : store) (a : address) (pt q : Point)
    (p : pointer) :
  h !! a = None -> pointee h p = Some q ->
  pointee (<[a := pt]> h) p = Some q.
Proof.
  intros Ha Hp. destruct p as [b|]; [|discriminate]. cbn in *.
  rewrite lookup_insert_ne; [exact Hp|]. intros ->. congruence.
Qed.

Lemma pointee_insert_ne (h : store) (a : address) (pt : Point)
    (p : pointer) :
  p <> Some a -> pointee (<[a := pt]> h) p = pointee h p.
Proof.
  intros Hne. destruct p as [b|]; [|reflexivity]. cbn.
  apply lookup_insert_ne. intros ->. apply Hne. reflexivity.
Qed.

Lemma fresh_not_live (h : store) : h !! fresh (dom h) = None.
Proof. apply not_elem_of_dom. apply is_fresh. Qed.

Lemma next_point_generated (e : Engine) :
  generated (next_point cpp11 uniform rand RAND_MAX left_to_right e).1.
Proof.
  unfold next_point.
  pose proof (next_number_range e) as H1.
  destruct (next_number cpp11 uniform rand RAND_MAX e) as [v1 e1].
  pose proof (next_number_range e1) as H2.
  destruct (next_number cpp11 uniform rand RAND_MAX e1) as [v2 e2].
  cbn [fst] in *. destruct left_to_right; split; assumption.
Qed.

(** A call of [RandomPoint] makes one new object, with coordinates in
    [[-1, +1]], and reports it. *)
Lemma RandomPoint_spec (w : world Engine) :
  let a := fresh (dom (heap w)) in
  let pt := (next_point cpp11 uniform rand RAND_MAX left_to_right
               (engine w)).1 in
  let e := (next_point cpp11 uniform rand RAND_MAX left_to_right
              (engine w)).2 in
  Core.RandomPoint cpp11 uniform rand RAND_MAX left_to_right w
  = Returns (Some a, mkWorld (<[a := pt]> (heap w)) e
                             (cout w ++ [NewPointCreated pt])) /\
  generated pt.
Proof.
  cbn zeta. split; [|apply next_point_generated].
  unfold Core.RandomPoint, next_point.
  rewrite (prog_bind_returns _ _ _ _ _ (RandomNumber_next w)).
  destruct (next_number cpp11 uniform rand RAND_MAX (engine w)) as [v1 e1].
  cbn [fst snd].
  rewrite (prog_bind_returns _ _ _ _ _
             (RandomNumber_next (mkWorld (heap w) e1 (cout w)))).
  cbn [heap engine cout].
  destruct (next_number cpp11 uniform rand RAND_MAX e1) as [v2 e2].
  cbn [fst snd].
  unfold mbind, prog_mbind, prog_bind, new, call, print, mret, prog_mret,
    prog_ret, deref.
  cbn [heap engine cout]. rewrite lookup_insert_eq. reflexivity.
Qed.

Lemma filled_since_start (w0 : world Engine) : filled_since w0 [] [] w0.
Proof.
  split; [constructor|]. split; [constructor|]. split; [constructor|].
  split; [cbn; rewrite app_nil_r; reflexivity|].
  split; [intros p Hp; inversion Hp|reflexivity].
Qed.

Lemma filled_step (w0 : world Engine) (points : list pointer)
    (pts : list Point) (w : world Engine) :
  filled_since w0 points pts w ->
  exists (p : pointer) (w' : world Engine),
    let pt := (next_point cpp11 uniform rand RAND_MAX left_to_right
                 (engine w)).1 in
    Core.RandomPoint cpp11 uniform rand RAND_MAX left_to_right w
    = Returns (p, w') /\
    engine w' = (next_point cpp11 uniform rand RAND_MAX left_to_right
                   (engine w)).2 /\
    filled_since w0 (points ++ [p]) (pts ++ [pt]) w'.
Proof.
  intros (H & Hgen & Hnd & Hc & Hnew & Hold).
  destruct (RandomPoint_spec w) as (E & Hpt). cbn zeta in E, Hpt.
  set (pt := (next_point cpp11 uniform rand RAND_MAX left_to_right
                (engine w)).1) in *.
  set (a := fresh (dom (heap w))) in *.
  pose proof (fresh_not_live (heap w)) as Ha. fold a in Ha.
  assert (Hnin : Some a ∉ points).
  { intros Hin. apply list_elem_of_lookup in Hin as [i Hi].
    destruct (Forall2_lookup_l _ _ _ _ _ H Hi) as (q & _ & Hq).
    cbn in Hq. congruence. }
  eexists _, _. cbn zeta. split; [exact E|]. split; [reflexivity|].
  cbn [heap cout]. split; [|split; [|split; [|split; [|split]]]].
  - apply Forall2_app.
    + eapply Forall2_impl; [exact H|]. intros p q Hp.
      apply pointee_insert_fresh; assumption.
    + repeat constructor. cbn. apply lookup_insert_eq.
  - apply Forall_app. split; [exact Hgen|]. repeat constructor; apply Hpt.
  - apply NoDup_app. split; [exact Hnd|]. split; [|apply NoDup_singleton].
    intros p Hin Hin'. apply list_elem_of_singleton in Hin'. subst p.
    contradiction.
  - rewrite Hc, map_app, app_assoc. reflexivity.
  - intros p Hp. apply elem_of_app in Hp as [Hp|Hp]; [apply Hnew; exact Hp|].
    apply list_elem_of_singleton in Hp. subst p.
    rewrite <- (Hold (Some a) Hnin). exact Ha.
  - intros p Hp. cbn [heap]. rewrite pointee_insert_ne.
    + apply Hold. intros Hin. apply Hp. apply elem_of_app. left. exact Hin.
    + intros ->. apply Hp. apply elem_of_app. right. left.
Qed.

Lemma fill_from (w0 : world Engine) (n : nat) :
  forall (points : list pointer) (pts : list Point) (w : world Engine),
    filled_since w0 points pts w ->
    exists (points' : list pointer) (w' : world Engine),
      let drawn := next_points cpp11 uniform rand RAND_MAX left_to_right
                     n (engine w) in
      repeat_ n (fun points =>
                   p ← Core.RandomPoint cpp11 uniform rand RAND_MAX
                         left_to_right;
                   mret (points ++ [p])) points w
      = Returns (points', w') /\
      filled_since w0 points' (pts ++ drawn.1) w' /\
      engine w' = drawn.2 /\
      length points' = (length points + n)%nat.
Proof.
  induction n as [|n IH]; intros points pts w Hf.
  - exists points, w. cbn zeta. cbn [next_points fst snd].
    rewrite app_nil_r. repeat split; try apply Hf. lia.
  - destruct (filled_step w0 points pts w Hf) as (p & w1 & E & He & Hf1).
    cbn zeta in Hf1.
    destruct (IH (points ++ [p]) _ w1 Hf1)
      as (points' & w' & E' & Hf' & He' & Hlen).
    cbn zeta in E', Hf', He'. rewrite He in Hf', He'.
    exists points', w'. cbn zeta. cbn [next_points].
    destruct (next_point cpp11 uniform rand RAND_MAX left_to_right
                (engine w)) as [pt e1].
    cbn [fst snd] in *.
    destruct (next_points cpp11 uniform rand RAND_MAX left_to_right n e1)
      as [rest e2].
    cbn [fst snd] in *.
    split; [|split; [|split; [exact He'|]]].
    + cbn [repeat_].
      rewrite (prog_bind_returns _ _ w w1 (points ++ [p])); [exact E'|].
      rewrite (prog_bind_returns _ _ _ _ _ E). reflexivity.
    + rewrite <- app_assoc in Hf'. exact Hf'.
    + rewrite Hlen, length_app. cbn. lia.
Qed.

(** The loop that fills the vector. *)
Lemma fill_spec (n : nat) (w : world Engine) :
  exists (points : list pointer) (w' : world Engine),
    let drawn := next_points cpp11 uniform rand RAND_MAX left_to_right
                   n (engine w) in
    Core.fill cpp11 uniform rand RAND_MAX left_to_right n w
    = Returns (points, w') /\
    filled_since w points drawn.1 w' /\ engine w' = drawn.2 /\
    length points = n.
Proof.
  destruct (fill_from w n [] [] w (filled_since_start w))
    as (points & w' & E & Hf & He & Hlen).
  exists points, w'. cbn zeta in *. repeat split; try apply Hf; assumption.
Qed.

Lemma pointee_delete (h : store) (a : address) (p : pointer) :
  pointee (delete a h) p = if decide (p = Some a) then None else pointee h p.
Proof.
  case_decide as E.
  - subst p. cbn. apply lookup_delete_eq.
  - destruct p as [b|]; [|reflexivity]. cbn.
    apply lookup_delete_ne. intros ->. apply E. reflexivity.
Qed.

Lemma holds_delete (h : store) (a : address) (rest : list pointer)
    (pts : list Point) :
  holds h rest pts -> Some a ∉ rest -> holds (delete a h) rest pts.
Proof.
  induction 1 as [|p q rest pts Hp _ IH]; intros Hnin; constructor.
  - rewrite pointee_delete. destruct (decide (p = Some a)) as [->|];
      [|exact Hp].
    exfalso. apply Hnin. left.
  - apply IH. intros Hin. apply Hnin. right. exact Hin.
Qed.

(** The loop that tidies up deletes every object once: it has a defined
    behaviour, writes nothing, and takes the objects of the vector, and
    only them, out of the store. *)
Lemma delete_loop (points : list pointer) :
  forall (rest : list pointer) (pts : list Point) (k : nat)
         (w : world Engine),
    (forall i p, rest !! i = Some p -> points !! (k + i)%nat = Some p) ->
    holds (heap w) rest pts -> NoDup rest ->
    exists w' : world Engine,
      for_each_ (fun i => point ← call (fun _ => subscript points i);
                          delete_ point)
                (seq k (length rest)) w
      = Returns (tt, w') /\
      cout w' = cout w /\ engine w' = engine w /\
      forall p, pointee (heap w') p
                = if decide (p ∈ rest) then None else pointee (heap w) p.
Proof.
  induction rest as [|p rest IH]; intros pts k w Hk H Hnd.
  - exists w. repeat split.
  - apply Forall2_cons_inv_l in H as (pt & pts' & Hp & H & ->).
    apply NoDup_cons in Hnd as [Hnotin Hnd].
    assert (Hpk : points !! k = Some p).
    { rewrite <- (Nat.add_0_r k). apply Hk. reflexivity. }
    destruct p as [a|]; [|discriminate Hp]. cbn in Hp.
    set (w1 := mkWorld (delete a (heap w)) (engine w) (cout w)).
    destruct (IH pts' (S k) w1) as (w' & E & Hc & He & Hheap).
    { intros i q Hq.
      replace (S k + i)%nat with (k + S i)%nat by lia. apply Hk. exact Hq. }
    { apply holds_delete; assumption. }
    { exact Hnd. }
    exists w'. split; [|split; [exact Hc|split; [exact He|]]].
    + cbn [length seq for_each_].
      rewrite (prog_bind_returns _ _ w w1 tt); [exact E|].
      rewrite (prog_bind_returns _ _ w w (Some a)).
      * unfold delete_. rewrite Hp. reflexivity.
      * apply call_returns. apply subscript_lookup. exact Hpk.
    + intros p. rewrite Hheap. cbn [heap w1]. rewrite pointee_delete.
      destruct (decide (p ∈ rest)) as [Hin|Hnin].
      * rewrite decide_True by (right; exact Hin). reflexivity.
      * destruct (decide (p = Some a)) as [->|Hne].
        -- rewrite decide_True by left. reflexivity.
        -- rewrite decide_False; [reflexivity|].
           intros Hin. apply elem_of_cons in Hin as [?|?]; contradiction.
Qed.

Lemma store_eq (h h' : store) :
  (forall p, pointee h p = pointee h' p) -> h = h'.
Proof. intros H. apply map_eq. intros a. exact (H (Some a)). Qed.

(** What [main] has after the calls of [RandomPoint], and what the
    search then finds. *)
Lemma filled_search (w0 : world Engine) (points : list pointer)
    (pts : list Point) (w : world Engine) :
  filled_since w0 points pts w -> points <> [] ->
  exists (p : pointer) (pt : Point),
    let ds := map (Core.distance F32.std_fabs) pts in
    let n := count_below F32.half ds in
    0 <= n <= Z.of_nat (length points) /\
    generated pt /\ pts !! index_at (search ds).1 = Some pt /\
    (forall q, q ∈ pts ->
       F32.lt (Core.distance F32.std_fabs q) (Core.distance F32.std_fabs pt)
       = false) /\
    Core.count_range F32.std_fabs (heap w) points = Returns n /\
    Core.count_indexed F32.std_fabs (heap w) points = Returns n /\
    Core.NearestToOrigin_shared F32.std_fabs (heap w) points
    = Returns (p, Core.distance F32.std_fabs pt) /\
    Core.NearestToOrigin_raw F32.std_fabs (heap w) points
    = Returns (p, Core.distance F32.std_fabs pt) /\
    deref (heap w) p = Returns pt.
Proof.
  intros (H & Hgen & _) Hne.
  assert (Hex : exists j pt, pts !! j = Some pt /\
            F32.lt (Core.distance F32.std_fabs pt) F32.FLT_MAX = true).
  { destruct H as [|p pt points pts Hp H]; [contradiction|].
    exists 0%nat, pt. split; [reflexivity|].
    apply generated_distance. inversion Hgen; assumption. }
  destruct (nearest_first_minimum F32.std_fabs (heap w) points pts H Hex)
    as (i & p & pt & Hp & Hpt & _ & Hscan & Hr & Hs & Hlow & _).
  destruct (Forall2_lookup_l _ _ _ _ _ H Hp) as (q & Hq & Hpq).
  assert (q = pt) by congruence. subst q.
  assert (Hi : index_at (search (map (Core.distance F32.std_fabs) pts)).1
               = i).
  { pose proof (nearest_scan_search F32.std_fabs (heap w) points pts H)
      as Es.
    cbn zeta in Es. rewrite Hscan in Es. congruence. }
  exists p, pt. cbn zeta.
  pose proof (count_below_bounds F32.half
                (map (Core.distance F32.std_fabs) pts)) as Hb.
  rewrite length_map, <- (holds_length _ _ _ H) in Hb.
  pose proof (count_loop F32.std_fabs (heap w) points pts H 0) as Ec.
  rewrite Z.add_0_l in Ec.
  split; [lia|]. split.
  { rewrite Forall_lookup in Hgen. exact (Hgen i pt Hpt). }
  split; [rewrite Hi; exact Hpt|].
  split.
  { intros q Hin. apply list_elem_of_lookup in Hin as [j Hj].
    exact (Hlow j q Hj). }
  split; [exact Ec|].
  split; [rewrite count_indexed_range; exact Ec|].
  split; [exact Hs|]. split; [exact Hr|].
  apply deref_pointee. exact Hpq.
Qed.

(** A run of [main], in a raw-pointer program and in a [shared_ptr]
    program, from the same state. *)
Lemma main_runs (w : world Engine) :
  let drawn := next_points cpp11 uniform rand RAND_MAX left_to_right 100
                 (engine w) in
  let ds := map (Core.distance F32.std_fabs) drawn.1 in
  exists (wr ws : world Engine) (pt : Point),
    Core.main_raw F32.std_fabs cpp11 uniform rand RAND_MAX left_to_right w
    = Returns (EXIT_SUCCESS, wr) /\
    Core.main_shared F32.std_fabs cpp11 uniform rand RAND_MAX left_to_right w
    = Returns (EXIT_SUCCESS, ws) /\
    heap wr = heap w /\ engine wr = drawn.2 /\ engine ws = drawn.2 /\
    cout wr = cout ws /\
    length drawn.1 = 100%nat /\ Forall generated drawn.1 /\
    drawn.1 !! index_at (search ds).1 = Some pt /\
    (forall q, q ∈ drawn.1 ->
       F32.lt (Core.distance F32.std_fabs q) (Core.distance F32.std_fabs pt)
       = false) /\
    cout wr
    = cout w ++ map NewPointCreated drawn.1
      ++ [PointsNearOrigin (count_below F32.half ds) 100;
          NearestPointWas pt (Core.distance F32.std_fabs pt);
          CompiledUsing cpp11].
Proof.
  intros drawn ds.
  destruct (fill_spec 100 w) as (points & w1 & Efill & Hf & He & Hlen).
  cbn zeta in Efill, Hf, He. fold drawn in Hf, He.
  assert (Hne : points <> []) by (intros ->; discriminate Hlen).
  destruct (filled_search w points drawn.1 w1 Hf Hne)
    as (p & pt & Hn & Hpt & Hin & Hlow & Ecr & Eci & Es & Er & Ed).
  cbn zeta in Hn, Hin, Ecr, Eci. fold ds in Hn, Hin, Ecr, Eci.
  set (n := count_below F32.half ds) in *.
  destruct Hf as (H & Hgen & Hnd & Hc & Hnew & Hold).
  set (w2 := mkWorld (heap w1) (engine w1)
                     (cout w1 ++ [PointsNearOrigin n (length points)])).
  set (w3 := mkWorld (heap w1) (engine w1)
                     (cout w2 ++ [NearestPointWas pt
                                    (Core.distance F32.std_fabs pt)])).
  destruct (delete_loop points points drawn.1 0 w3)
    as (w4 & Edel & Hc4 & He4 & Hheap);
    [intros i q Hq; exact Hq|exact H|exact Hnd|].
  exists (mkWorld (heap w4) (engine w4) (cout w4 ++ [CompiledUsing cpp11])),
         (mkWorld (heap w3) (engine w3) (cout w3 ++ [CompiledUsing cpp11])),
         pt.
  split; [|split; [|split; [|split; [|split; [|split; [|split; [|split;
    [|split; [|split]]]]]]]]].
  - unfold Core.main_raw.
    rewrite (prog_bind_returns _ _ _ _ _ Efill).
    rewrite (prog_bind_returns _ _ w1 w1 n) by (apply call_returns; exact Eci).
    rewrite (prog_bind_returns _ _ w1 w2 tt) by reflexivity.
    rewrite (prog_bind_returns _ _ w2 w2 (p, Core.distance F32.std_fabs pt))
      by (apply call_returns; exact Er).
    rewrite (prog_bind_returns _ _ w2 w2 pt) by (apply call_returns; exact Ed).
    rewrite (prog_bind_returns _ _ w2 w3 tt) by reflexivity.
    rewrite (prog_bind_returns _ _ w3 w4 tt) by exact Edel.
    reflexivity.
  - unfold Core.main_shared.
    rewrite (prog_bind_returns _ _ _ _ _ Efill).
    rewrite (prog_bind_returns _ _ w1 w1 n) by (apply call_returns; exact Ecr).
    rewrite (prog_bind_returns _ _ w1 w2 tt) by reflexivity.
    rewrite (prog_bind_returns _ _ w2 w2 (p, Core.distance F32.std_fabs pt))
      by (apply call_returns; exact Es).
    rewrite (prog_bind_returns _ _ w2 w2 pt) by (apply call_returns; exact Ed).
    rewrite (prog_bind_returns _ _ w2 w3 tt) by reflexivity.
    reflexivity.
  - cbn [heap]. apply store_eq. intros q. rewrite Hheap. cbn [heap w3].
    destruct (decide (q ∈ points)) as [Hq|Hq].
    + symmetry. apply Hnew. exact Hq.
    + apply Hold. exact Hq.
  - cbn [engine]. rewrite He4. exact He.
  - cbn [engine]. exact He.
  - cbn [cout]. rewrite Hc4. reflexivity.
  - rewrite <- (holds_length _ _ _ H). exact Hlen.
  - exact Hgen.
  - exact Hin.
  - exact Hlow.
  - cbn [cout]. rewrite Hc4. subst w3 w2. cbn [cout].
    rewrite Hc, Hlen, <- !app_assoc. reflexivity.
Qed.

End Programs.

Section Equivalence.

Context {Engine : Type}.
Variable uniform : float -> float -> Engine -> float * Engine.
Variable rand : Engine -> Z * Engine.
Variable RAND_MAX : Z.
Variable left_to_right : bool.

(** What the programs need of the library: a number of [[-1, +1]] for
    every draw. *)
Hypothesis uniform_range :
  forall e, in_unit_range (uniform (F32.opp F32.one) F32.one e).1.



End Equivalence.

(** ** The claims of the specification *)

Lemma holds_singleton (h : store) (p : pointer) (pt : Point) :
  pointee h p = Some pt -> holds h [p] [pt].
Proof. intros H. repeat constructor. exact H. Qed.

Lemma abs_opp (v : float) : SFabs (SFopp v) = SFabs v.
Proof. destruct v; reflexivity. Qed.

Lemma count_near_origin_below (collection : list Point) (t : float) :
  Spec.count_near_origin collection t
  = count_below t (map (Core.distance F32.std_fabs) collection).
Proof.
  induction collection as [|pt rest IH]; [reflexivity|].
  cbn [Spec.count_near_origin map count_below]. rewrite IH.
  unfold Spec.is_near_origin. rewrite <- lt_distance_manhattan. reflexivity.
Qed.

(** C1, as the code has it.  For the empty collection [NearestToOrigin]
    raises no error, and no call of it ever does: the [shared_ptr] search
    returns the sentinel pair of the null pointer and [FLT_MAX] to its
    caller; the raw-pointer search leaves [FLT_MAX] in [min_distance] and
    [0] in [min_index], and then reads [points[0]], which the empty vector
    does not have. *)
Theorem NearestToOrigin_empty_no_error (h : store) :
  SharedPos2d.NearestToOrigin h [] = Returns (nullptr, F32.FLT_MAX) /\
  Core.nearest_scan F32.std_fabs h [] = Returns (0%nat, F32.FLT_MAX) /\
  RawPoint.NearestToOrigin h [] = Undefined /\
  forall points : list pointer,
    no_raise (SharedPos2d.NearestToOrigin h points) /\
    no_raise (RawPoint.NearestToOrigin h points).
Proof.
  repeat split; try reflexivity.
  - apply NearestToOrigin_shared_no_raise.
  - apply NearestToOrigin_raw_no_raise.
Qed.

(** C1, as the specification states it, fails: on the empty collection
    neither search raises [EmptyInputError]; the [shared_ptr] search
    returns the sentinel. *)
Lemma NearestToOrigin_empty_not_raised :
  SharedPos2d.NearestToOrigin ∅ [] = Returns (nullptr, F32.FLT_MAX) /\
  SharedPos2d.NearestToOrigin ∅ [] <> Raises EmptyInputError /\
  RawPoint.NearestToOrigin ∅ [] <> Raises EmptyInputError.
Proof.
  split; [reflexivity|]. split; intros H; discriminate H.
Qed.

(** C2, as the code has it.  For every collection of live points in which
    some distance is below [FLT_MAX], both searches return the pointer at
    the first index, in iteration order, whose distance is the least, with
    that distance: no point is strictly nearer, and no earlier point is as
    near. *)
Theorem NearestToOrigin_first_minimum (h : store) (points : list pointer)
    (pts : list Point) :
  holds h points pts ->
  (exists j pt, pts !! j = Some pt /\
                F32.lt (Core.distance F32.std_fabs pt) F32.FLT_MAX = true) ->
  exists (i : nat) (p : pointer) (pt : Point),
    points !! i = Some p /\ pts !! i = Some pt /\
    SharedPos2d.NearestToOrigin h points
    = Returns (p, Core.distance F32.std_fabs pt) /\
    RawPoint.NearestToOrigin h points
    = Returns (p, Core.distance F32.std_fabs pt) /\
    (forall j q, pts !! j = Some q ->
       F32.lt (Core.distance F32.std_fabs q) (Core.distance F32.std_fabs pt)
       = false) /\
    (forall j q, (j < i)%nat -> pts !! j = Some q ->
       F32.eq (Core.distance F32.std_fabs q) (Core.distance F32.std_fabs pt)
       = false).
Proof.
  intros H Hex.
  destruct (nearest_first_minimum F32.std_fabs h points pts H Hex)
    as (i & p & pt & Hp & Hpt & _ & _ & Hr & Hs & Hlow & Hfirst).
  exists i, p, pt. repeat split; assumption.
Qed.

(** On [[(1, 0), (0, 1)]], two points at the distance one, both searches
    return the first point. *)
Lemma NearestToOrigin_tie_first :
  holds Examples.tie_store Examples.tie_points
        [mkPoint F32.one F32.zero; mkPoint F32.zero F32.one] /\
  SharedPos2d.NearestToOrigin Examples.tie_store Examples.tie_points
  = Returns (Some 1%positive, F32.one) /\
  RawPoint.NearestToOrigin Examples.tie_store Examples.tie_points
  = Returns (Some 1%positive, F32.one).
Proof.
  assert (H : holds Examples.tie_store Examples.tie_points
                    [mkPoint F32.one F32.zero; mkPoint F32.zero F32.one])
    by (repeat constructor).
  split; [exact H|].
  destruct (NearestToOrigin_first_minimum _ _ _ H) as
    (i & p & pt & Hp & Hpt & Hs & Hr & _ & Hfirst).
  - exists 0%nat, (mkPoint F32.one F32.zero). split; reflexivity.
  - destruct i as [|[|i]].
    + inversion Hp; subst p. inversion Hpt; subst pt. split; assumption.
    + inversion Hpt; subst pt.
      specialize (Hfirst 0%nat (mkPoint F32.one F32.zero)
                         ltac:(lia) eq_refl).
      discriminate Hfirst.
    + discriminate Hp.
Defined.

(** C2, as the specification states it, fails: in
    [[(FLT_MAX, 0), (0, FLT_MAX)]] both points are at the least distance,
    [FLT_MAX], and the [shared_ptr] search returns the null pointer, not the
    first point. *)
Lemma NearestToOrigin_tie_at_max :
  SharedPos2d.ManhattanToOrigin Examples.far_store (Some 1%positive)
  = Returns F32.FLT_MAX /\
  SharedPos2d.ManhattanToOrigin Examples.far_store (Some 2%positive)
  = Returns F32.FLT_MAX /\
  SharedPos2d.NearestToOrigin Examples.far_store
    [Some 1%positive; Some 2%positive]
  = Returns (nullptr, F32.FLT_MAX) /\
  (forall d, SharedPos2d.NearestToOrigin Examples.far_store
               [Some 1%positive; Some 2%positive]
             <> Returns (Some 1%positive, d)).
Proof.
  split; [reflexivity|]. split; [reflexivity|]. split; [reflexivity|].
  intros d H. discriminate H.
Qed.

(** C3.  For every point with finite coordinates of either sign,
    [ManhattanToOrigin] returns the sum of the absolute values of the
    coordinates: the float sum of the two coordinates with their sign bits
    cleared, which is the same number as [|x| + |y|] computed with the
    arithmetic absolute value, and which is not negative.  The call only
    reads the store, and its result is the same for the point with either
    coordinate negated. *)
Theorem ManhattanToOrigin_absolute (h : store) (point : pointer)
    (vx vy : float) :
  pointee h point = Some (mkPoint vx vy) ->
  F32.is_finite vx = true -> F32.is_finite vy = true ->
  let d := F32.add (SFabs vx) (SFabs vy) in
  SharedPos2d.ManhattanToOrigin h point = Returns d /\
  RawPoint.ManhattanToOrigin h point = Returns d /\
  same_number d (Spec.manhattan_distance (mkPoint vx vy)) /\
  F32.unsigned d = true /\ F32.is_nan d = false /\
  forall (h' : store) (point' : pointer) (nx ny : bool),
    pointee h' point'
    = Some (mkPoint (if nx then F32.opp vx else vx)
                    (if ny then F32.opp vy else vy)) ->
    SharedPos2d.ManhattanToOrigin h' point' = Returns d /\
    RawPoint.ManhattanToOrigin h' point' = Returns d.
Proof.
  intros Hp Hfx Hfy d.
  assert (Hnan : F32.is_nan d = false).
  { subst d. rewrite Rounding.add_abs_nan.
    rewrite (finite_not_nan vx Hfx), (finite_not_nan vy Hfy). reflexivity. }
  split; [exact (Manhattan_pointee F32.std_abs h point _ Hp)|].
  split; [exact (Manhattan_pointee F32.std_fabs h point _ Hp)|].
  split; [|split; [apply Rounding.add_abs_unsigned|split; [exact Hnan|]]].
  - unfold same_number.
    destruct (distance_manhattan (mkPoint vx vy))
      as [E|(s & s' & E1 & E2)].
    + rewrite <- E. apply F32Order.eq_refl_finite. exact Hnan.
    + change (Core.distance F32.std_fabs (mkPoint vx vy)) with d in E1.
      rewrite E1, E2. reflexivity.
  - intros h' point' nx ny Hp'.
    assert (Ed : Core.distance F32.std_fabs
                   (mkPoint (if nx then F32.opp vx else vx)
                            (if ny then F32.opp vy else vy)) = d).
    { subst d. unfold Core.distance, F32.std_fabs, F32.opp. cbn [x y].
      destruct nx, ny; rewrite ?abs_opp; reflexivity. }
    rewrite <- Ed. split.
    + exact (Manhattan_pointee F32.std_abs h' point' _ Hp').
    + exact (Manhattan_pointee F32.std_fabs h' point' _ Hp').
Qed.

(** The point [(-0.2, 0.1)] of the scenario: its distance is [0.3f], as
    is the distance of [(0.2, 0.1)]. *)
Lemma ManhattanToOrigin_absolute_witness :
  pointee Examples.scenario_store (Some 3%positive)
  = Some (mkPoint (F32.opp (F32.literal 2 10)) (F32.literal 1 10)) /\
  F32.is_finite (F32.opp (F32.literal 2 10)) = true /\
  F32.is_finite (F32.literal 1 10) = true /\
  RawPoint.ManhattanToOrigin Examples.scenario_store (Some 3%positive)
  = Returns (F32.literal 3 10).
Proof.
  split; [reflexivity|]. split; [reflexivity|]. split; [reflexivity|].
  exact (proj1 (proj2 (ManhattanToOrigin_absolute
                         Examples.scenario_store (Some 3%positive)
                         (F32.opp (F32.literal 2 10)) (F32.literal 1 10)
                         eq_refl eq_refl eq_refl))).
Defined.

(** C4.  A point is near the origin exactly when its Manhattan distance is
    strictly below [0.5f], the threshold that the code fixes; a point whose
    distance equals [0.5f] is not near. *)
Theorem IsNearOrigin_strict (h : store) (point : pointer) (pt : Point) :
  pointee h point = Some pt ->
  let near := F32.lt (Core.distance F32.std_fabs pt) F32.half in
  SharedPos2d.Pos2dIsNearOrigin h point = Returns near /\
  RawPoint.PointIsNearOrigin h point = Returns near /\
  near = Spec.is_near_origin pt F32.half /\
  (F32.eq (Core.distance F32.std_fabs pt) F32.half = true -> near = false).
Proof.
  intros Hp near.
  split; [exact (IsNearOrigin_pointee F32.std_abs h point pt Hp)|].
  split; [exact (IsNearOrigin_pointee F32.std_fabs h point pt Hp)|].
  split.
  - subst near. unfold Spec.is_near_origin. apply lt_distance_manhattan.
  - intros He. subst near. apply F32Order.eq_not_lt. exact He.
Qed.

(** The point [(0.25, 0.25)] is at the distance [0.5f] exactly, and is not
    near the origin. *)
Lemma IsNearOrigin_boundary :
  pointee Examples.boundary_store (Some 1%positive)
  = Some (mkPoint (F32.literal 1 4) (F32.literal 1 4)) /\
  RawPoint.ManhattanToOrigin Examples.boundary_store (Some 1%positive)
  = Returns F32.half /\
  RawPoint.PointIsNearOrigin Examples.boundary_store (Some 1%positive)
  = Returns false /\
  SharedPos2d.Pos2dIsNearOrigin Examples.boundary_store (Some 1%positive)
  = Returns false.
Proof.
  split; [reflexivity|]. split; [reflexivity|].
  destruct (IsNearOrigin_strict Examples.boundary_store (Some 1%positive)
              (mkPoint (F32.literal 1 4) (F32.literal 1 4)) eq_refl)
    as (Hs & Hr & _ & Hb).
  rewrite Hs, Hr, (Hb eq_refl). split; reflexivity.
Defined.

(** C5.  On [[(0.1, 0.1), (0.9, 0.9), (-0.2, 0.1)]] the distances are
    [0.2f], [1.8f] and [0.3f], two points are near the origin, and the
    nearest point is the first one, [(0.1, 0.1)], at the distance [0.2f];
    in the raw-pointer program and in the [shared_ptr] program alike. *)
Theorem scenario_end_to_end :
  let h := Examples.scenario_store in
  let points := Examples.scenario_points in
  mapM (RawPoint.ManhattanToOrigin h) points
  = Returns [F32.literal 2 10; F32.literal 18 10; F32.literal 3 10] /\
  mapM (SharedPos2d.ManhattanToOrigin h) points
  = Returns [F32.literal 2 10; F32.literal 18 10; F32.literal 3 10] /\
  RawPoint.nearOrigin h points = Returns 2 /\
  SharedPos2d.nearOrigin h points = Returns 2 /\
  RawPoint.NearestToOrigin h points
  = Returns (Some 1%positive, F32.literal 2 10) /\
  SharedPos2d.NearestToOrigin h points
  = Returns (Some 1%positive, F32.literal 2 10) /\
  deref h (Some 1%positive)
  = Returns (mkPoint (F32.literal 1 10) (F32.literal 1 10)).
Proof. cbn zeta. repeat split; vm_compute; reflexivity. Qed.

(** C6, as the code has it.  For every singleton collection [[p]] whose
    point is at a distance below [FLT_MAX], [NearestToOrigin] returns [p]
    itself with its Manhattan distance, in the four programs. *)
Theorem NearestToOrigin_singleton (h : store) (p : pointer) (pt : Point) :
  pointee h p = Some pt ->
  F32.lt (Core.distance F32.std_fabs pt) F32.FLT_MAX = true ->
  let d := Core.distance F32.std_fabs pt in
  RawPoint.ManhattanToOrigin h p = Returns d /\
  SharedPos2d.NearestToOrigin h [p] = Returns (p, d) /\
  SharedPoint.NearestToOrigin h [p] = Returns (p, d) /\
  RawPoint.NearestToOrigin h [p] = Returns (p, d) /\
  RawPos2d.NearestToOrigin h [p] = Returns (p, d).
Proof.
  intros Hp Hlt d.
  destruct (nearest_first_minimum F32.std_fabs h [p] [pt]
              (holds_singleton h p pt Hp))
    as (i & p' & pt' & Hp' & Hpt' & _ & _ & Hr & Hs & _).
  { exists 0%nat, pt. split; [reflexivity|exact Hlt]. }
  destruct i as [|i]; [|discriminate Hp'].
  inversion Hp'; subst p'. inversion Hpt'; subst pt'.
  split; [exact (Manhattan_pointee F32.std_fabs h p pt Hp)|].
  repeat split; assumption.
Qed.

(** Every point that the random source can generate qualifies: here the
    point [(0.9, 0.9)] of the scenario. *)
Lemma NearestToOrigin_singleton_witness :
  pointee Examples.scenario_store (Some 2%positive)
  = Some (mkPoint (F32.literal 9 10) (F32.literal 9 10)) /\
  F32.lt (Core.distance F32.std_fabs
            (mkPoint (F32.literal 9 10) (F32.literal 9 10)))
         F32.FLT_MAX = true /\
  SharedPos2d.NearestToOrigin Examples.scenario_store [Some 2%positive]
  = Returns (Some 2%positive, F32.literal 18 10) /\
  RawPoint.NearestToOrigin Examples.scenario_store [Some 2%positive]
  = Returns (Some 2%positive, F32.literal 18 10).
Proof.
  split; [reflexivity|]. split; [reflexivity|].
  destruct (NearestToOrigin_singleton Examples.scenario_store
              (Some 2%positive)
              (mkPoint (F32.literal 9 10) (F32.literal 9 10))
              eq_refl eq_refl) as (_ & Hs & _ & Hr & _).
  split; [exact Hs|exact Hr].
Defined.

(** C6, as the specification states it, fails.  The point [(FLT_MAX, 0)]
    is at the distance [FLT_MAX], which is not below the initial minimum:
    the [shared_ptr] search of the singleton returns the null pointer.  The
    distance of [(FLT_MAX, FLT_MAX)] overflows to infinity: the raw-pointer
    search returns the point with [FLT_MAX], which is not its distance. *)
Lemma NearestToOrigin_singleton_at_max :
  SharedPos2d.ManhattanToOrigin Examples.far_store (Some 1%positive)
  = Returns F32.FLT_MAX /\
  SharedPos2d.NearestToOrigin Examples.far_store [Some 1%positive]
  = Returns (nullptr, F32.FLT_MAX) /\
  SharedPos2d.NearestToOrigin Examples.far_store [Some 1%positive]
  <> Returns (Some 1%positive, F32.FLT_MAX) /\
  RawPoint.ManhattanToOrigin Examples.overflow_store (Some 1%positive)
  = Returns F32.infinity /\
  RawPoint.NearestToOrigin Examples.overflow_store [Some 1%positive]
  = Returns (Some 1%positive, F32.FLT_MAX) /\
  RawPoint.NearestToOrigin Examples.overflow_store [Some 1%positive]
  <> Returns (Some 1%positive, F32.infinity).
Proof.
  split; [reflexivity|]. split; [reflexivity|].
  split; [intros H; discriminate H|].
  split; [reflexivity|]. split; [reflexivity|].
  intros H; discriminate H.
Qed.

(** C7.  The count of the points near the origin is at most the size of
    the collection, for every collection and every threshold, and is zero
    for every threshold that is at most zero; the count that the programs
    print is this count at the threshold [0.5f]. *)
Theorem count_near_origin_bounds (collection : list Point)
    (threshold : float) :
  0 <= Spec.count_near_origin collection threshold
    <= Z.of_nat (length collection) /\
  (F32.le threshold F32.zero = true ->
   Spec.count_near_origin collection threshold = 0) /\
  forall (h : store) (points : list pointer),
    holds h points collection ->
    SharedPos2d.nearOrigin h points
    = Returns (Spec.count_near_origin collection F32.half) /\
    RawPoint.nearOrigin h points
    = Returns (Spec.count_near_origin collection F32.half).
Proof.
  rewrite !count_near_origin_below. split; [|split].
  - pose proof (count_below_bounds threshold
                  (map (Core.distance F32.std_fabs) collection)) as H.
    rewrite length_map in H. exact H.
  - intros Ht. induction collection as [|pt rest IH]; [reflexivity|].
    cbn [map count_below]. rewrite IH.
    rewrite (F32Order.unsigned_not_lt _ _ (distance_unsigned pt) Ht).
    reflexivity.
  - intros h points H. split.
    + unfold SharedPos2d.nearOrigin, Core.count_range.
      rewrite (count_loop F32.std_abs h points collection H). reflexivity.
    + unfold RawPoint.nearOrigin. rewrite count_indexed_range.
      unfold Core.count_range.
      rewrite (count_loop F32.std_fabs h points collection H). reflexivity.
Qed.

(** The scenario: no point is counted at the threshold zero, two are at
    the threshold of the programs. *)
Lemma count_near_origin_witness :
  let collection :=
    [mkPoint (F32.literal 1 10) (F32.literal 1 10);
     mkPoint (F32.literal 9 10) (F32.literal 9 10);
     mkPoint (F32.opp (F32.literal 2 10)) (F32.literal 1 10)] in
  F32.le F32.zero F32.zero = true /\
  holds Examples.scenario_store Examples.scenario_points collection /\
  Spec.count_near_origin collection F32.zero = 0 /\
  RawPoint.nearOrigin Examples.scenario_store Examples.scenario_points
  = Returns (Spec.count_near_origin collection F32.half).
Proof.
  intros collection.
  assert (H : holds Examples.scenario_store Examples.scenario_points
                    collection) by (repeat constructor).
  split; [reflexivity|]. split; [exact H|].
  destruct (count_near_origin_bounds collection F32.zero) as (_ & Hz & Hc).
  split; [exact (Hz eq_refl)|].
  exact (proj2 (Hc Examples.scenario_store Examples.scenario_points H)).
Defined.

(** C9.  On the empty collection the [NearestToOrigin] of the two
    [shared_ptr] programs returns the null pointer with [FLT_MAX]: a
    result, not an error.  It does so in every store, also in the empty
    store, where any access to an element would have no defined
    behaviour. *)
Theorem NearestToOrigin_shared_empty (h : store) :
  SharedPos2d.NearestToOrigin h [] = Returns (nullptr, F32.FLT_MAX) /\
  SharedPoint.NearestToOrigin h [] = Returns (nullptr, F32.FLT_MAX) /\
  SharedPos2d.NearestToOrigin ∅ [] = SharedPos2d.NearestToOrigin h [] /\
  SharedPoint.NearestToOrigin ∅ [] = SharedPoint.NearestToOrigin h [].
Proof. repeat split; reflexivity. Qed.

(** C10.  Over the same collection of generated points (live, not empty,
    coordinates in [[-1, +1]]) the raw-pointer program and the
    [shared_ptr] program count the same number of points near the origin,
    find the same least distance, and select the same point: the pointer
    that the [shared_ptr] search returns is the element at the index that
    the raw-pointer search keeps. *)
Theorem variants_agree (h : store) (points : list pointer)
    (pts : list Point) :
  holds h points pts -> points <> [] -> Forall generated pts ->
  exists (n : Z) (i : nat) (p : pointer) (d : float),
    RawPoint.nearOrigin h points = Returns n /\
    SharedPoint.nearOrigin h points = Returns n /\
    Core.nearest_scan F32.std_fabs h points = Returns (i, d) /\
    points !! i = Some p /\
    RawPoint.NearestToOrigin h points = Returns (p, d) /\
    SharedPoint.NearestToOrigin h points = Returns (p, d).
Proof.
  intros H Hne Hgen.
  assert (Hex : exists j pt, pts !! j = Some pt /\
            F32.lt (Core.distance F32.std_fabs pt) F32.FLT_MAX = true).
  { destruct H as [|p pt points pts Hp H]; [contradiction|].
    exists 0%nat, pt. split; [reflexivity|].
    apply generated_distance. inversion Hgen; assumption. }
  destruct (nearest_first_minimum F32.std_fabs h points pts H Hex)
    as (i & p & pt & Hp & _ & _ & Hscan & Hr & Hs & _).
  exists (0 + count_below F32.half (map (Core.distance F32.std_fabs) pts)),
         i, p, (Core.distance F32.std_fabs pt).
  split; [|split].
  - unfold RawPoint.nearOrigin. rewrite count_indexed_range.
    exact (count_loop F32.std_fabs h points pts H 0).
  - exact (count_loop F32.std_fabs h points pts H 0).
  - repeat split; assumption.
Qed.

(** The three points of the scenario have coordinates in [[-1, +1]]. *)
Lemma variants_agree_witness :
  let pts :=
    [mkPoint (F32.literal 1 10) (F32.literal 1 10);
     mkPoint (F32.literal 9 10) (F32.literal 9 10);
     mkPoint (F32.opp (F32.literal 2 10)) (F32.literal 1 10)] in
  holds Examples.scenario_store Examples.scenario_points pts /\
  Examples.scenario_points <> [] /\
  Forall generated pts /\
  exists (n : Z) (i : nat) (p : pointer) (d : float),
    RawPoint.nearOrigin Examples.scenario_store Examples.scenario_points
    = Returns n /\
    SharedPoint.nearOrigin Examples.scenario_store Examples.scenario_points
    = Returns n /\
    Core.nearest_scan F32.std_fabs Examples.scenario_store
      Examples.scenario_points = Returns (i, d) /\
    Examples.scenario_points !! i = Some p /\
    RawPoint.NearestToOrigin Examples.scenario_store Examples.scenario_points
    = Returns (p, d) /\
    SharedPoint.NearestToOrigin Examples.scenario_store
      Examples.scenario_points = Returns (p, d).
Proof.
  intros pts.
  assert (H : holds Examples.scenario_store Examples.scenario_points pts)
    by (repeat constructor).
  assert (Hne : Examples.scenario_points <> []) by discriminate.
  assert (Hgen : Forall generated pts)
    by (repeat constructor; reflexivity).
  split; [exact H|]. split; [exact Hne|]. split; [exact Hgen|].
  exact (variants_agree Examples.scenario_store Examples.scenario_points pts
           H Hne Hgen).
Defined.

(** C8.  Every value that [RandomNumber] returns lies in [[-1, +1]].
    With C++11 the value is the one that the library's
    [uniform_real_distribution<float>(-1.f, 1.f)] draws, which lies between
    the bounds it is given (the upper bound need not be excluded for the
    claim); before C++11 it is
    [2.f * (rand() / (float)RAND_MAX) - 1.f], computed in binary32 from a
    [rand()] of [[0, RAND_MAX]].  The call changes the state of the engine
    only. *)
Theorem RandomNumber_range {Engine : Type}
    (uniform : float -> float -> Engine -> float * Engine)
    (rand : Engine -> Z * Engine) (RAND_MAX : Z) :
  (forall a b e, F32.valid a = true -> F32.valid b = true ->
                 F32.lt a b = true ->
                 F32.valid (uniform a b e).1 = true /\
                 F32.le a (uniform a b e).1 = true /\
                 F32.le (uniform a b e).1 b = true) ->
  (forall e, 0 <= (rand e).1 <= RAND_MAX) ->
  0 < RAND_MAX <= INT_MAX ->
  forall w : world Engine,
    draws_in_range (RawPoint.RandomNumber false uniform rand RAND_MAX) w /\
    draws_in_range (RawPoint.RandomNumber true uniform rand RAND_MAX) w /\
    draws_in_range (SharedPos2d.RandomNumber uniform rand RAND_MAX) w.
Proof.
  intros Huniform Hrand HMAX w.
  assert (H11 : draws_in_range
                  (Core.RandomNumber true uniform rand RAND_MAX) w).
  { unfold draws_in_range, Core.RandomNumber.
    destruct (Huniform (F32.opp F32.one) F32.one (engine w)
                eq_refl eq_refl eq_refl) as (Hv & Hlo & Hhi).
    destruct (uniform (F32.opp F32.one) F32.one (engine w)) as [v e].
    cbn [fst] in *. eexists _, _. split; [reflexivity|].
    repeat split; assumption. }
  split; [|split; exact H11].
  unfold draws_in_range, RawPoint.RandomNumber, Core.RandomNumber.
  specialize (Hrand (engine w)).
  destruct (rand (engine w)) as [r e]. cbn [fst] in *.
  eexists _, _. split; [reflexivity|]. split; [|split; reflexivity].
  apply Rounding.scaled_rand_range; [exact Hrand|].
  unfold INT_MAX in HMAX.
  assert (2147483647 < 2 ^ 127) by reflexivity. lia.
Qed.

(** An engine whose distribution always draws its lower bound and whose
    [rand()] always returns [16383], of a [RAND_MAX] of [32767]. *)
Lemma RandomNumber_range_witness :
  let uniform := fun (a b : float) (e : unit) => (a, e) in
  let rand := fun e : unit => (16383, e) in
  let w := mkWorld ∅ tt [] in
  (forall a b e, F32.valid a = true -> F32.valid b = true ->
                 F32.lt a b = true ->
                 F32.valid (uniform a b e).1 = true /\
                 F32.le a (uniform a b e).1 = true /\
                 F32.le (uniform a b e).1 b = true) /\
  (forall e, 0 <= (rand e).1 <= 32767) /\
  0 < 32767 <= INT_MAX /\
  draws_in_range (RawPoint.RandomNumber false uniform rand 32767) w /\
  draws_in_range (RawPoint.RandomNumber true uniform rand 32767) w /\
  draws_in_range (SharedPos2d.RandomNumber uniform rand 32767) w.
Proof.
  intros uniform rand w.
  assert (Hu : forall a b e, F32.valid a = true -> F32.valid b = true ->
                 F32.lt a b = true ->
                 F32.valid (uniform a b e).1 = true /\
                 F32.le a (uniform a b e).1 = true /\
                 F32.le (uniform a b e).1 b = true).
  { intros a b e Ha Hb Hlt. cbn. split; [exact Ha|].
    split; [|apply F32Order.lt_le; exact Hlt].
    apply F32Order.le_refl. exact (F32Order.lt_not_nan_l a b Hlt). }
  assert (Hr : forall e, 0 <= (rand e).1 <= 32767) by (intros e; cbn; lia).
  assert (HM : 0 < 32767 <= INT_MAX) by (unfold INT_MAX; lia).
  split; [exact Hu|]. split; [exact Hr|]. split; [exact HM|].
  exact (RandomNumber_range uniform rand 32767 Hu Hr HM w).
Defined.

(** * Further properties of the code *)

(** ** Elements that are not live *)

Section Liveness.

Import F32 F32Order.

Variable absolute : float -> float.

Lemma live_holds (h : store) (points : list pointer) :
  Forall (live h) points <-> exists pts, holds h points pts.
Proof.
  split.
  - induction 1 as [|p points [pt Hp] _ (pts & IH)].
    + exists []. constructor.
    + exists (pt :: pts). constructor; assumption.
  - intros (pts & H). induction H as [|p pt points pts Hp _ IH];
      constructor; [|exact IH].
    exists pt. exact Hp.
Qed.

Lemma not_live_pointee (h : store) (p : pointer) :
  ~ live h p -> pointee h p = None.
Proof.
  unfold live. destruct (pointee h p); [|reflexivity].
  intros H. exfalso. apply H. eauto.
Qed.

Lemma deref_not_live (h : store) (p : pointer) :
  pointee h p = None -> deref h p = Undefined.
Proof.
  unfold pointee, deref. destruct p as [a|]; simpl; [|reflexivity].
  intros ->. reflexivity.
Qed.

Lemma Manhattan_not_live (h : store) (p : pointer) :
  pointee h p = None -> Core.ManhattanToOrigin absolute h p = Undefined.
Proof.
  intros H. unfold Core.ManhattanToOrigin.
  rewrite (deref_not_live _ _ H). reflexivity.
Qed.

(** A loop whose body has no defined behaviour at one of the elements has
    none as a whole, whatever it did before. *)
Lemma for_each_undefined {A St : Type} (body : St -> A -> outcome St)
    (l : list A) :
  (forall s a, no_raise (body s a)) ->
  Exists (fun a => forall s, body s a = Undefined) l ->
  forall s, for_each body l s = Undefined.
Proof.
  intros Hnr. induction 1 as [a l Ha|a l _ IH]; intros s; cbn [for_each].
  - rewrite Ha. reflexivity.
  - destruct (body s a) as [s'|e|] eqn:E; cbn [mbind outcome_bind].
    + apply IH.
    + exfalso. exact (Hnr s a e E).
    + reflexivity.
Qed.

Lemma count_body_no_raise (h : store) (n : Z) (p : pointer) :
  no_raise (Core.count_body absolute h n p).
Proof.
  unfold Core.count_body, Core.IsNearOrigin.
  apply bind_no_raise.
  - apply bind_no_raise; [apply Manhattan_no_raise|].
    intros d. apply ret_no_raise.
  - intros near. apply ret_no_raise.
Qed.

Lemma nearest_body_no_raise (h : store) (s : pointer * float) (p : pointer) :
  no_raise (Core.nearest_body absolute h s p).
Proof.
  destruct s as [mp md]. unfold Core.nearest_body.
  apply bind_no_raise; [apply Manhattan_no_raise|]. intros d.
  destruct (lt d md); [|apply ret_no_raise].
  apply bind_no_raise; [apply Manhattan_no_raise|]. intros d'.
  apply ret_no_raise.
Qed.

Lemma nearest_body_at_no_raise (h : store) (points : list pointer)
    (s : nat * float) (i : nat) :
  no_raise (Core.nearest_body_at absolute h points s i).
Proof.
  destruct s as [mi md]. unfold Core.nearest_body_at.
  apply bind_no_raise; [apply subscript_no_raise|]. intros p.
  apply bind_no_raise; [apply Manhattan_no_raise|]. intros d.
  destruct (lt d md); [|apply ret_no_raise].
  apply bind_no_raise; [apply subscript_no_raise|]. intros p'.
  apply bind_no_raise; [apply Manhattan_no_raise|]. intros d'.
  apply ret_no_raise.
Qed.

Lemma some_not_live (h : store) (points : list pointer) :
  ~ Forall (live h) points ->
  exists i p, points !! i = Some p /\ pointee h p = None.
Proof.
  intros H. apply not_Forall_Exists in H; [|intros p; unfold live; apply _].
  apply Exists_exists in H as (p & Hin & Hp).
  apply list_elem_of_lookup in Hin as [i Hi].
  exists i, p. split; [exact Hi|]. apply not_live_pointee. exact Hp.
Qed.

(** With a null or dangling pointer among the elements, neither the count
    nor a search has a defined behaviour. *)
Lemma not_live_undefined (h : store) (points : list pointer) :
  ~ Forall (live h) points ->
  Core.count_range absolute h points = Undefined /\
  Core.count_indexed absolute h points = Undefined /\
  Core.NearestToOrigin_shared absolute h points = Undefined /\
  Core.NearestToOrigin_raw absolute h points = Undefined.
Proof.
  intros H. destruct (some_not_live h points H) as (i & p & Hi & Hp).
  assert (Hin : p ∈ points) by (eapply list_elem_of_lookup_2; exact Hi).
  assert (Hc : Core.count_range absolute h points = Undefined).
  { apply for_each_undefined; [apply count_body_no_raise|].
    apply Exists_exists. exists p. split; [exact Hin|]. intros n.
    unfold Core.count_body, Core.IsNearOrigin.
    rewrite (Manhattan_not_live _ _ Hp). reflexivity. }
  split; [exact Hc|]. split; [rewrite count_indexed_range; exact Hc|].
  split.
  - apply for_each_undefined; [apply nearest_body_no_raise|].
    apply Exists_exists. exists p. split; [exact Hin|]. intros [mp md].
    unfold Core.nearest_body.
    rewrite (Manhattan_not_live _ _ Hp). reflexivity.
  - unfold Core.NearestToOrigin_raw, Core.nearest_scan.
    rewrite for_each_undefined; [reflexivity| |].
    + apply nearest_body_at_no_raise.
    + apply Exists_exists. exists i. split.
      * apply elem_of_seq. apply lookup_lt_Some in Hi. lia.
      * intros [mi md]. unfold Core.nearest_body_at.
        rewrite (subscript_lookup _ _ _ Hi). cbn [mbind outcome_bind].
        rewrite (Manhattan_not_live _ _ Hp). reflexivity.
Qed.

End Liveness.

(** ** The least distance *)

Section Order.

Import F32 F32Order.

Lemma not_lt_le (a b : float) :
  lt a b = false -> is_nan a = false -> is_nan b = false -> le b a = true.
Proof.
  unfold lt, le, SFltb, SFleb.
  destruct a as [[]|[]| |[] ma ea], b as [[]|[]| |[] mb eb];
    simpl; intros; try discriminate; try reflexivity; split_compare.
Qed.



Lemma lt_max_finite (d : float) :
  lt d FLT_MAX = true -> unsigned d = true -> is_finite d = true.
Proof.
  destruct d as [[]|[]| |[] m e]; simpl; intros; try discriminate;
    reflexivity.
Qed.

(** A sum of two magnitudes that is below [FLT_MAX] has finite terms. *)
Lemma distance_lt_max_finite (pt : Point) :
  lt (Core.distance std_fabs pt) FLT_MAX = true ->
  is_finite (x pt) = true /\ is_finite (y pt) = true.
Proof.
  destruct pt as [vx vy]. unfold Core.distance, std_fabs. cbn [x y].
  destruct vx as [[]|[]| |[] mx ex], vy as [[]|[]| |[] my ey];
    intros H; try discriminate H; split; reflexivity.
Qed.

End Order.

Section Least.

Import F32 F32Order.

Lemma search_least (ds : list float) : least ds (search ds).2.
Proof.
  destruct (search_best ds) as [Hlow Hsel]. split.
  - intros d Hd. apply list_elem_of_lookup in Hd as [j Hj].
    apply (Hlow j); [|exact Hj]. eapply lookup_lt_Some. exact Hj.
  - destruct (search ds).1 as [i|]; [|left; exact Hsel].
    destruct Hsel as (_ & Hi & Hmax & _). right. split; [|exact Hmax].
    eapply list_elem_of_lookup_2. exact Hi.
Qed.




Lemma count_below_pos (t : float) (ds : list float) :
  0 < count_below t ds <-> exists d, d ∈ ds /\ lt d t = true.
Proof.
  induction ds as [|d ds IH]; cbn [count_below].
  - split; [lia|]. intros (d & Hd & _). inversion Hd.
  - pose proof (count_below_bounds t ds) as Hb.
    destruct (lt d t) eqn:E.
    + split; [|lia]. intros _. exists d. split; [left|exact E].
    + rewrite Z.add_0_l, IH. split.
      * intros (d' & Hd' & E'). exists d'. split; [right; exact Hd'|exact E'].
      * intros (d' & Hd' & E'). apply elem_of_cons in Hd' as [->|Hd'].
        -- rewrite E in E'. discriminate.
        -- eauto.
Qed.

Lemma distances_unsigned (pts : list Point) :
  Forall (fun d => unsigned d = true) (map (Core.distance std_fabs) pts).
Proof.
  apply Forall_forall. intros d Hd.
  apply list_elem_of_fmap in Hd as (pt & -> & _). apply distance_unsigned.
Qed.



Lemma least_range (ds : list float) (m : float) :
  Forall (fun d => unsigned d = true) ds -> least ds m ->
  is_finite m = true /\ unsigned m = true /\ le m FLT_MAX = true.
Proof.
  intros Hu [_ [->|[Hin Hlt]]]; [repeat split; reflexivity|].
  rewrite Forall_forall in Hu. pose proof (Hu m Hin) as Hm.
  split; [apply lt_max_finite; assumption|].
  split; [exact Hm|apply lt_le; exact Hlt].
Qed.

End Least.

(** ** What the searches return *)

Section SearchResults.

Import F32 F32Order.

(** The raw-pointer search of a vector of live pointers that is not empty
    returns the element at the index that the loop keeps. *)
Lemma NearestToOrigin_raw_search (h : store) (points : list pointer)
    (pts : list Point) :
  holds h points pts -> points <> [] ->
  let s := search (map (Core.distance std_fabs) pts) in
  exists p : pointer,
    points !! index_at s.1 = Some p /\
    Core.NearestToOrigin_raw std_fabs h points = Returns (p, s.2).
Proof.
  intros H Hne s.
  assert (Hi : (index_at s.1 < length points)%nat).
  { pose proof (search_best (map (Core.distance std_fabs) pts)) as [_ Hs].
    fold s in Hs. rewrite length_map, <- (holds_length _ _ _ H) in Hs.
    destruct s.1 as [i|]; cbn [index_at default].
    - apply Hs.
    - destruct points; [contradiction|]. cbn. lia. }
  apply lookup_lt_is_Some_2 in Hi as [p Hp]. exists p. split; [exact Hp|].
  unfold Core.NearestToOrigin_raw.
  rewrite (nearest_scan_search std_fabs h points pts H). cbn zeta. fold s.
  cbn [mbind outcome_bind]. rewrite (subscript_lookup _ _ _ Hp). reflexivity.
Qed.

End SearchResults.

(** X1.  Each of the two loops of [main] over the points, and each search, has
    a defined behaviour exactly when every element of the vector is a
    pointer to a live object and, for the raw-pointer search, the vector
    is not empty.  With a null or a dangling pointer anywhere in the
    vector none of them has. *)
Theorem defined_iff_live (h : store) (points : list pointer) :
  ((exists r, SharedPos2d.NearestToOrigin h points = Returns r)
   <-> Forall (live h) points) /\
  ((exists r, RawPoint.NearestToOrigin h points = Returns r)
   <-> points <> [] /\ Forall (live h) points) /\
  ((exists n, SharedPos2d.nearOrigin h points = Returns n)
   <-> Forall (live h) points) /\
  ((exists n, RawPoint.nearOrigin h points = Returns n)
   <-> Forall (live h) points) /\
  (~ Forall (live h) points ->
   SharedPos2d.NearestToOrigin h points = Undefined /\
   RawPoint.NearestToOrigin h points = Undefined /\
   SharedPos2d.nearOrigin h points = Undefined /\
   RawPoint.nearOrigin h points = Undefined).
Proof.
  assert (Hdec : Forall (live h) points \/ ~ Forall (live h) points).
  { destruct (decide (Forall (live h) points)); [left|right]; assumption. }
  assert (Hundef : ~ Forall (live h) points ->
            SharedPos2d.NearestToOrigin h points = Undefined /\
            RawPoint.NearestToOrigin h points = Undefined /\
            SharedPos2d.nearOrigin h points = Undefined /\
            RawPoint.nearOrigin h points = Undefined).
  { intros Hn.
    destruct (not_live_undefined F32.std_abs h points Hn)
      as (Hc & _ & Hs & _).
    destruct (not_live_undefined F32.std_fabs h points Hn)
      as (_ & Hci & _ & Hr).
    repeat split; assumption. }
  split; [|split; [|split; [|split]]]; [| | | |exact Hundef].
  - split.
    + intros [r Hr]. destruct Hdec as [Hl|Hn]; [exact Hl|].
      destruct (Hundef Hn) as (E & _). rewrite E in Hr. discriminate.
    + intros Hl. apply live_holds in Hl as [pts H].
      eexists. apply (NearestToOrigin_shared_search F32.std_abs _ _ _ H).
  - split.
    + intros [r Hr]. split.
      * intros ->. discriminate Hr.
      * destruct Hdec as [Hl|Hn]; [exact Hl|].
        destruct (Hundef Hn) as (_ & E & _). rewrite E in Hr. discriminate.
    + intros [Hne Hl]. apply live_holds in Hl as [pts H].
      destruct (NearestToOrigin_raw_search h points pts H Hne) as (p & _ & E).
      eexists. exact E.
  - split.
    + intros [r Hr]. destruct Hdec as [Hl|Hn]; [exact Hl|].
      destruct (Hundef Hn) as (_ & _ & E & _). rewrite E in Hr. discriminate.
    + intros Hl. apply live_holds in Hl as [pts H].
      eexists. apply (count_loop F32.std_abs h points pts H 0).
  - split.
    + intros [r Hr]. destruct Hdec as [Hl|Hn]; [exact Hl|].
      destruct (Hundef Hn) as (_ & _ & _ & E). rewrite E in Hr. discriminate.
    + intros Hl. apply live_holds in Hl as [pts H].
      eexists. unfold RawPoint.nearOrigin. rewrite count_indexed_range.
      apply (count_loop F32.std_fabs h points pts H 0).
Qed.

(** X2.  Whatever the points are (also with coordinates that are infinite or
    not numbers), the [min_distance] that a search of live points returns
    is a finite number between zero and [FLT_MAX], no point of the vector
    is at a distance strictly below it, and the two searches return the
    same one. *)
Theorem min_distance_least (h : store) (points : list pointer)
    (pts : list Point) :
  holds h points pts ->
  exists (p : pointer) (d : float),
    SharedPos2d.NearestToOrigin h points = Returns (p, d) /\
    (points <> [] ->
     exists p', RawPoint.NearestToOrigin h points = Returns (p', d)) /\
    (forall pt, pt ∈ pts ->
       F32.lt (Core.distance F32.std_fabs pt) d = false) /\
    F32.is_finite d = true /\ F32.le F32.zero d = true /\
    F32.le d F32.FLT_MAX = true.
Proof.
  intros H. set (ds := map (Core.distance F32.std_fabs) pts).
  pose proof (search_least ds) as Hl.
  destruct (least_range ds _ (distances_unsigned pts) Hl) as (Hf & Hu & Hm).
  exists (pointer_at points (search ds).1), (search ds).2.
  split; [exact (NearestToOrigin_shared_search F32.std_abs _ _ _ H)|].
  split; [|split; [|split; [exact Hf|split; [|exact Hm]]]].
  - intros Hne.
    destruct (NearestToOrigin_raw_search h points pts H Hne) as (p' & _ & E).
    exists p'. exact E.
  - intros pt Hpt. apply (proj1 Hl). subst ds.
    apply list_elem_of_fmap. exists pt. split; [reflexivity|exact Hpt].
  - destruct (search ds).2 as [[]|[]| |[] m e]; try discriminate;
      reflexivity.
Qed.

(** The scenario: no distance is below the [0.2f] that is returned. *)
Lemma min_distance_least_witness :
  let pts :=
    [mkPoint (F32.literal 1 10) (F32.literal 1 10);
     mkPoint (F32.literal 9 10) (F32.literal 9 10);
     mkPoint (F32.opp (F32.literal 2 10)) (F32.literal 1 10)] in
  holds Examples.scenario_store Examples.scenario_points pts /\
  exists (p : pointer) (d : float),
    SharedPos2d.NearestToOrigin Examples.scenario_store
      Examples.scenario_points = Returns (p, d) /\
    forall pt, pt ∈ pts -> F32.lt (Core.distance F32.std_fabs pt) d = false.
Proof.
  intros pts.
  assert (H : holds Examples.scenario_store Examples.scenario_points pts)
    by (repeat constructor).
  split; [exact H|].
  destruct (min_distance_least Examples.scenario_store
              Examples.scenario_points pts H)
    as (p & d & E & _ & Hlow & _).
  exists p, d. split; [exact E|exact Hlow].
Defined.

(** X3.  The [shared_ptr] search of live points returns the null pointer
    exactly when no point is at a distance below [FLT_MAX], and then with
    [FLT_MAX]; the raw-pointer search then returns the first element of
    the vector.  In every other case the two searches return the same
    element of the vector. *)
Theorem null_iff_none_below (h : store) (points : list pointer)
    (pts : list Point) :
  holds h points pts -> points <> [] ->
  exists (ps pr : pointer) (d : float),
    SharedPos2d.NearestToOrigin h points = Returns (ps, d) /\
    RawPoint.NearestToOrigin h points = Returns (pr, d) /\
    (ps = nullptr <->
     Forall (fun pt => F32.lt (Core.distance F32.std_fabs pt) F32.FLT_MAX
                       = false) pts) /\
    (ps = nullptr -> d = F32.FLT_MAX /\ points !! 0%nat = Some pr) /\
    (ps <> nullptr -> pr = ps /\ ps ∈ points).
Proof.
  intros H Hne. set (ds := map (Core.distance F32.std_fabs) pts).
  destruct (NearestToOrigin_raw_search h points pts H Hne) as (pr & Hpr & Er).
  cbn zeta in Hpr, Er. fold ds in Hpr, Er.
  pose proof (NearestToOrigin_shared_search F32.std_abs h points pts H) as Es.
  cbn zeta in Es. change (map (Core.distance F32.std_abs) pts) with ds in Es.
  exists (pointer_at points (search ds).1), pr, (search ds).2.
  split; [exact Es|]. split; [exact Er|].
  pose proof (search_best ds) as [_ Hsel].
  destruct (search ds).1 as [i|] eqn:Hs.
  - destruct Hsel as (Hi & Hdi & Hmax & _).
    change (points !! i = Some pr) in Hpr.
    change (pointer_at points (Some i)) with (default nullptr (points !! i)).
    rewrite Hpr. change (default nullptr (Some pr)) with pr.
    assert (Hnn : pr <> nullptr).
    { destruct (Forall2_lookup_l _ _ _ _ _ H Hpr) as (pt & _ & Hpt).
      intros ->. discriminate Hpt. }
    split; [|split].
    + split; [intros E; contradiction|]. intros Hall. exfalso.
      rewrite Forall_forall in Hall.
      assert (Hin : (search ds).2 ∈ ds)
        by (eapply list_elem_of_lookup_2; exact Hdi).
      apply list_elem_of_fmap in Hin as (pt & E & Hpt).
      rewrite E, (Hall pt Hpt) in Hmax. discriminate.
    + intros E. contradiction.
    + intros _. split; [reflexivity|].
      eapply list_elem_of_lookup_2. exact Hpr.
  - destruct (search_none ds Hs) as [Hmax Hall].
    change (points !! 0%nat = Some pr) in Hpr.
    change (pointer_at points None) with nullptr.
    split; [|split].
    + split; [|reflexivity]. intros _. apply Forall_forall. intros pt Hpt.
      apply list_elem_of_lookup in Hpt as [j Hj].
      apply (Hall j). subst ds. rewrite list_lookup_fmap, Hj. reflexivity.
    + intros _. split; [exact Hmax|exact Hpr].
    + intros Hn. contradiction.
Qed.

(** A vector whose only point is [(FLT_MAX, 0)]. *)
Lemma null_iff_none_below_witness :
  holds Examples.far_store [Some 1%positive]
        [mkPoint F32.FLT_MAX F32.zero] /\
  [Some 1%positive] <> ([] : list pointer) /\
  SharedPos2d.NearestToOrigin Examples.far_store [Some 1%positive]
  = Returns (nullptr, F32.FLT_MAX) /\
  RawPoint.NearestToOrigin Examples.far_store [Some 1%positive]
  = Returns (Some 1%positive, F32.FLT_MAX).
Proof.
  assert (H : holds Examples.far_store [Some 1%positive]
                    [mkPoint F32.FLT_MAX F32.zero]) by (repeat constructor).
  assert (Hne : [Some 1%positive] <> ([] : list pointer)) by discriminate.
  split; [exact H|]. split; [exact Hne|].
  destruct (null_iff_none_below Examples.far_store [Some 1%positive]
              [mkPoint F32.FLT_MAX F32.zero] H Hne)
    as (ps & pr & d & Es & Er & Hnull & Hn & _).
  assert (E : ps = nullptr).
  { apply Hnull. repeat constructor. }
  destruct (Hn E) as [Ed Ep]. subst ps d. inversion Ep; subst pr.
  split; [exact Es|exact Er].
Defined.

(** ** Points that no search selects *)

Section Skipping.

Import F32 F32Order.

(** A candidate that is not below [FLT_MAX] leaves a state of the search
    as it is. *)
Lemma select_far {A : Type} (s c : A * float) :
  le s.2 FLT_MAX = true -> lt c.2 FLT_MAX = false -> select s c = s.
Proof.
  intros Hs Hc. unfold select. destruct (lt c.2 s.2) eqn:E; [|reflexivity].
  rewrite (lt_le_trans _ _ _ E Hs) in Hc. discriminate.
Qed.

Lemma select_le_max {A : Type} (s c : A * float) :
  le s.2 FLT_MAX = true -> le (select s c).2 FLT_MAX = true.
Proof.
  intros Hs. unfold select. destruct (lt c.2 s.2) eqn:E; [|exact Hs].
  apply lt_le. exact (lt_le_trans _ _ _ E Hs).
Qed.

Lemma nearest_loop_filter (h : store) (points : list pointer) :
  Forall (live h) points ->
  forall s : pointer * float,
    le s.2 FLT_MAX = true ->
    for_each (Core.nearest_body std_fabs h) points s
    = for_each (Core.nearest_body std_fabs h)
               (filter (fun p => below_max h p = true) points) s.
Proof.
  induction 1 as [|p points [pt Hp] _ IH]; intros s Hs; [reflexivity|].
  cbn [for_each]. rewrite (nearest_body_pointee std_fabs _ _ _ s Hp).
  cbn [mbind outcome_bind].
  destruct (lt (Core.distance std_fabs pt) FLT_MAX) eqn:E.
  - rewrite filter_cons_True by (unfold below_max; rewrite Hp; exact E).
    cbn [for_each]. rewrite (nearest_body_pointee std_fabs _ _ _ s Hp).
    cbn [mbind outcome_bind]. apply IH. apply select_le_max. exact Hs.
  - rewrite filter_cons_False
      by (unfold below_max; rewrite Hp, E; discriminate).
    rewrite select_far by assumption. apply IH. exact Hs.
Qed.

End Skipping.

(** X4.  A point at the distance [FLT_MAX] or beyond, as every point with a
    coordinate that is infinite or not a number is, is never selected by
    the [shared_ptr] search: the search returns what it returns without
    these points, and a pointer that it returns, if not null, designates a
    point with finite coordinates, with the distance of that point. *)
Theorem far_points_skipped (h : store) (points : list pointer) :
  Forall (live h) points ->
  SharedPoint.NearestToOrigin h points
  = SharedPoint.NearestToOrigin h
      (filter (fun p => below_max h p = true) points) /\
  forall (p : pointer) (d : float),
    SharedPoint.NearestToOrigin h points = Returns (p, d) ->
    p <> nullptr ->
    exists pt : Point,
      pointee h p = Some pt /\ d = Core.distance F32.std_fabs pt /\
      F32.is_finite (x pt) = true /\ F32.is_finite (y pt) = true.
Proof.
  intros Hl. split; [apply nearest_loop_filter; [exact Hl|reflexivity]|].
  intros p d E Hnn. apply live_holds in Hl as [pts H].
  pose proof (NearestToOrigin_shared_search F32.std_fabs h points pts H)
    as Es.
  cbn zeta in Es. unfold SharedPoint.NearestToOrigin in E.
  rewrite Es in E. clear Es.
  set (ds := map (Core.distance F32.std_fabs) pts) in *.
  assert (Ep : pointer_at points (search ds).1 = p) by congruence.
  assert (Ed : (search ds).2 = d) by congruence. clear E.
  pose proof (search_best ds) as [_ Hsel].
  destruct (search ds).1 as [i|];
    [|exfalso; apply Hnn; symmetry; exact Ep].
  destruct Hsel as (_ & Hdi & Hmax & _).
  change (default nullptr (points !! i) = p) in Ep.
  subst ds. rewrite list_lookup_fmap in Hdi.
  destruct (pts !! i) as [pt|] eqn:Hpt; [|discriminate Hdi].
  inversion Hdi as [Edist].
  destruct (Forall2_lookup_r _ _ _ _ _ H Hpt) as (q & Hq & Hqp).
  rewrite Hq in Ep. cbn in Ep. subst q.
  exists pt. split; [exact Hqp|]. rewrite Ed in Edist.
  split; [symmetry; exact Edist|].
  apply distance_lt_max_finite. rewrite Edist, <- Ed. exact Hmax.
Qed.

(** [[(FLT_MAX, 0), (0, FLT_MAX)]]: both points are skipped. *)
Lemma far_points_skipped_witness :
  Forall (live Examples.far_store) [Some 1%positive; Some 2%positive] /\
  SharedPoint.NearestToOrigin Examples.far_store
    [Some 1%positive; Some 2%positive]
  = SharedPoint.NearestToOrigin Examples.far_store [].
Proof.
  assert (H : Forall (live Examples.far_store)
                     [Some 1%positive; Some 2%positive]).
  { repeat constructor; eexists; reflexivity. }
  split; [exact H|].
  exact (proj1 (far_points_skipped Examples.far_store
                  [Some 1%positive; Some 2%positive] H)).
Defined.

(** ** The count and the search *)

(** X5.  The two results that [main] prints agree with each other: the count
    of the points near the origin is positive exactly when the
    [min_distance] of the search is below [0.5f]. *)
Theorem count_positive_iff_nearest_near (h : store)
    (points : list pointer) (pts : list Point) :
  holds h points pts ->
  exists (n : Z) (p : pointer) (d : float),
    SharedPoint.nearOrigin h points = Returns n /\
    RawPoint.nearOrigin h points = Returns n /\
    SharedPoint.NearestToOrigin h points = Returns (p, d) /\
    (points <> [] ->
     exists p', RawPoint.NearestToOrigin h points = Returns (p', d)) /\
    (0 < n <-> F32.lt d F32.half = true).
Proof.
  intros H. set (ds := map (Core.distance F32.std_fabs) pts).
  exists (count_below F32.half ds), (pointer_at points (search ds).1),
         (search ds).2.
  pose proof (count_loop F32.std_fabs h points pts H 0) as Ec.
  rewrite Z.add_0_l in Ec. fold ds in Ec.
  split; [exact Ec|].
  split; [unfold RawPoint.nearOrigin; rewrite count_indexed_range; exact Ec|].
  split; [exact (NearestToOrigin_shared_search F32.std_fabs _ _ _ H)|].
  split.
  { intros Hne.
    destruct (NearestToOrigin_raw_search h points pts H Hne) as (p' & _ & E).
    exists p'. exact E. }
  rewrite count_below_pos.
  destruct (search_least ds) as [Hlow Hm]. split.
  - intros (d & Hd & Hlt).
    assert (Hdmax : F32.lt d F32.FLT_MAX = true)
      by (eapply F32Order.lt_trans; [exact Hlt|reflexivity]).
    destruct Hm as [E|[Hin Hmax]].
    + rewrite <- E, (Hlow d Hd) in Hdmax. discriminate.
    + eapply F32Order.le_lt_trans; [|exact Hlt].
      apply not_lt_le.
      * apply Hlow. exact Hd.
      * eapply F32Order.lt_not_nan_l. exact Hlt.
      * eapply F32Order.lt_not_nan_l. exact Hmax.
  - intros Hlt. destruct Hm as [E|[Hin _]].
    + rewrite E in Hlt. discriminate.
    + exists (search ds).2. split; assumption.
Qed.

(** The scenario: two points are near, and the nearest is at [0.2f]. *)
Lemma count_positive_iff_nearest_near_witness :
  let pts :=
    [mkPoint (F32.literal 1 10) (F32.literal 1 10);
     mkPoint (F32.literal 9 10) (F32.literal 9 10);
     mkPoint (F32.opp (F32.literal 2 10)) (F32.literal 1 10)] in
  holds Examples.scenario_store Examples.scenario_points pts /\
  exists (n : Z) (p : pointer) (d : float),
    SharedPoint.nearOrigin Examples.scenario_store Examples.scenario_points
    = Returns n /\
    SharedPoint.NearestToOrigin Examples.scenario_store
      Examples.scenario_points = Returns (p, d) /\
    (0 < n <-> F32.lt d F32.half = true).
Proof.
  intros pts.
  assert (H : holds Examples.scenario_store Examples.scenario_points pts)
    by (repeat constructor).
  split; [exact H|].
  destruct (count_positive_iff_nearest_near Examples.scenario_store
              Examples.scenario_points pts H)
    as (n & p & d & En & _ & Es & _ & Hiff).
  exists n, p, d. split; [exact En|]. split; [exact Es|exact Hiff].
Defined.

(** ** The order of the points *)

Section Orders.

Import F32 F32Order.




End Orders.



(** ** The programs, with the contract of the library *)

Section Library.

Context {Engine : Type}.
Variable uniform : float -> float -> Engine -> float * Engine.
Variable rand : Engine -> Z * Engine.
Variable RAND_MAX : Z.

(** With a library that keeps its contract, every call of [RandomNumber]
    returns a number of [[-1, +1]], in either language mode. *)
Lemma library_draws (cpp11 : bool) (w : world Engine) :
  library_contract uniform rand RAND_MAX ->
  draws_in_range (Core.RandomNumber cpp11 uniform rand RAND_MAX) w.
Proof.
  intros (Huniform & Hrand & HMAX).
  unfold draws_in_range, Core.RandomNumber. destruct cpp11.
  - destruct (Huniform (F32.opp F32.one) F32.one (engine w)
                eq_refl eq_refl eq_refl) as (Hv & Hlo & Hhi).
    destruct (uniform (F32.opp F32.one) F32.one (engine w)) as [v e].
    cbn [fst] in *. eexists _, _. split; [reflexivity|].
    repeat split; assumption.
  - specialize (Hrand (engine w)).
    destruct (rand (engine w)) as [r e]. cbn [fst] in *.
    eexists _, _. split; [reflexivity|]. split; [|split; reflexivity].
    apply Rounding.scaled_rand_range; [exact Hrand|].
    unfold INT_MAX in HMAX.
    assert (2147483647 < 2 ^ 127) by reflexivity. lia.
Qed.

End Library.

Lemma example_contract :
  library_contract ExampleEngine.uniform ExampleEngine.rand
                   ExampleEngine.RAND_MAX.
Proof.
  split; [|split].
  - intros a b e Ha Hb Hlt. unfold ExampleEngine.uniform. cbn [fst].
    split; [exact Ha|].
    split; [|apply F32Order.lt_le; exact Hlt].
    apply F32Order.le_refl. exact (F32Order.lt_not_nan_l a b Hlt).
  - intros e. unfold ExampleEngine.rand, ExampleEngine.RAND_MAX.
    cbn [fst]. lia.
  - unfold ExampleEngine.RAND_MAX, INT_MAX. lia.
Qed.

(** X14.  A call of [RandomPoint] makes exactly one new object: it returns a
    pointer, never null, to an address that held no object, leaves every
    other object as it was, and writes one line, with the new point.  The
    coordinates of the point are the two numbers drawn, in the order in
    which the compiler evaluates the arguments, and lie in [[-1, +1]]. *)
Theorem RandomPoint_creates {Engine : Type} (cpp11 : bool)
    (uniform : float -> float -> Engine -> float * Engine)
    (rand : Engine -> Z * Engine) (RAND_MAX : Z) (left_to_right : bool)
    (w : world Engine) :
  library_contract uniform rand RAND_MAX ->
  exists (a : address) (first second : float) (w1 w2 w' : world Engine),
    let pt := if left_to_right then mkPoint first second
              else mkPoint second first in
    Core.RandomNumber cpp11 uniform rand RAND_MAX w = Returns (first, w1) /\
    Core.RandomNumber cpp11 uniform rand RAND_MAX w1 = Returns (second, w2) /\
    Core.RandomPoint cpp11 uniform rand RAND_MAX left_to_right w
    = Returns (Some a, w') /\
    heap w !! a = None /\
    heap w' = <[a := pt]> (heap w) /\
    engine w' = engine w2 /\
    cout w' = cout w ++ [NewPointCreated pt] /\
    generated pt.
Proof.
  intros Hlib.
  destruct (library_draws uniform rand RAND_MAX cpp11 w Hlib)
    as (v1 & [h1 e1 c1] & E1 & H1 & Hh1 & Hc1).
  cbn [heap cout] in Hh1, Hc1. subst h1 c1.
  destruct (library_draws uniform rand RAND_MAX cpp11
              (mkWorld (heap w) e1 (cout w)) Hlib)
    as (v2 & [h2 e2 c2] & E2 & H2 & Hh2 & Hc2).
  cbn [heap cout] in Hh2, Hc2. subst h2 c2.
  exists (fresh (dom (heap w))), v1, v2, (mkWorld (heap w) e1 (cout w)),
         (mkWorld (heap w) e2 (cout w)).
  eexists. cbn zeta.
  split; [exact E1|]. split; [exact E2|].
  split; [|split; [apply fresh_not_live|]].
  - unfold Core.RandomPoint.
    rewrite (prog_bind_returns _ _ _ _ _ E1).
    rewrite (prog_bind_returns _ _ _ _ _ E2).
    unfold mbind, prog_mbind, prog_bind, new, call, print, mret, prog_mret,
      prog_ret, deref.
    cbn [heap engine cout]. rewrite lookup_insert_eq. reflexivity.
  - cbn [heap engine cout]. split; [reflexivity|]. split; [reflexivity|].
    split; [reflexivity|]. destruct left_to_right; split; assumption.
Qed.

Lemma RandomPoint_creates_witness :
  library_contract ExampleEngine.uniform ExampleEngine.rand
                   ExampleEngine.RAND_MAX /\
  exists (a : address) (pt : Point) (w' : world unit),
    Core.RandomPoint false ExampleEngine.uniform ExampleEngine.rand
      ExampleEngine.RAND_MAX true ExampleEngine.start
    = Returns (Some a, w') /\
    heap w' = <[a := pt]> (heap ExampleEngine.start) /\ generated pt.
Proof.
  split; [exact example_contract|].
  destruct (RandomPoint_creates false ExampleEngine.uniform
              ExampleEngine.rand ExampleEngine.RAND_MAX true
              ExampleEngine.start example_contract)
    as (a & v1 & v2 & w1 & w2 & w' & _ & _ & E & _ & Hh & _ & _ & Hg).
  exists a, (mkPoint v1 v2), w'.
  split; [exact E|]. split; [exact Hh|exact Hg].
Defined.

(** X15.  The loop of [main] that fills the vector, run [n] times: the vector
    then holds [n] pointers, pairwise distinct and none null, to [n] new
    objects, the points that the engine yields one after the other, with
    coordinates in [[-1, +1]]; the objects that existed are untouched, and
    one line has been written for each new point, in the order of the
    vector. *)
Theorem fill_creates {Engine : Type} (cpp11 : bool)
    (uniform : float -> float -> Engine -> float * Engine)
    (rand : Engine -> Z * Engine) (RAND_MAX : Z) (left_to_right : bool)
    (n : nat) (w : world Engine) :
  library_contract uniform rand RAND_MAX ->
  let drawn := next_points cpp11 uniform rand RAND_MAX left_to_right n
                 (engine w) in
  exists (points : list pointer) (w' : world Engine),
    Core.fill cpp11 uniform rand RAND_MAX left_to_right n w
    = Returns (points, w') /\
    length points = n /\ engine w' = drawn.2 /\
    holds (heap w') points drawn.1 /\ Forall generated drawn.1 /\
    NoDup points /\
    cout w' = cout w ++ map NewPointCreated drawn.1 /\
    (forall p, p ∈ points -> pointee (heap w) p = None) /\
    (forall p, p ∉ points -> pointee (heap w') p = pointee (heap w) p).
Proof.
  intros Hlib drawn.
  destruct (fill_spec cpp11 uniform rand RAND_MAX left_to_right
              (fun w => library_draws uniform rand RAND_MAX cpp11 w Hlib)
              n w)
    as (points & w' & E & Hf & He & Hlen).
  exists points, w'. split; [exact E|]. split; [exact Hlen|].
  split; [exact He|exact Hf].
Qed.

Lemma fill_creates_witness :
  library_contract ExampleEngine.uniform ExampleEngine.rand
                   ExampleEngine.RAND_MAX /\
  exists (points : list pointer) (w' : world unit),
    Core.fill true ExampleEngine.uniform ExampleEngine.rand
      ExampleEngine.RAND_MAX true 3 ExampleEngine.start
    = Returns (points, w') /\
    length points = 3%nat /\ NoDup points.
Proof.
  split; [exact example_contract|].
  destruct (fill_creates true ExampleEngine.uniform ExampleEngine.rand
              ExampleEngine.RAND_MAX true 3 ExampleEngine.start
              example_contract)
    as (points & w' & E & Hlen & _ & _ & _ & Hnd & _).
  exists points, w'. split; [exact E|]. split; [exact Hlen|exact Hnd].
Defined.

(** X17.  In either language mode [main] of a raw-pointer program returns
    [EXIT_SUCCESS] without ever dereferencing a null or dangling pointer,
    and leaves the free store as it found it: each of the hundred objects
    is deleted, once.  It has written the hundred points, the number of
    them that are near the origin, and one of them that no other is
    strictly nearer than, with its distance. *)
Theorem main_raw_returns {Engine : Type} (cpp11 : bool)
    (uniform : float -> float -> Engine -> float * Engine)
    (rand : Engine -> Z * Engine) (RAND_MAX : Z) (left_to_right : bool)
    (w : world Engine) :
  library_contract uniform rand RAND_MAX ->
  let pts := (next_points cpp11 uniform rand RAND_MAX left_to_right 100
                (engine w)).1 in
  exists (w' : world Engine) (pt : Point),
    RawPoint.main cpp11 uniform rand RAND_MAX left_to_right w
    = Returns (EXIT_SUCCESS, w') /\
    heap w' = heap w /\
    length pts = 100%nat /\ Forall generated pts /\ pt ∈ pts /\
    (forall q, q ∈ pts ->
       F32.lt (Core.distance F32.std_fabs q) (Core.distance F32.std_fabs pt)
       = false) /\
    cout w'
    = cout w ++ map NewPointCreated pts
      ++ [PointsNearOrigin (Spec.count_near_origin pts F32.half) 100;
          NearestPointWas pt (Core.distance F32.std_fabs pt);
          CompiledUsing cpp11].
Proof.
  intros Hlib pts.
  destruct (main_runs cpp11 uniform rand RAND_MAX left_to_right
              (fun w => library_draws uniform rand RAND_MAX cpp11 w Hlib) w)
    as (wr & _ & pt & Er & _ & Hh & _ & _ & _ & Hlen & Hgen & Hin & Hlow
        & Hc).
  fold pts in Hlen, Hgen, Hin, Hlow, Hc.
  exists wr, pt. rewrite count_near_origin_below.
  split; [exact Er|]. split; [exact Hh|]. split; [exact Hlen|].
  split; [exact Hgen|].
  split; [eapply list_elem_of_lookup_2; exact Hin|].
  split; [exact Hlow|exact Hc].
Qed.

Lemma main_raw_returns_witness :
  library_contract ExampleEngine.uniform ExampleEngine.rand
                   ExampleEngine.RAND_MAX /\
  exists w' : world unit,
    RawPoint.main false ExampleEngine.uniform ExampleEngine.rand
      ExampleEngine.RAND_MAX true ExampleEngine.start
    = Returns (EXIT_SUCCESS, w') /\
    heap w' = ∅.
Proof.
  split; [exact example_contract|].
  destruct (main_raw_returns false ExampleEngine.uniform ExampleEngine.rand
              ExampleEngine.RAND_MAX true ExampleEngine.start
              example_contract)
    as (w' & _ & E & Hh & _).
  exists w'. split; [exact E|exact Hh].
Defined.

(** ** The loop that tidies up *)

Section TidyUp.

Context {Engine : Type}.

(** An indexed loop of statements visits the elements in order. *)
Lemma for_each__indexed (body : pointer -> prog Engine unit)
    (points : list pointer) :
  forall (rest : list pointer) (k : nat) (w : world Engine),
    (forall i p, rest !! i = Some p -> points !! (k + i)%nat = Some p) ->
    for_each_ (fun i => point ← call (fun _ => subscript points i);
                        body point)
              (seq k (length rest)) w
    = for_each_ body rest w.
Proof.
  induction rest as [|p rest IH]; intros k w Hk; [reflexivity|].
  assert (Hpk : points !! k = Some p).
  { rewrite <- (Nat.add_0_r k). apply Hk. reflexivity. }
  cbn [length seq for_each_].
  unfold mbind, prog_mbind, prog_bind, call.
  rewrite (subscript_lookup _ _ _ Hpk).
  destruct (body p w) as [[[] w1]| |]; try reflexivity.
  apply IH. intros i q Hq.
  replace (S k + i)%nat with (k + S i)%nat by lia. apply Hk. exact Hq.
Qed.

Lemma tidy_up_elements (points : list pointer) (w : world Engine) :
  tidy_up points w = for_each_ delete_ points w.
Proof.
  unfold tidy_up. apply (for_each__indexed delete_ points points 0).
  intros i p Hp. exact Hp.
Qed.

Lemma live_delete (h : store) (a : address) (p : pointer) :
  live (delete a h) p <-> p <> Some a /\ live h p.
Proof.
  unfold live. rewrite pointee_delete.
  destruct (decide (p = Some a)) as [->|Hne].
  - split; [intros [pt Hpt]; discriminate|]. intros [Hne _]. contradiction.
  - split; [intros H; split; assumption|]. intros [_ H]. exact H.
Qed.

Lemma deletable_cons_null (h : store) (rest : list pointer) :
  deletable h (nullptr :: rest) <-> deletable h rest.
Proof.
  unfold deletable.
  rewrite filter_cons_False by (intros H; apply H; reflexivity).
  rewrite Forall_cons. split; [intros (Hnd & _ & Hl); split; assumption|].
  intros (Hnd & Hl). split; [exact Hnd|]. split; [left; reflexivity|exact Hl].
Qed.

Lemma deletable_cons_live (h : store) (a : address) (rest : list pointer) :
  deletable h (Some a :: rest)
  <-> is_Some (h !! a) /\ deletable (delete a h) rest.
Proof.
  unfold deletable. rewrite filter_cons_True by discriminate.
  rewrite NoDup_cons, Forall_cons, !Forall_forall. split.
  - intros ((Hnin & Hnd) & Ha & Hl). destruct Ha as [Ha|Ha]; [discriminate|].
    split; [exact Ha|]. split; [exact Hnd|]. intros p Hp.
    destruct (Hl p Hp) as [->|Hlp]; [left; reflexivity|]. right.
    apply live_delete. split; [|exact Hlp]. intros ->. apply Hnin.
    apply list_elem_of_filter. split; [discriminate|exact Hp].
  - intros (Ha & Hnd & Hl). split; [split; [|exact Hnd]|split].
    + intros Hin. apply list_elem_of_filter in Hin as [_ Hin].
      destruct (Hl _ Hin) as [E|Hlp]; [discriminate|].
      apply live_delete in Hlp as [Hne _]. apply Hne. reflexivity.
    + right. exact Ha.
    + intros p Hp. destruct (Hl p Hp) as [->|Hlp]; [left; reflexivity|].
      right. apply live_delete in Hlp as [_ Hlp]. exact Hlp.
Qed.

Lemma deletable_dec (h : store) (rest : list pointer) :
  deletable h rest \/ ~ deletable h rest.
Proof.
  unfold deletable.
  destruct (decide (NoDup (filter (fun p => p <> nullptr) rest)));
    [|right; tauto].
  destruct (decide (Forall (fun p => p = nullptr \/ live h p) rest));
    [left|right]; tauto.
Qed.

Lemma delete_all (rest : list pointer) :
  forall w : world Engine,
    (deletable (heap w) rest ->
     exists w' : world Engine,
       for_each_ delete_ rest w = Returns (tt, w') /\
       cout w' = cout w /\ engine w' = engine w /\
       forall p, pointee (heap w') p
                 = if decide (p ∈ rest) then None else pointee (heap w) p) /\
    (~ deletable (heap w) rest -> for_each_ delete_ rest w = Undefined).
Proof.
  induction rest as [|p rest IH]; intros w.
  - split.
    + intros _. exists w. repeat split.
    + intros H. exfalso. apply H. split; constructor.
  - destruct p as [a|].
    + destruct (heap w !! a) as [pt|] eqn:Ha.
      * set (w1 := mkWorld (delete a (heap w)) (engine w) (cout w)).
        assert (E : for_each_ delete_ (@cons pointer (Some a) rest) w
                    = for_each_ delete_ rest w1).
        { cbn [for_each_]. unfold mbind, prog_mbind, prog_bind, delete_.
          rewrite Ha. reflexivity. }
        rewrite E. destruct (IH w1) as [IH1 IH2]. split.
        -- intros Hd. apply (proj1 (deletable_cons_live _ _ _)) in Hd.
           destruct Hd as [_ Hd].
           destruct (IH1 Hd) as (w' & E' & Hc & He & Hh).
           exists w'. split; [exact E'|]. split; [exact Hc|].
           split; [exact He|]. intros p. rewrite Hh. cbn [heap w1].
           rewrite pointee_delete.
           destruct (decide (p ∈ rest)) as [Hin|Hnin].
           ++ rewrite decide_True by (right; exact Hin). reflexivity.
           ++ destruct (decide (p = Some a)) as [->|Hne].
              ** rewrite decide_True by left. reflexivity.
              ** rewrite decide_False; [reflexivity|].
                 intros Hin. apply elem_of_cons in Hin as [?|?];
                   contradiction.
        -- intros Hn. apply IH2. intros Hd. apply Hn.
           apply (proj2 (deletable_cons_live _ _ _)).
           split; [eauto|exact Hd].
      * split.
        -- intros Hd. apply (proj1 (deletable_cons_live _ _ _)) in Hd.
           destruct Hd as [[pt Hpt] _]. congruence.
        -- intros _. cbn [for_each_].
           unfold mbind, prog_mbind, prog_bind, delete_.
           rewrite Ha. reflexivity.
    + assert (E : for_each_ delete_ (@cons pointer None rest) w
                  = for_each_ delete_ rest w) by reflexivity.
      rewrite E. destruct (IH w) as [IH1 IH2]. split.
      * intros Hd. apply (proj1 (deletable_cons_null _ _)) in Hd.
        destruct (IH1 Hd) as (w' & E' & Hc & He & Hh).
        exists w'. split; [exact E'|]. split; [exact Hc|].
        split; [exact He|]. intros p. rewrite Hh.
        destruct (decide (p ∈ rest)) as [Hin|Hnin].
        -- rewrite decide_True by (right; exact Hin). reflexivity.
        -- destruct (decide (p = None)) as [->|Hne].
           ++ destruct (decide (None ∈ None :: rest)); reflexivity.
           ++ rewrite decide_False; [reflexivity|].
              intros Hin. apply elem_of_cons in Hin as [?|?];
                contradiction.
      * intros Hn. apply IH2. intros Hd. apply Hn.
        apply (proj2 (deletable_cons_null _ _)). exact Hd.
Qed.

End TidyUp.

(** X16.  The loop that tidies up in the raw-pointer programs has a defined
    behaviour exactly when no object is twice in the vector and every
    element is null or points to a live object: a second [delete] of the
    same object has none, a [delete] of the null pointer does nothing.
    The loop then ends the objects of the vector, and only them, and
    writes nothing. *)
Theorem tidy_up_defined_iff {Engine : Type} (points : list pointer)
    (w : world Engine) :
  ((exists w', tidy_up points w = Returns (tt, w'))
   <-> deletable (heap w) points) /\
  (forall w', tidy_up points w = Returns (tt, w') ->
     cout w' = cout w /\ engine w' = engine w /\
     forall p, pointee (heap w') p
               = if decide (p ∈ points) then None else pointee (heap w) p) /\
  ((forall w', tidy_up points w <> Returns (tt, w')) ->
   tidy_up points w = Undefined).
Proof.
  rewrite tidy_up_elements.
  destruct (delete_all points w) as [Hyes Hno].
  destruct (deletable_dec (heap w) points) as [Hd|Hn].
  - destruct (Hyes Hd) as (w' & E & Hc & He & Hh).
    split; [|split].
    + split; [intros _; exact Hd|]. intros _. exists w'. exact E.
    + intros w'' E'. rewrite E in E'. inversion E'; subst w''.
      split; [exact Hc|]. split; [exact He|exact Hh].
    + intros Hnot. exfalso. exact (Hnot w' E).
  - pose proof (Hno Hn) as E. split; [|split].
    + split; [|intros Hd; contradiction].
      intros [w' E']. rewrite E in E'. discriminate.
    + intros w' E'. rewrite E in E'. discriminate.
    + intros _. exact E.
Qed.

(** ** The random number source before C++11 *)

Module Endpoints.
Import F32 Round Rounding.

Lemma of_Z_finite (n : Z) :
  0 < n < 2 ^ 127 -> exists m e, of_Z n = S754_finite false m e.
Proof.
  intros Hn.
  pose proof (of_Z_abs n ltac:(lia)) as Habs.
  assert (Hlo : le one (of_Z n) = true).
  { rewrite <- Habs, of_Z_pos by lia.
    apply (binary_round_ge false _ 0 (Z.to_pos (2 ^ 23)) (-23));
      [reflexivity|].
    rewrite Z2Pos.id by lia. apply (vle_base (-23)); [lia|lia|].
    change (Zpos (Z.to_pos (2 ^ 23)) * 2 ^ (-23 - -23)) with (2 ^ 23).
    change (2 ^ (0 - -23)) with (2 ^ 23). lia. }
  assert (Hhi : le (of_Z n) (pow2_float 128) = true).
  { rewrite <- Habs, of_Z_pos by lia.
    apply binary_round_le; [reflexivity|].
    rewrite Z2Pos.id by lia. apply (vle_base 0); [lia|lia|].
    change (Zpos (Z.to_pos (2 ^ 23)) * 2 ^ (128 - 24 - 0)) with (2 ^ 127).
    rewrite Z.sub_diag, Z.pow_0_r. lia. }
  destruct (of_Z n) as [[]|[]| |[] m e]; try discriminate. eauto.
Qed.

(** The quotient of a finite number by itself is one, exactly. *)
Lemma div_self (s : bool) (m : positive) (e : Z) :
  div (S754_finite s m e) (S754_finite s m e) = one.
Proof.
  unfold div, SFdiv. rewrite SFdiv_core_spec.
  replace (Zdigits2 (Zpos m) + e - (Zdigits2 (Zpos m) + e)) with 0 by lia.
  rewrite Z.sub_diag.
  change (Z.min (fexp prec emax 0) 0) with (-24).
  change (0 - -24) with 24.
  rewrite Z.mul_comm, Z.div_mul, Z.mod_mul by lia.
  rewrite new_location_zero. destruct s; reflexivity.
Qed.

End Endpoints.

(** X12.  Before C++11 [RandomNumber] reaches both ends of [[-1, +1]]: it
    returns [-1] exactly when [rand()] returns [0], and [+1] exactly when
    [rand()] returns [RAND_MAX]. *)
Theorem RandomNumber_endpoints {Engine : Type}
    (uniform : float -> float -> Engine -> float * Engine)
    (rand : Engine -> Z * Engine) (RAND_MAX : Z) (w : world Engine) :
  0 < RAND_MAX <= INT_MAX ->
  ((rand (engine w)).1 = 0 ->
   exists w', RawPoint.RandomNumber false uniform rand RAND_MAX w
              = Returns (F32.opp F32.one, w')) /\
  ((rand (engine w)).1 = RAND_MAX ->
   exists w', RawPoint.RandomNumber false uniform rand RAND_MAX w
              = Returns (F32.one, w')).
Proof.
  intros HM.
  destruct (Endpoints.of_Z_finite RAND_MAX) as (m & e & EM).
  { unfold INT_MAX in HM.
    assert (2147483647 < 2 ^ 127) by reflexivity. lia. }
  unfold RawPoint.RandomNumber, Core.RandomNumber.
  destruct (rand (engine w)) as [r g]. cbn [fst].
  split; intros ->; eexists; rewrite EM.
  - reflexivity.
  - rewrite Endpoints.div_self. reflexivity.
Qed.

(** A [rand()] that returns [0], and one that returns [RAND_MAX]. *)
Lemma RandomNumber_endpoints_witness :
  0 < 32767 <= INT_MAX /\
  (exists w', RawPoint.RandomNumber false ExampleEngine.uniform
                (fun e : unit => (0, e)) 32767 ExampleEngine.start
              = Returns (F32.opp F32.one, w')) /\
  (exists w', RawPoint.RandomNumber false ExampleEngine.uniform
                (fun e : unit => (32767, e)) 32767 ExampleEngine.start
              = Returns (F32.one, w')).
Proof.
  assert (HM : 0 < 32767 <= INT_MAX) by (unfold INT_MAX; lia).
  split; [exact HM|]. split.
  - exact (proj1 (RandomNumber_endpoints ExampleEngine.uniform
                    (fun e : unit => (0, e)) 32767 ExampleEngine.start HM)
             eq_refl).
  - exact (proj2 (RandomNumber_endpoints ExampleEngine.uniform
                    (fun e : unit => (32767, e)) 32767 ExampleEngine.start
                    HM)
             eq_refl).
Defined.

Section Seeding.

Context {Generator : Type}.
Variable srand : Z -> Generator.
Variable time_NULL : Z.
Variable uniform : float -> float -> Generator -> float * Generator.
Variable rand : Generator -> Z * Generator.
Variable RAND_MAX : Z.

Lemma seeded_call (firstrun : bool) (h : store) (c : list event)
    (g : Generator) :
  let g1 := if firstrun then srand (time_NULL mod 2 ^ 32) else g in
  exists (v : float) (g' : Generator),
    Seeded.RandomNumber srand time_NULL rand RAND_MAX
      (mkWorld h (firstrun, g) c)
    = Returns (v, mkWorld h (false, g') c) /\
    Core.RandomNumber false uniform rand RAND_MAX (mkWorld h g1 c)
    = Returns (v, mkWorld h g' c).
Proof.
  unfold Seeded.RandomNumber, Core.RandomNumber. cbn [engine heap cout].
  destruct firstrun; cbn zeta.
  - destruct (rand (srand (time_NULL mod 2 ^ 32))) as [r g'].
    eexists _, _. split; reflexivity.
  - destruct (rand g) as [r g']. eexists _, _. split; reflexivity.
Qed.

(** Once [firstrun] is false, a call is a call of [rand()] on the state of
    the generator, and [firstrun] stays false. *)
Lemma seeded_later (n : nat) :
  forall (vs : list float) (h : store) (c : list event) (g : Generator),
    exists (vs' : list float) (g' : Generator),
      repeat_ n (fun vs => v ← Seeded.RandomNumber srand time_NULL rand
                                 RAND_MAX;
                           mret (vs ++ [v])) vs
              (mkWorld h (false, g) c)
      = Returns (vs', mkWorld h (false, g') c) /\
      repeat_ n (fun vs => v ← Core.RandomNumber false uniform rand RAND_MAX;
                           mret (vs ++ [v])) vs
              (mkWorld h g c)
      = Returns (vs', mkWorld h g' c) /\
      length vs' = (length vs + n)%nat.
Proof.
  induction n as [|n IH]; intros vs h c g.
  - exists vs, g. repeat split. cbn. lia.
  - destruct (seeded_call false h c g) as (v & g1 & Es & Ec). cbn zeta in Ec.
    destruct (IH (vs ++ [v]) h c g1) as (vs' & g' & E1 & E2 & Hlen).
    exists vs', g'. split; [|split].
    + cbn [repeat_].
      rewrite (prog_bind_returns _ _ _ (mkWorld h (false, g1) c)
                 (vs ++ [v])); [exact E1|].
      rewrite (prog_bind_returns _ _ _ _ _ Es). reflexivity.
    + cbn [repeat_].
      rewrite (prog_bind_returns _ _ _ (mkWorld h g1 c) (vs ++ [v]));
        [exact E2|].
      rewrite (prog_bind_returns _ _ _ _ _ Ec). reflexivity.
    + rewrite Hlen, length_app. cbn. lia.
Qed.

End Seeding.

(** X13.  Before C++11 the generator is seeded once, by the first call of
    [RandomNumber], whatever state it was in: any number of successive
    calls returns the numbers that [rand()] yields from the state that
    [srand(time(NULL))] leaves, one after the other, and leaves [firstrun]
    false.  The calls change neither the free store nor the output. *)
Theorem seeded_once {Generator : Type} (srand : Z -> Generator)
    (time_NULL : Z)
    (uniform : float -> float -> Generator -> float * Generator)
    (rand : Generator -> Z * Generator) (RAND_MAX : Z) (n : nat)
    (h : store) (c : list event) (g0 : Generator) :
  exists (vs : list float) (g : Generator),
    successive (S n) (Seeded.RandomNumber srand time_NULL rand RAND_MAX)
               (mkWorld h (true, g0) c)
    = Returns (vs, mkWorld h (false, g) c) /\
    successive (S n) (Core.RandomNumber false uniform rand RAND_MAX)
               (mkWorld h (srand (time_NULL mod 2 ^ 32)) c)
    = Returns (vs, mkWorld h g c) /\
    length vs = S n.
Proof.
  destruct (seeded_call srand time_NULL uniform rand RAND_MAX true h c g0)
    as (v & g1 & Es & Ec).
  cbn zeta in Ec.
  destruct (seeded_later srand time_NULL uniform rand RAND_MAX n [v] h c g1)
    as (vs & g & E1 & E2 & Hlen).
  exists vs, g. unfold successive. split; [|split].
  - cbn [repeat_].
    rewrite (prog_bind_returns _ _ _ (mkWorld h (false, g1) c) [v]);
      [exact E1|].
    rewrite (prog_bind_returns _ _ _ _ _ Es). reflexivity.
  - cbn [repeat_].
    rewrite (prog_bind_returns _ _ _ (mkWorld h g1 c) [v]); [exact E2|].
    rewrite (prog_bind_returns _ _ _ _ _ Ec). reflexivity.
  - rewrite Hlen. cbn. lia.
Qed.

(** ** The distance as a norm *)

Section Sums.

Import F32 F32Order Round Rounding.

Lemma float_add_comm (a b : float) : add a b = add b a.
Proof.
  unfold add.
  destruct a as [[]|[]| |sa ma ea], b as [[]|[]| |sb mb eb];
    try reflexivity.
  unfold SFadd. rewrite (Z.min_comm eb ea), Z.add_comm. reflexivity.
Qed.

Lemma abs_unsigned (v : float) : unsigned v = true -> SFabs v = v.
Proof.
  destruct v as [[]|[]| |[] m e]; intros; try discriminate; reflexivity.
Qed.

Lemma le_zero_unsigned (v : float) :
  unsigned v = true -> is_nan v = false -> le zero v = true.
Proof.
  destruct v as [[]|[]| |[] m e]; intros; try discriminate; reflexivity.
Qed.

(** A sum of two magnitudes is at least the first one. *)
Lemma add_abs_ge (a b : float) :
  valid a = true -> is_nan (add (SFabs a) (SFabs b)) = false ->
  le (SFabs a) (add (SFabs a) (SFabs b)) = true.
Proof.
  intros Hv Hn. rewrite add_abs_nan in Hn.
  apply orb_false_elim in Hn as [Ha Hb].
  destruct a as [sa|sa| |sa ma ea]; try discriminate Ha.
  - apply le_zero_unsigned; [apply add_abs_unsigned|].
    rewrite add_abs_nan, Hb. reflexivity.
  - destruct b as [sb|sb| |sb mb eb]; try discriminate Hb; reflexivity.
  - assert (Hva : valid (S754_finite false ma ea) = true).
    { apply valid_finite. apply valid_finite in Hv. exact Hv. }
    destruct b as [sb|sb| |sb mb eb]; try discriminate Hb.
    + change (le (S754_finite false ma ea) (S754_finite false ma ea) = true).
      apply le_refl. reflexivity.
    + reflexivity.
    + cbn [SFabs].
      destruct (add_finite ma mb ea eb) as (p & Hp & E). cbn zeta in Hp.
      rewrite E.
      rewrite <- (abs_unsigned (binary_round prec emax false p _))
        by exact (proj1 (proj2 (binary_round_sign false p _))).
      apply binary_round_ge; [exact Hva|].
      apply (vle_base (Z.min ea eb)); [lia|lia|].
      rewrite Hp, Z.sub_diag, Z.pow_0_r, Z.mul_1_r.
      pose proof (Z.pow_pos_nonneg 2 (eb - Z.min ea eb)). nia.
Qed.

Lemma le_zero_eq (v : float) :
  unsigned v = true -> le v zero = true -> eq v zero = true.
Proof.
  destruct v as [[]|[]| |[] m e]; intros; try discriminate; reflexivity.
Qed.

Lemma eq_zero_abs (v : float) : eq (SFabs v) zero = eq v zero.
Proof. destruct v as [[]|[]| |[] m e]; reflexivity. Qed.

Lemma eq_zero_is (v : float) :
  eq v zero = true <-> exists s, v = S754_zero s.
Proof.
  split.
  - destruct v as [s|[]| |[] m e]; intros; try discriminate. eauto.
  - intros [[] ->]; reflexivity.
Qed.

Lemma abs_abs_unsigned (v : float) : unsigned (SFabs v) = true.
Proof. destruct v; reflexivity. Qed.

Lemma distance_dominates (pt : Point) :
  valid (x pt) = true -> valid (y pt) = true ->
  is_nan (Core.distance std_fabs pt) = false ->
  le (std_fabs (x pt)) (Core.distance std_fabs pt) = true /\
  le (std_fabs (y pt)) (Core.distance std_fabs pt) = true.
Proof.
  unfold Core.distance, std_fabs. intros Hx Hy Hn. split.
  - apply add_abs_ge; assumption.
  - rewrite float_add_comm. rewrite float_add_comm in Hn.
    apply add_abs_ge; assumption.
Qed.

Lemma distance_zero_iff (pt : Point) :
  valid (x pt) = true -> valid (y pt) = true ->
  eq (Core.distance std_fabs pt) zero = true
  <-> eq (x pt) zero = true /\ eq (y pt) zero = true.
Proof.
  intros Hx Hy. split.
  - intros Hz.
    assert (Hn : is_nan (Core.distance std_fabs pt) = false).
    { destruct (Core.distance std_fabs pt); try discriminate; reflexivity. }
    destruct (distance_dominates pt Hx Hy Hn) as [Hdx Hdy].
    assert (Hd0 : le (Core.distance std_fabs pt) zero = true).
    { revert Hz. unfold eq, le, SFeqb, SFleb.
      destruct (SFcompare _ _) as [[]|]; intros; try discriminate;
        reflexivity. }
    split.
    + rewrite <- eq_zero_abs. apply le_zero_eq; [apply abs_abs_unsigned|].
      eapply le_trans; [exact Hdx|exact Hd0].
    + rewrite <- eq_zero_abs. apply le_zero_eq; [apply abs_abs_unsigned|].
      eapply le_trans; [exact Hdy|exact Hd0].
  - intros [Ex Ey]. apply eq_zero_is in Ex as [sx Ex].
    apply eq_zero_is in Ey as [sy Ey].
    unfold Core.distance, std_fabs. rewrite Ex, Ey. reflexivity.
Qed.

(** A point with a coordinate that is infinite or not a number is at an
    infinite distance, or at none. *)
Lemma distance_not_finite (pt : Point) :
  is_finite (x pt) && is_finite (y pt) = false ->
  Core.distance std_fabs pt = infinity \/ Core.distance std_fabs pt = S754_nan.
Proof.
  destruct pt as [vx vy]. unfold Core.distance, std_fabs. cbn [x y].
  destruct vx as [[]|[]| |[] mx ex], vy as [[]|[]| |[] my ey];
    intros H; try discriminate H; (left; reflexivity) || (right; reflexivity).
Qed.

End Sums.

(** X8.  [ManhattanToOrigin] is zero at the origin and nowhere else, and it is
    never smaller than the magnitude of a coordinate: the rounding of the
    sum does not lose a term. *)
Theorem ManhattanToOrigin_definite (h : store) (point : pointer)
    (pt : Point) :
  pointee h point = Some pt ->
  F32.valid (x pt) = true -> F32.valid (y pt) = true ->
  exists d : float,
    RawPoint.ManhattanToOrigin h point = Returns d /\
    SharedPos2d.ManhattanToOrigin h point = Returns d /\
    (F32.eq d F32.zero = true
     <-> F32.eq (x pt) F32.zero = true /\ F32.eq (y pt) F32.zero = true) /\
    (F32.is_nan d = false ->
     F32.le (F32.std_fabs (x pt)) d = true /\
     F32.le (F32.std_fabs (y pt)) d = true).
Proof.
  intros Hp Hx Hy. exists (Core.distance F32.std_fabs pt).
  split; [exact (Manhattan_pointee F32.std_fabs h point pt Hp)|].
  split; [exact (Manhattan_pointee F32.std_abs h point pt Hp)|].
  split; [exact (distance_zero_iff pt Hx Hy)|].
  exact (distance_dominates pt Hx Hy).
Qed.

(** The point [(-0.2, 0.1)] of the scenario is not at the origin. *)
Lemma ManhattanToOrigin_definite_witness :
  pointee Examples.scenario_store (Some 3%positive)
  = Some (mkPoint (F32.opp (F32.literal 2 10)) (F32.literal 1 10)) /\
  F32.valid (F32.opp (F32.literal 2 10)) = true /\
  F32.valid (F32.literal 1 10) = true /\
  exists d : float,
    RawPoint.ManhattanToOrigin Examples.scenario_store (Some 3%positive)
    = Returns d /\
    (F32.eq d F32.zero = true
     <-> F32.eq (F32.opp (F32.literal 2 10)) F32.zero = true /\
         F32.eq (F32.literal 1 10) F32.zero = true).
Proof.
  split; [reflexivity|]. split; [reflexivity|]. split; [reflexivity|].
  destruct (ManhattanToOrigin_definite Examples.scenario_store
              (Some 3%positive)
              (mkPoint (F32.opp (F32.literal 2 10)) (F32.literal 1 10))
              eq_refl eq_refl eq_refl)
    as (d & E & _ & Hz & _).
  exists d. split; [exact E|exact Hz].
Defined.

(** X9.  A point with a coordinate that is infinite or not a number is never
    near the origin, so the count leaves it out, and it is at no distance
    below [FLT_MAX], so no search selects it over another point: its
    distance is [+infinity], or not a number. *)
Theorem not_finite_not_near (h : store) (point : pointer) (pt : Point) :
  pointee h point = Some pt ->
  F32.is_finite (x pt) && F32.is_finite (y pt) = false ->
  exists d : float,
    RawPoint.ManhattanToOrigin h point = Returns d /\
    SharedPos2d.ManhattanToOrigin h point = Returns d /\
    (d = F32.infinity \/ d = S754_nan) /\
    RawPoint.PointIsNearOrigin h point = Returns false /\
    SharedPos2d.Pos2dIsNearOrigin h point = Returns false /\
    (forall t : float, F32.is_finite t = true -> F32.lt d t = false).
Proof.
  intros Hp Hnf. exists (Core.distance F32.std_fabs pt).
  split; [exact (Manhattan_pointee F32.std_fabs h point pt Hp)|].
  split; [exact (Manhattan_pointee F32.std_abs h point pt Hp)|].
  pose proof (distance_not_finite pt Hnf) as Hd.
  split; [exact Hd|].
  assert (Hlt : forall t, F32.is_finite t = true ->
                F32.lt (Core.distance F32.std_fabs pt) t = false).
  { intros t Ht.
    destruct Hd as [-> | ->], t as [[]|[]| |[] m e]; try discriminate Ht;
      reflexivity. }
  split; [|split; [|exact Hlt]].
  - unfold RawPoint.PointIsNearOrigin.
    rewrite (IsNearOrigin_pointee F32.std_fabs h point pt Hp).
    rewrite (Hlt F32.half eq_refl). reflexivity.
  - unfold SharedPos2d.Pos2dIsNearOrigin.
    rewrite (IsNearOrigin_pointee F32.std_abs h point pt Hp).
    change (Core.distance F32.std_abs pt)
      with (Core.distance F32.std_fabs pt).
    rewrite (Hlt F32.half eq_refl). reflexivity.
Qed.

(** The point [(FLT_MAX, NaN)]. *)
Lemma not_finite_not_near_witness :
  let h : store := {[ 1%positive := mkPoint F32.FLT_MAX S754_nan ]} in
  pointee h (Some 1%positive) = Some (mkPoint F32.FLT_MAX S754_nan) /\
  F32.is_finite F32.FLT_MAX && F32.is_finite S754_nan = false /\
  RawPoint.PointIsNearOrigin h (Some 1%positive) = Returns false.
Proof.
  intros h. split; [reflexivity|]. split; [reflexivity|].
  destruct (not_finite_not_near h (Some 1%positive)
              (mkPoint F32.FLT_MAX S754_nan) eq_refl eq_refl)
    as (d & _ & _ & _ & E & _).
  exact E.
Defined.

(** X10.  The distance of a point that [RandomPoint] can make, with coordinates
    in [[-1, +1]], is a number between zero and two: the search of [main]
    always finds a point below its initial [FLT_MAX]. *)
Theorem ManhattanToOrigin_generated (h : store) (point : pointer)
    (pt : Point) :
  pointee h point = Some pt -> generated pt ->
  exists d : float,
    RawPoint.ManhattanToOrigin h point = Returns d /\
    SharedPos2d.ManhattanToOrigin h point = Returns d /\
    F32.is_finite d = true /\
    F32.le F32.zero d = true /\ F32.le d F32.two = true /\
    F32.lt d F32.FLT_MAX = true.
Proof.
  intros Hp Hg. exists (Core.distance F32.std_fabs pt).
  split; [exact (Manhattan_pointee F32.std_fabs h point pt Hp)|].
  split; [exact (Manhattan_pointee F32.std_abs h point pt Hp)|].
  destruct (generated_distance pt Hg) as [H2 Hmax].
  pose proof (distance_unsigned pt) as Hu.
  pose proof (lt_max_finite _ Hmax Hu) as Hf.
  split; [exact Hf|]. split; [|split; [exact H2|exact Hmax]].
  apply le_zero_unsigned; [exact Hu|]. apply finite_not_nan. exact Hf.
Qed.

(** The point [(0.9, 0.9)] of the scenario. *)
Lemma ManhattanToOrigin_generated_witness :
  pointee Examples.scenario_store (Some 2%positive)
  = Some (mkPoint (F32.literal 9 10) (F32.literal 9 10)) /\
  generated (mkPoint (F32.literal 9 10) (F32.literal 9 10)) /\
  exists d : float,
    RawPoint.ManhattanToOrigin Examples.scenario_store (Some 2%positive)
    = Returns d /\
    F32.le d F32.two = true.
Proof.
  assert (Hg : generated (mkPoint (F32.literal 9 10) (F32.literal 9 10)))
    by (repeat split; reflexivity).
  split; [reflexivity|]. split; [exact Hg|].
  destruct (ManhattanToOrigin_generated Examples.scenario_store
              (Some 2%positive)
              (mkPoint (F32.literal 9 10) (F32.literal 9 10)) eq_refl Hg)
    as (d & E & _ & _ & _ & H2 & _).
  exists d. split; [exact E|exact H2].
Defined.

(** ** The order of evaluation of the arguments *)

Section EvaluationOrder.

Context {Engine : Type}.
Variable cpp11 : bool.
Variable uniform : float -> float -> Engine -> float * Engine.
Variable rand : Engine -> Z * Engine.
Variable RAND_MAX : Z.





End EvaluationOrder.






(** ** Vectors made of two parts *)

Section Append.

Import F32 F32Order.

Lemma le_not_lt (a b : float) : le a b = true -> lt b a = false.
Proof.
  unfold lt, le, SFltb, SFleb.
  destruct a as [[]|[]| |[] ma ea], b as [[]|[]| |[] mb eb];
    simpl; intros; try discriminate; try reflexivity; split_compare.
Qed.

Lemma le_not_nan (a b : float) : le a b = true -> is_nan a = false.
Proof. destruct a, b; simpl; intros; try reflexivity; discriminate. Qed.

Lemma scan_le_max {A : Type} (l : list (A * float)) :
  forall s : A * float,
    le s.2 FLT_MAX = true -> le (scan l s).2 FLT_MAX = true.
Proof.
  induction l as [|c l IH]; intros s Hs; [exact Hs|].
  cbn [scan fold_left]. apply IH. apply select_le_max. exact Hs.
Qed.

(** Selecting is associative on states that are at most [FLT_MAX], with
    the initial state as a unit. *)
Lemma select_assoc {A : Type} (a0 : A) (s c t : A * float) :
  le s.2 FLT_MAX = true -> le t.2 FLT_MAX = true ->
  select (select s c) t
  = select s (select (select (a0, FLT_MAX) c) t).
Proof.
  intros Hs Ht. unfold select. cbn [fst snd].
  pose proof (le_not_nan _ _ Hs) as Hns.
  pose proof (le_not_nan _ _ Ht) as Hnt.
  destruct (lt c.2 s.2) eqn:A1.
  - rewrite (lt_le_trans _ _ _ A1 Hs).
    destruct (lt t.2 c.2) eqn:A2.
    + rewrite (lt_trans _ _ _ A2 A1). reflexivity.
    + rewrite A1. reflexivity.
  - destruct (lt c.2 FLT_MAX) eqn:B.
    + destruct (lt t.2 c.2) eqn:A2; [reflexivity|].
      rewrite A1.
      assert (E : lt t.2 s.2 = false); [|rewrite E; reflexivity].
      pose proof (lt_not_nan_l _ _ B) as Hnc.
      apply le_not_lt. apply (le_trans _ c.2).
      * apply not_lt_le; assumption.
      * apply not_lt_le; assumption.
    + cbn [snd]. destruct (lt t.2 FLT_MAX) eqn:A2; [reflexivity|].
      cbn [snd]. rewrite (le_not_lt _ _ Hs).
      assert (E : lt t.2 s.2 = false); [|rewrite E; reflexivity].
      destruct (lt t.2 s.2) eqn:A3; [|reflexivity].
      rewrite (lt_le_trans _ _ _ A3 Hs) in A2. discriminate.
Qed.

Lemma scan_from {A : Type} (a0 : A) (l : list (A * float)) :
  forall s : A * float,
    le s.2 FLT_MAX = true ->
    scan l s = select s (scan l (a0, FLT_MAX)).
Proof.
  induction l as [|c l IH]; intros s Hs.
  - cbn [scan fold_left]. unfold select. cbn [snd].
    rewrite (le_not_lt _ _ Hs). reflexivity.
  - cbn [scan fold_left]. fold (scan l (select s c)).
    fold (scan l (select (a0, FLT_MAX) c)).
    rewrite (IH (select s c)) by (apply select_le_max; exact Hs).
    rewrite (IH (select (a0, FLT_MAX) c))
      by (apply select_le_max; reflexivity).
    apply select_assoc; [exact Hs|].
    apply scan_le_max. reflexivity.
Qed.

Lemma for_each_app {A St : Type} (body : St -> A -> outcome St)
    (l1 l2 : list A) :
  forall s, for_each body (l1 ++ l2) s
            = s' ← for_each body l1 s; for_each body l2 s'.
Proof.
  induction l1 as [|a l1 IH]; intros s; [reflexivity|].
  cbn [app for_each]. destruct (body s a) as [s'| |]; cbn [mbind outcome_bind];
    try reflexivity.
  apply IH.
Qed.

Lemma count_below_app (t : float) (ds1 ds2 : list float) :
  count_below t (ds1 ++ ds2) = count_below t ds1 + count_below t ds2.
Proof.
  induction ds1 as [|d ds1 IH]; cbn [app count_below]; [reflexivity|].
  rewrite IH. lia.
Qed.

End Append.

(** X7.  The results for a vector made of two parts are made of the results
    for the parts: the counts add up, and the [shared_ptr] search returns
    the nearer of the two points that it returns for the parts, the one of
    the first part when both are as near. *)
Theorem results_of_parts (h : store) (points1 points2 : list pointer) :
  Forall (live h) points1 -> Forall (live h) points2 ->
  exists (n1 n2 : Z) (r1 r2 : pointer * float),
    SharedPoint.nearOrigin h points1 = Returns n1 /\
    SharedPoint.nearOrigin h points2 = Returns n2 /\
    SharedPoint.nearOrigin h (points1 ++ points2) = Returns (n1 + n2) /\
    RawPoint.nearOrigin h (points1 ++ points2) = Returns (n1 + n2) /\
    SharedPoint.NearestToOrigin h points1 = Returns r1 /\
    SharedPoint.NearestToOrigin h points2 = Returns r2 /\
    SharedPoint.NearestToOrigin h (points1 ++ points2)
    = Returns (if F32.lt r2.2 r1.2 then r2 else r1).
Proof.
  intros Hl1 Hl2.
  apply live_holds in Hl1 as [pts1 H1]. apply live_holds in Hl2 as [pts2 H2].
  assert (H : holds h (points1 ++ points2) (pts1 ++ pts2))
    by (apply Forall2_app; assumption).
  set (ds1 := map (Core.distance F32.std_fabs) pts1).
  set (ds2 := map (Core.distance F32.std_fabs) pts2).
  pose proof (count_loop F32.std_fabs h _ _ H1 0) as E1.
  pose proof (count_loop F32.std_fabs h _ _ H2 0) as E2.
  pose proof (count_loop F32.std_fabs h _ _ H 0) as E.
  rewrite Z.add_0_l in E1, E2, E. rewrite map_app, count_below_app in E.
  fold ds1 in E1, E. fold ds2 in E2, E.
  pose proof (nearest_loop F32.std_fabs h _ _ H1 (nullptr, F32.FLT_MAX))
    as S1.
  pose proof (nearest_loop F32.std_fabs h _ _ H2) as S2.
  fold ds1 in S1. fold ds2 in S2.
  exists (count_below F32.half ds1), (count_below F32.half ds2),
         (scan (zip points1 ds1) (nullptr, F32.FLT_MAX)),
         (scan (zip points2 ds2) (nullptr, F32.FLT_MAX)).
  split; [exact E1|]. split; [exact E2|]. split; [exact E|].
  split; [unfold RawPoint.nearOrigin; rewrite count_indexed_range; exact E|].
  split; [exact S1|]. split; [exact (S2 _)|].
  unfold SharedPoint.NearestToOrigin, Core.NearestToOrigin_shared.
  rewrite for_each_app, S1. cbn [mbind outcome_bind]. rewrite S2.
  f_equal. apply scan_from. apply scan_le_max. reflexivity.
Qed.

(** The scenario, as [[(0.1, 0.1)]] followed by
    [[(0.9, 0.9), (-0.2, 0.1)]]. *)
Lemma results_of_parts_witness :
  Forall (live Examples.scenario_store) [Some 1%positive] /\
  Forall (live Examples.scenario_store) [Some 2%positive; Some 3%positive] /\
  exists n1 n2 : Z,
    SharedPoint.nearOrigin Examples.scenario_store [Some 1%positive]
    = Returns n1 /\
    SharedPoint.nearOrigin Examples.scenario_store
      [Some 2%positive; Some 3%positive] = Returns n2 /\
    SharedPoint.nearOrigin Examples.scenario_store Examples.scenario_points
    = Returns (n1 + n2).
Proof.
  assert (H1 : Forall (live Examples.scenario_store) [Some 1%positive])
    by (repeat constructor; eexists; reflexivity).
  assert (H2 : Forall (live Examples.scenario_store)
                      [Some 2%positive; Some 3%positive])
    by (repeat constructor; eexists; reflexivity).
  split; [exact H1|]. split; [exact H2|].
  destruct (results_of_parts Examples.scenario_store _ _ H1 H2)
    as (n1 & n2 & _ & _ & E1 & E2 & E & _).
  exists n1, n2. split; [exact E1|]. split; [exact E2|exact E].
Defined.
